(** * LUXBIN quantum loop: codec, outcome decoder, pipeline and persistent loop

    A shallow embedding of [luxbin_persistent_loop.py] and of the pipeline
    of [luxbin_quantum_full_experiment.py].

    Python [float] is IEEE-754 binary64: it is modelled by Rocq's primitive
    [float], so every arithmetic step below is the bit-exact counterpart of
    the source expression.  Python [dict]s are association lists in insertion
    order (the order in which [items()] iterates), [str] messages are
    [string]s of characters with code points below 256 and single symbols
    are [ascii] characters. *)

From Stdlib Require Import List String Ascii ZArith Bool Lia Arith.
From Stdlib Require Import Permutation Sorted.
From Stdlib Require Import PrimFloat SpecFloat FloatOps.
Import ListNotations.

Set Warnings "-inexact-float".
Local Open Scope list_scope.

(** ** Python values and exceptions *)

Module Py.

(** The exceptions that the modelled code can raise. *)
Inductive exn : Type :=
| ValueError          (* int('', 2), max() of an empty sequence *)
| IndexError          (* subscript of an empty list *)
| AttributeError      (* [append] on a value that is not a list *)
| OSError             (* file could not be opened or written *)
| CircuitError        (* a gate on a qubit index out of range or twice on one qubit *)
| OverflowError       (* quotient of two integers too large for a float *)
| OracleError (code : nat). (* any failure raised by the external service *)

Inductive result (A : Type) : Type :=
| Ok (a : A)
| Raise (e : exn).
Arguments Ok {A} a.
Arguments Raise {A} e.

Definition bind {A B} (r : result A) (k : A -> result B) : result B :=
  match r with
  | Ok a => k a
  | Raise e => Raise e
  end.

Definition is_ok {A} (r : result A) : bool :=
  match r with Ok _ => true | Raise _ => false end.

(** [min(xs, key=k)]: the first element whose key is smallest; the running
    best is replaced only by a strictly smaller key. *)
Fixpoint min_from {A} (k : A -> float) (best : A) (xs : list A) : A :=
  match xs with
  | [] => best
  | x :: r => if PrimFloat.ltb (k x) (k best) then min_from k x r
              else min_from k best r
  end.

Definition min_key {A} (k : A -> float) (xs : list A) : result A :=
  match xs with
  | [] => Raise ValueError
  | x :: r => Ok (min_from k x r)
  end.

(** [max(xs, key=k)] with integer keys: the first element whose key is
    largest. *)
Fixpoint max_from {A} (k : A -> Z) (best : A) (xs : list A) : A :=
  match xs with
  | [] => best
  | x :: r => if Z.ltb (k best) (k x) then max_from k x r
              else max_from k best r
  end.

Definition max_key {A} (k : A -> Z) (xs : list A) : result A :=
  match xs with
  | [] => Raise ValueError
  | x :: r => Ok (max_from k x r)
  end.

(** [sorted(xs, key=k)]: ascending and stable.  An element is placed in
    front of the first later element whose key is not smaller. *)
Fixpoint insert_by {A} (k : A -> Z) (x : A) (xs : list A) : list A :=
  match xs with
  | [] => [x]
  | y :: r => if Z.ltb (k y) (k x) then y :: insert_by k x r
              else x :: y :: r
  end.

Fixpoint sorted {A} (k : A -> Z) (xs : list A) : list A :=
  match xs with
  | [] => []
  | x :: r => insert_by k x (sorted k r)
  end.

(** [xs.count(x)] on a list of characters. *)
Definition count (xs : list ascii) (x : ascii) : Z :=
  Z.of_nat (List.length (filter (Ascii.eqb x) xs)).

(** [collections.Counter(xs)]: one entry per distinct element, in order of
    first occurrence. *)
Fixpoint counter_add (x : ascii) (c : list (ascii * Z)) : list (ascii * Z) :=
  match c with
  | [] => [(x, 1%Z)]
  | (y, n) :: r => if Ascii.eqb x y then (y, (n + 1)%Z) :: r
                   else (y, n) :: counter_add x r
  end.

Definition Counter (xs : list ascii) : list (ascii * Z) :=
  fold_left (fun c x => counter_add x c) xs [].

(** [Counter.most_common(1)]: [heapq.nlargest(1, items, key=count)], which is
    [max] over the items and the empty list for an empty counter.  Indexing
    the result with [[0]] is done by the caller. *)
Definition most_common_1 (c : list (ascii * Z)) : list (ascii * Z) :=
  match c with
  | [] => []
  | x :: r => [max_from snd x r]
  end.

(** [a / b] on integers [0 <= a], [0 < b]: the quotient rounded once to the
    nearest binary64 (ties to even). *)
Definition int_true_divide (a b : Z) : float :=
  match a, b with
  | Zpos p, Zpos q =>
      SF2Prim (SFdiv prec emax (S754_finite false p 0) (S754_finite false q 0))
  | _, _ => 0%float
  end.

(** [a / b] where the quotient is not bounded by the context: a quotient
    beyond the largest float raises. *)
Definition true_divide (a b : Z) : result float :=
  let q := int_true_divide a b in
  if PrimFloat.is_infinity q then Raise OverflowError else Ok q.

End Py.
Export Py.

(** ** Codebook and channel codec *)

Local Open Scope char_scope.
Local Open Scope float_scope.

Definition CHAR_WAVELENGTHS : list (ascii * float) :=
  [ ("A", 400.0); ("B", 403.9); ("C", 407.8); ("D", 411.7); ("E", 415.6);
    ("F", 419.5); ("G", 423.4); ("H", 427.3); ("I", 431.2); ("J", 435.1);
    ("K", 439.0); ("L", 442.9); ("M", 446.8); ("N", 450.6); ("O", 454.5);
    ("P", 458.4); ("Q", 462.3); ("R", 466.2); ("S", 470.1); ("T", 474.0);
    ("U", 477.9); ("V", 481.8); ("W", 485.7); ("X", 489.6); ("Y", 493.5);
    ("Z", 497.4); (" ", 540.3) ].

Definition CHAR_FREQUENCIES : list (ascii * float) :=
  [ ("A", 440.0); ("B", 493.9); ("C", 523.3); ("D", 587.3); ("E", 659.3);
    ("F", 698.5); ("G", 784.0); ("H", 830.6); ("I", 880.0); ("J", 932.3);
    ("K", 987.8); ("L", 1046.5); ("M", 1108.7); ("N", 1174.7); ("O", 1244.5);
    ("P", 1318.5); ("Q", 1396.9); ("R", 1480.0); ("S", 1568.0); ("T", 1661.2);
    ("U", 1760.0); ("V", 1864.7); ("W", 1975.5); ("X", 2093.0); ("Y", 2217.5);
    ("Z", 2349.3); (" ", 262.6) ].

Definition CHAR_MICROWAVES : list (ascii * float) :=
  [ ("A", 4.000); ("B", 4.154); ("C", 4.308); ("D", 4.462); ("E", 4.615);
    ("F", 4.769); ("G", 4.923); ("H", 5.077); ("I", 5.231); ("J", 5.385);
    ("K", 5.538); ("L", 5.692); ("M", 5.846); ("N", 6.000); ("O", 6.154);
    ("P", 6.308); ("Q", 6.462); ("R", 6.615); ("S", 6.769); ("T", 6.923);
    ("U", 7.077); ("V", 7.231); ("W", 7.385); ("X", 7.538); ("Y", 7.692);
    ("Z", 7.846); (" ", 5.500) ].

Definition MW_MIN : float := 4.0.
Definition MW_MAX : float := 8.0.

(** The three channels of the codebook. *)
Inductive channel : Type := Light | Sound | Microwave.

Definition channel_table (c : channel) : list (ascii * float) :=
  match c with
  | Light => CHAR_WAVELENGTHS
  | Sound => CHAR_FREQUENCIES
  | Microwave => CHAR_MICROWAVES
  end.

(** [min(TABLE.items(), key=lambda x: abs(x[1] - v))[0]].  The tables are
    non-empty constants, so [min] cannot raise here. *)
Definition nearest (table : list (ascii * float)) (v : float) : ascii :=
  match min_key (fun x => PrimFloat.abs (snd x - v)) table with
  | Ok x => fst x
  | Raise _ => " "
  end.

Definition wavelength_to_char (wl : float) : ascii := nearest CHAR_WAVELENGTHS wl.
Definition frequency_to_char (freq : float) : ascii := nearest CHAR_FREQUENCIES freq.
Definition microwave_to_char (mw : float) : ascii := nearest CHAR_MICROWAVES mw.

Definition channel_to_char (c : channel) : float -> ascii :=
  match c with
  | Light => wavelength_to_char
  | Sound => frequency_to_char
  | Microwave => microwave_to_char
  end.

(** [TABLE[s]]: subscripting raises [KeyError] on a missing symbol, modelled
    by [None]. *)
Fixpoint dict_get (s : ascii) (table : list (ascii * float)) : option float :=
  match table with
  | [] => None
  | (k, v) :: r => if Ascii.eqb s k then Some v else dict_get s r
  end.

Definition char_to_channel (c : channel) (s : ascii) : option float :=
  dict_get s (channel_table c).

(** The 27 symbols of the codebook: the keys of the tables. *)
Definition symbols : list ascii := map fst CHAR_WAVELENGTHS.

(** ** Outcome decoder *)

(** A key of an outcome distribution is a bit pattern, written by the source
    as a [str] of the characters '0' ([false]) and '1' ([true]), leftmost
    character first.  A distribution is the [dict] from keys to counts. *)
Definition bitstring : Type := list bool.
Definition counts : Type := list (bitstring * Z).

(** [int(bitstring, 2)]; the empty string is not a valid literal. *)
Definition int2 (b : bitstring) : result Z :=
  match b with
  | [] => Raise ValueError
  | _ :: _ => Ok (fold_left (fun acc (bit : bool) =>
                               (2 * acc + (if bit then 1 else 0))%Z) b 0%Z)
  end.

(** The three channel values addressed by a ratio. *)
Definition ratio_wl (ratio : float) : float := 400 + ratio * 300.
Definition ratio_freq (ratio : float) : float := 262.6 + ratio * (2349.3 - 262.6).
Definition ratio_mw (ratio : float) : float := MW_MIN + ratio * (MW_MAX - MW_MIN).

(** The three channel votes of one position, Light first. *)
Definition channel_votes (wl freq mw : float) : list ascii :=
  [wavelength_to_char wl; frequency_to_char freq; microwave_to_char mw].

(** [winner = Counter(votes).most_common(1)[0]] followed by
    [winner[0] if winner[1] >= 2 else votes[0]]. *)
Definition resolve (votes : list ascii) : result ascii :=
  match most_common_1 (Counter votes) with
  | [] => Raise IndexError
  | winner :: _ =>
      if (2 <=? snd winner)%Z then Ok (fst winner)
      else match votes with
           | [] => Raise IndexError
           | v0 :: _ => Ok v0
           end
  end.

(** The decoded position of one key: (symbol, wl, freq, mw). *)
Definition position : Type := (ascii * float * float * float)%type.

Definition pos_char (p : position) : ascii := fst (fst (fst p)).
Definition pos_wl (p : position) : float := snd (fst (fst p)).
Definition pos_freq (p : position) : float := snd (fst p).
Definition pos_mw (p : position) : float := snd p.

(** [max_val = 2 ** len(bitstring) - 1] and
    [ratio = value / max_val if max_val > 0 else 0.5]. *)
Definition key_ratio (value : Z) (width : nat) : float :=
  let max_val := (2 ^ Z.of_nat width - 1)%Z in
  if (0 <? max_val)%Z then int_true_divide value max_val else 0.5.

(** Body of the [for bitstring, count in sorted_counts[:n_chars]] loop. *)
Definition decode_key (b : bitstring) : result position :=
  bind (int2 b) (fun value =>
  let ratio := key_ratio value (List.length b) in
  let wl := ratio_wl ratio in
  let freq := ratio_freq ratio in
  let mw := ratio_mw ratio in
  bind (resolve (channel_votes wl freq mw)) (fun c => Ok (c, wl, freq, mw))).

(** The loop itself: positions are appended in order; the first key that
    raises aborts the whole call. *)
Fixpoint decode_keys (items : list (bitstring * Z)) : result (list position) :=
  match items with
  | [] => Ok []
  | (b, _) :: r =>
      bind (decode_key b) (fun p =>
      bind (decode_keys r) (fun ps => Ok (p :: ps)))
  end.

(** [sorted(counts.items(), key=lambda x: -x[1])]. *)
Definition sorted_counts (c : counts) : list (bitstring * Z) :=
  sorted (fun x => (- snd x)%Z) c.

Definition decoded : Type :=
  (string * list float * list float * list float)%type.

Definition decode_counts (c : counts) (n_chars : nat) : result decoded :=
  bind (decode_keys (firstn n_chars (sorted_counts c))) (fun ps =>
  Ok (string_of_list_ascii (map pos_char ps),
      map pos_wl ps, map pos_freq ps, map pos_mw ps)).

(** The decoded message alone, as the callers use it with the default
    [n_chars=5]. *)
Definition decode_message (c : counts) : result string :=
  bind (decode_counts c 5) (fun d => Ok (fst (fst (fst d)))).

(** ** Transform request builder

    A circuit is determined by its phase profile, its number of qubits and
    the three channel values looked up for each encoded symbol; the gate
    list that the source derives from these is not consumed by the core.
    Of the gates only the one that can be refused is modelled, by the check
    the circuit library makes on its qubits. *)

Local Open Scope string_scope.

Inductive profile : Type :=
| Echo
| Relay (leg : nat)
| Consensus
| Ping
| Pong.

Record circuit : Type := mkCircuit {
  qc_profile : profile;
  qc_qubits : nat;
  qc_encoded : list (float * float * float)
}.

(** [c.upper()] on the characters of a message.  Messages are strings of
    characters with code points below 256; among these only the letters a
    to z have an upper case that is a key of the tables, and any other
    character is looked up under a key the tables do not hold, its own or
    that of its upper case alike. *)
Definition upper (c : ascii) : ascii :=
  let n := nat_of_ascii c in
  if andb (97 <=? n)%nat (n <=? 122)%nat then ascii_of_nat (n - 32) else c.

(** [TABLE.get(k, default)]. *)
Definition dict_get_default (k : ascii) (table : list (ascii * float))
           (default : float) : float :=
  match dict_get k table with
  | Some v => v
  | None => default
  end.

(** The three look-ups at the head of [encode_char] and [build_ping]. *)
Definition encode_char (c : ascii) : float * float * float :=
  (dict_get_default (upper c) CHAR_WAVELENGTHS 540.3,
   dict_get_default (upper c) CHAR_FREQUENCIES 262.6,
   dict_get_default (upper c) CHAR_MICROWAVES 5.5).

(** [msg[:n]] *)
Definition take (n : nat) (msg : string) : string := substring 0 n msg.

Definition encode_message (n : nat) (msg : string) : list (float * float * float) :=
  map encode_char (list_ascii_of_string (take n msg)).

(** A character of a Python string, by its code point. *)
Definition codepoint : Type := N.

(** [char.upper()] of any character, where it is a single ASCII character;
    no other result is a key of the tables.  An ASCII character has the
    upper case [upper] gives; beyond ASCII the upper case of U+0131
    (dotless i) is I and that of U+017F (long s) is S, and every other
    character has an upper case beyond ASCII or of several characters. *)
Definition upper_key (cp : codepoint) : option ascii :=
  if (cp <? 128)%N then Some (upper (ascii_of_N cp))
  else if (cp =? 305)%N then Some "I"%char
  else if (cp =? 383)%N then Some "S"%char
  else None.

(** The three look-ups of [encode_char] on any character. *)
Definition encode_codepoint (cp : codepoint) : float * float * float :=
  match upper_key cp with
  | Some k => (dict_get_default k CHAR_WAVELENGTHS 540.3,
               dict_get_default k CHAR_FREQUENCIES 262.6,
               dict_get_default k CHAR_MICROWAVES 5.5)
  | None => (540.3, 262.6, 5.5)
  end.
Arguments upper_key cp%_N.
Arguments encode_codepoint cp%_N.

(** [qc.cx(control, target)] on a circuit of [n] qubits, as far as it can
    fail: an index outside [-n, n) raises, and so does a gate with the same
    qubit as control and target (a negative index counts from the end). *)
Definition qubit_index (n : nat) (i : Z) : result Z :=
  if (0 <=? i)%Z && (i <? Z.of_nat n)%Z then Ok i
  else if (- Z.of_nat n <=? i)%Z && (i <? 0)%Z then Ok (Z.of_nat n + i)%Z
  else Raise CircuitError.

Definition cx (n : nat) (control target : Z) : result unit :=
  bind (qubit_index n control) (fun c =>
  bind (qubit_index n target) (fun t =>
  if (c =? t)%Z then Raise CircuitError else Ok tt)).

Definition build_echo (msg : string) : circuit :=
  let n := Nat.min (String.length msg) 5 in
  mkCircuit Echo n (encode_message n msg).

(** Of the gates the builders apply, all but one act on qubits [i] and
    [i+1] with [i+1 < n] or on a qubit [i < n], and cannot fail; the
    exception is [qc.cx(n-1, 0)] of the third relay leg. *)
Definition build_relay (msg : string) (leg : nat) : result circuit :=
  let n := Nat.min (String.length msg) 5 in
  bind (if Nat.eqb leg 3 then cx n (Z.of_nat n - 1) 0 else Ok tt) (fun _ =>
  Ok (mkCircuit (Relay leg) n (encode_message n msg))).

Definition build_consensus (msg : string) : circuit :=
  let n := 5%nat in
  let msg := take 5 (msg ++ "AAAAA") in
  mkCircuit Consensus n (map encode_char (list_ascii_of_string msg)).

Definition build_ping (msg : string) (is_pong : bool) : circuit :=
  let n := Nat.min (String.length msg) 5 in
  mkCircuit (if is_pong then Pong else Ping) n (encode_message n msg).

(** ** Consensus aggregate *)

(** [max(set(votes), key=votes.count)].  [set_items] is the order in which
    the set of distinct votes is iterated; Python leaves it unspecified (it
    follows the hashes of the elements). *)
Definition majority_vote (set_items : list ascii) (votes : list ascii) : result ascii :=
  max_key (count votes) set_items.

(** A list [s] is an iteration order of [set(votes)]. *)
Definition set_iteration (votes s : list ascii) : Prop :=
  NoDup s /\ forall x, In x s <-> In x votes.

(** [while len(consensus) < 5: consensus += majority].  Every turn adds one
    character, so five turns always suffice. *)
Fixpoint pad_while (fuel : nat) (consensus : string) (majority : ascii) : string :=
  match fuel with
  | O => consensus
  | S fuel' =>
      if (String.length consensus <? 5)%nat
      then pad_while fuel' (consensus ++ String majority EmptyString) majority
      else consensus
  end.

(** The aggregate step: majority, join, pad, truncate. *)
Definition aggregate (set_items : list ascii) (votes : list ascii) : result (ascii * string) :=
  bind (majority_vote set_items votes) (fun majority =>
  let consensus := string_of_list_ascii votes in
  let consensus := pad_while 5 consensus majority in
  Ok (majority, take 5 consensus)).

(** The vote of one node: its most frequent key through the Light channel. *)
Definition top_key (c : counts) : result bitstring :=
  bind (max_key (fun x : bitstring * Z => snd x) c) (fun top => Ok (fst top)).

Definition vote_light (c : counts) : result ascii :=
  bind (top_key c) (fun top =>
  bind (int2 top) (fun val =>
  bind (true_divide val 31) (fun ratio =>
  Ok (wavelength_to_char (400 + ratio * 300))))).

(** ** The outside world

    Everything the scripts obtain from outside is collected in [Env]: the
    Oracle ([run_hw] on hardware, [run_circuit] on the simulator), the clock,
    [time.sleep], the scheduling of the consensus threads and the iteration
    order of a [set].  The blocking calls also report whether a shutdown
    signal (SIGTERM or SIGINT) was delivered while they were in flight. *)

Inductive backend : Type := backend_a | backend_b | backend_c.

Definition job_id : Type := string.

(** The six orders in which three concurrent tasks can start or finish. *)
Inductive order3 : Type := O123 | O132 | O213 | O231 | O312 | O321.

Definition order_indices (o : order3) : list nat :=
  match o with
  | O123 => [0; 1; 2] | O132 => [0; 2; 1] | O213 => [1; 0; 2]
  | O231 => [1; 2; 0] | O312 => [2; 0; 1] | O321 => [2; 1; 0]
  end%nat.

Record Env (World : Type) : Type := mkEnv {
  run_hw : backend -> circuit -> nat -> World ->
           result (counts * job_id) * bool * World;
  run_circuit : circuit -> nat -> World -> result counts * World;
  sleep : nat -> World -> bool * World;
  time_time : World -> float;
  isoformat_now : World -> string;
  round1 : float -> float;              (* round(x, 1) *)
  start_order : World -> order3;        (* order in which the votes reach the Oracle *)
  finish_order : World -> order3;       (* order of [as_completed] *)
  set_order : list ascii -> list ascii  (* iteration order of [set(votes)] *)
}.
Arguments run_hw {World}.
Arguments run_circuit {World}.
Arguments sleep {World}.
Arguments time_time {World}.
Arguments isoformat_now {World}.
Arguments round1 {World}.
Arguments start_order {World}.
Arguments finish_order {World}.
Arguments set_order {World}.

(** The same world with every shutdown signal withheld. *)
Definition mute {World} (env : Env World) : Env World :=
  mkEnv World
    (fun b qc shots w => let '(r, _, w') := run_hw env b qc shots w in (r, false, w'))
    (run_circuit env)
    (fun s w => let '(_, w') := sleep env s w in (false, w'))
    (time_time env) (isoformat_now env) (round1 env)
    (start_order env) (finish_order env) (set_order env).

(** ** Records written by the scripts *)

(** [loop_data] of the persistent loop. *)
Record loop_record : Type := mkLoopRecord {
  rec_loop : nat;
  rec_timestamp : string;
  rec_input : string;
  rec_output : string;
  rec_jobs : list job_id;
  rec_job_count : nat;
  rec_loop_time_seconds : float;
  rec_total_jobs_all_time : nat
}.

(** An element of a JSON array: a loop record or any other JSON value. *)
Inductive json_value : Type :=
| JRecord (r : loop_record)
| JForeign.

(** The log file on disk, by what [os.path.exists] and [json.load] make of
    it. *)
Inductive disk_file : Type :=
| Absent                             (* the path does not exist *)
| Unreadable                         (* exists, but open or json.load raises *)
| HoldsList (xs : list json_value)   (* loads to a list *)
| HoldsOther.                        (* loads to a value that is not a list *)

Record fs : Type := mkFs {
  log_file : disk_file;
  writable : bool        (* whether open(LOG_FILE, 'w') succeeds *)
}.

(** An entry of [pipeline_log] in the single-run scripts. *)
Record log_entry : Type := mkLogEntry {
  le_phase : string;
  le_in : string;
  le_out : string;
  le_node : string;
  le_time : float
}.

(** Lines of the status stream written by [log]; the time stamp that
    prefixes every line is left out. *)
Inductive line : Type :=
| Text (s : string)
| LoopHeader (n : nat) (input : string) (now : string)
| PhaseLine (label : string) (b : backend) (msg : string)
| ResponseLine (response : string) (jid : job_id)
| ConsensusLine (msg : string)
| ConsensusResult (msg : string) (votes : list ascii)
| CompleteLine (n : nat) (input response : string)
| JobsLine (jobs : nat) (loop_time : float) (total : nat)
| NextInputLine (msg : string)
| ErrorLine (n : nat) (e : exn)
| ShutdownLine
| StoppedLine (n total : nat).

(** One submission as the Oracle sees it. *)
Record call : Type := mkCall {
  call_node : option backend;
  call_circuit : circuit;
  call_shots : nat
}.

Definition call_profile (c : call) : profile := qc_profile (call_circuit c).

(** ** Program state and the monad of the scripts *)

Section State.

Variable World : Type.

(** The module-level variables of the scripts together with the world, the
    disk and two histories: the submissions made so far ([calls]) and the
    status stream ([status]).  Assignments are written with the [set_]
    functions. *)
Record state : Type := mkState {
  world : World;
  running : bool;
  loop_num : nat;
  total_jobs : nat;
  current : string;
  jobs_this_loop : list job_id;
  pipeline_log : list log_entry;
  calls : list call;
  status : list line;
  disk : fs
}.

Definition set_world (w : World) (s : state) : state :=
  mkState w (running s) (loop_num s) (total_jobs s) (current s)
          (jobs_this_loop s) (pipeline_log s) (calls s) (status s) (disk s).
Definition set_running (b : bool) (s : state) : state :=
  mkState (world s) b (loop_num s) (total_jobs s) (current s)
          (jobs_this_loop s) (pipeline_log s) (calls s) (status s) (disk s).
Definition set_loop_num (n : nat) (s : state) : state :=
  mkState (world s) (running s) n (total_jobs s) (current s)
          (jobs_this_loop s) (pipeline_log s) (calls s) (status s) (disk s).
Definition set_total_jobs (n : nat) (s : state) : state :=
  mkState (world s) (running s) (loop_num s) n (current s)
          (jobs_this_loop s) (pipeline_log s) (calls s) (status s) (disk s).
Definition set_current (m : string) (s : state) : state :=
  mkState (world s) (running s) (loop_num s) (total_jobs s) m
          (jobs_this_loop s) (pipeline_log s) (calls s) (status s) (disk s).
Definition set_jobs_this_loop (l : list job_id) (s : state) : state :=
  mkState (world s) (running s) (loop_num s) (total_jobs s) (current s)
          l (pipeline_log s) (calls s) (status s) (disk s).
Definition set_pipeline_log (l : list log_entry) (s : state) : state :=
  mkState (world s) (running s) (loop_num s) (total_jobs s) (current s)
          (jobs_this_loop s) l (calls s) (status s) (disk s).
Definition set_calls (l : list call) (s : state) : state :=
  mkState (world s) (running s) (loop_num s) (total_jobs s) (current s)
          (jobs_this_loop s) (pipeline_log s) l (status s) (disk s).
Definition set_status (l : list line) (s : state) : state :=
  mkState (world s) (running s) (loop_num s) (total_jobs s) (current s)
          (jobs_this_loop s) (pipeline_log s) (calls s) l (disk s).
Definition set_disk (d : fs) (s : state) : state :=
  mkState (world s) (running s) (loop_num s) (total_jobs s) (current s)
          (jobs_this_loop s) (pipeline_log s) (calls s) (status s) d.

(** A statement: it may raise, and its effects stay in either case. *)
Definition M (A : Type) : Type := state -> result A * state.

Definition ret {A} (a : A) : M A := fun s => (Ok a, s).

Definition bindM {A B} (m : M A) (k : A -> M B) : M B :=
  fun s => match m s with
           | (Ok a, s') => k a s'
           | (Raise e, s') => (Raise e, s')
           end.

(** A pure computation that may raise. *)
Definition lift {A} (r : result A) : M A := fun s => (r, s).

Definition gets {A} (f : state -> A) : M A := fun s => (Ok (f s), s).

Definition modify (f : state -> state) : M unit := fun s => (Ok tt, f s).

(** [try: body except Exception as e: handler(e)] *)
Definition try_except {A} (body : M A) (handler : exn -> M A) : M A :=
  fun s => match body s with
           | (Ok a, s') => (Ok a, s')
           | (Raise e, s') => handler e s'
           end.

End State.

Arguments mkState {World}.
Arguments world {World}.
Arguments running {World}.
Arguments loop_num {World}.
Arguments total_jobs {World}.
Arguments current {World}.
Arguments jobs_this_loop {World}.
Arguments pipeline_log {World}.
Arguments calls {World}.
Arguments status {World}.
Arguments disk {World}.
Arguments set_world {World}.
Arguments set_running {World}.
Arguments set_loop_num {World}.
Arguments set_total_jobs {World}.
Arguments set_current {World}.
Arguments set_jobs_this_loop {World}.
Arguments set_pipeline_log {World}.
Arguments set_calls {World}.
Arguments set_status {World}.
Arguments set_disk {World}.
Arguments ret {World A}.
Arguments bindM {World A B}.
Arguments lift {World A}.
Arguments gets {World A}.
Arguments modify {World}.
Arguments try_except {World A}.

Declare Scope prog_scope.
Delimit Scope prog_scope with prog.
Notation "x <- m ;; k" := (bindM m (fun x => k))
  (at level 61, m at next level, right associativity) : prog_scope.
Notation "' p <- m ;; k" := (bindM m (fun p => k))
  (at level 61, p pattern, m at next level, right associativity) : prog_scope.
Notation "m ;; k" := (bindM m (fun _ => k))
  (at level 61, right associativity) : prog_scope.

(** ** Statements shared by the scripts *)

Section Program.

Context {World : Type}.
Variable env : Env World.

Local Open Scope prog_scope.
Local Abbreviation prog := (M World).

(** [log(msg)]: one more line on the status stream.  The status file is
    taken to accept every line, so that [log] itself does not raise. *)
Definition log (l : line) : prog unit :=
  modify (fun s => set_status (status s ++ [l])%list s).

(** The handler installed for SIGTERM and SIGINT. *)
Definition shutdown : prog unit :=
  log ShutdownLine ;;
  modify (set_running false).

(** Runs the handler when a signal came in during a blocking call. *)
Definition deliver (sig : bool) (s : state World) : state World :=
  if sig then snd (shutdown s) else s.

(** [run_hw(backend, qc, shots)] *)
Definition hw (b : backend) (qc : circuit) (shots : nat) : prog (counts * job_id) :=
  fun s =>
    match run_hw env b qc shots (world s) with
    | (r, sig, w) =>
        (r, deliver sig
              (set_world w (set_calls (calls s ++ [mkCall (Some b) qc shots])%list s)))
    end.

(** [run_circuit(qc, shots)] on the simulator. *)
Definition simulate (qc : circuit) (shots : nat) : prog counts :=
  fun s =>
    match run_circuit env qc shots (world s) with
    | (r, w) =>
        (r, set_world w (set_calls (calls s ++ [mkCall None qc shots])%list s))
    end.

(** [time.sleep(seconds)] *)
Definition sleep_for (seconds : nat) : prog unit :=
  fun s =>
    match sleep env seconds (world s) with
    | (sig, w) => (Ok tt, deliver sig (set_world w s))
    end.

(** [time.time()] and [datetime.now().isoformat()] *)
Definition clock : prog float := gets (fun s => time_time env (world s)).
Definition now_iso : prog string := gets (fun s => isoformat_now env (world s)).

(** What a future holds once its task is over: the value or the exception. *)
Definition capture {A} (m : prog A) : prog (result A) :=
  fun s => match m s with (r, s') => (Ok r, s') end.

(** [for x in xs: body(x)] *)
Fixpoint for_each {X} (xs : list X) (body : X -> prog unit) : prog unit :=
  match xs with
  | [] => ret tt
  | x :: r => body x ;; for_each r body
  end.

(** The three futures of the consensus pool, started in the order [order];
    each entry keeps the index under which the task was submitted. *)
Fixpoint fan_out {A} (order : list nat) (task : nat -> prog A)
  : prog (list (nat * result A)) :=
  match order with
  | [] => ret []
  | i :: rest =>
      r <- capture (task i) ;;
      rs <- fan_out rest task ;;
      ret ((i, r) :: rs)
  end.

(** [f.result()] of the future submitted under index [i]. *)
Definition future_result {A} (i : nat) (futs : list (nat * result A)) : result A :=
  match find (fun f => Nat.eqb (fst f) i) futs with
  | Some f => snd f
  | None => Raise IndexError
  end.

(** ** The persistent loop ([luxbin_persistent_loop.py]) *)

Definition backends : list backend := [backend_a; backend_b; backend_c].

(** [save_loop_result(loop_num, data)] *)
Definition save_loop_result (n : nat) (data : loop_record) : prog unit :=
  fun s =>
    let results :=
      match log_file (disk s) with
      | Absent => Some []
      | Unreadable => Some []
      | HoldsList xs => Some xs
      | HoldsOther => None
      end in
    match results with
    | None => (Raise AttributeError, s)
    | Some xs =>
        if writable (disk s)
        then (Ok tt, set_disk (mkFs (HoldsList (xs ++ [JRecord data])%list)
                                    (writable (disk s))) s)
        else (Raise OSError, s)
    end.

(** The block repeated for ECHO, each RELAY leg and each PING-PONG rally:
    log, build, submit, decode, record the job, log, move on. *)
Definition hop (label : string) (b : backend) (build : string -> result circuit)
           (shots : nat) : prog unit :=
  msg <- gets current ;;
  log (PhaseLine label b msg) ;;
  qc <- lift (build msg) ;;
  '(counts, jid) <- hw b qc shots ;;
  response <- lift (decode_message counts) ;;
  modify (fun s => set_jobs_this_loop (jobs_this_loop s ++ [jid])%list s) ;;
  log (ResponseLine response jid) ;;
  modify (set_current response).

(** ["RELAY Leg {leg}"] for the three legs. *)
Definition relay_label (leg : nat) : string :=
  match leg with
  | 1 => "RELAY Leg 1"
  | 2 => "RELAY Leg 2"
  | _ => "RELAY Leg 3"
  end%nat.

(** [do_vote(backend, msg)] *)
Definition do_vote (b : backend) (msg : string) : prog (ascii * job_id) :=
  '(counts, jid) <- hw b (build_consensus msg) 1000 ;;
  c <- lift (vote_light counts) ;;
  ret (c, jid).

(** The [as_completed] loop: votes and jobs are appended in completion
    order; the first future that holds an exception re-raises it. *)
Fixpoint collect_votes (order : list nat) (futs : list (nat * result (ascii * job_id)))
         (votes : list ascii) : prog (list ascii) :=
  match order with
  | [] => ret votes
  | i :: rest =>
      '(c, jid) <- lift (future_result i futs) ;;
      modify (fun s => set_jobs_this_loop (jobs_this_loop s ++ [jid])%list s) ;;
      collect_votes rest futs (votes ++ [c])%list
  end.

Definition consensus_phase : prog unit :=
  msg <- gets current ;;
  log (ConsensusLine msg) ;;
  starts <- gets (fun s => start_order env (world s)) ;;
  futs <- fan_out (order_indices starts)
            (fun i => do_vote (nth i backends backend_a) msg) ;;
  finishes <- gets (fun s => finish_order env (world s)) ;;
  votes <- collect_votes (order_indices finishes) futs [] ;;
  '(majority, consensus) <- lift (aggregate (set_order env votes) votes) ;;
  modify (set_current consensus) ;;
  log (ConsensusResult consensus votes).

(** [for rally in range(n)] of the PING-PONG phase. *)
Definition rally_step (rally : nat) : prog unit :=
  let is_pong := Nat.eqb (rally mod 2) 1 in
  let b := nth (rally mod 2) [backend_a; backend_b] backend_a in
  hop (if is_pong then "PING-PONG PONG" else "PING-PONG PING") b
      (fun msg => Ok (build_ping msg is_pong)) 500.

(** The final echo keeps [current] and leaves its output in [response]. *)
Definition final_echo : prog string :=
  msg <- gets current ;;
  log (PhaseLine "ECHO FINAL" backend_a msg) ;;
  '(counts, jid) <- hw backend_a (build_echo msg) 200 ;;
  response <- lift (decode_message counts) ;;
  modify (fun s => set_jobs_this_loop (jobs_this_loop s ++ [jid])%list s) ;;
  log (ResponseLine response jid) ;;
  ret response.

(** The phases that follow the first echo. *)
Definition later_phases : prog string :=
  for_each (combine (seq 1 3) backends)
    (fun lb => hop (relay_label (fst lb)) (snd lb)
                   (fun msg => build_relay msg (fst lb)) 500) ;;
  consensus_phase ;;
  for_each (seq 0 2) rally_step ;;
  final_echo.

(** The five phases of one loop iteration. *)
Definition phases : prog string :=
  hop "ECHO" backend_a (fun msg => Ok (build_echo msg)) 200 ;;
  later_phases.

(** Building and saving the loop record, then feeding the output back. *)
Definition record_loop (loop_start : float) (response : string) : prog unit :=
  t <- clock ;;
  let loop_time := (t - loop_start)%float in
  modify (fun s => set_total_jobs (total_jobs s + List.length (jobs_this_loop s)) s) ;;
  stamp <- now_iso ;;
  loop_data <- gets (fun s =>
    mkLoopRecord (loop_num s) stamp (current s) response (jobs_this_loop s)
                 (List.length (jobs_this_loop s)) (round1 env loop_time)
                 (total_jobs s)) ;;
  n <- gets loop_num ;;
  save_loop_result n loop_data ;;
  modify (set_current response) ;;
  log (CompleteLine n (rec_input loop_data) response) ;;
  total <- gets total_jobs ;;
  log (JobsLine (rec_job_count loop_data) loop_time total) ;;
  msg <- gets current ;;
  log (NextInputLine msg).

(** The pause between two loops, skipped once shutdown was requested. *)
Definition pause : prog unit :=
  r <- gets running ;;
  if r then log (Text "  Waiting 10s before next loop...") ;; sleep_for 10
  else ret tt.

(** The [except Exception] handler. *)
Definition on_error (e : exn) : prog unit :=
  n <- gets loop_num ;;
  log (ErrorLine n e) ;;
  log (Text "  Waiting 30s before retry...") ;;
  sleep_for 30 ;;
  modify (set_current "NICHE").

(** ['='*60] and the same after a line feed. *)
Definition rule : string :=
  "============================================================".
Definition rule_below : string := String "010"%char rule.

(** The statements of the loop body in front of [try]; the value is
    [loop_start]. *)
Definition loop_head : prog float :=
  modify (fun s => set_loop_num (loop_num s + 1) s) ;;
  loop_start <- clock ;;
  modify (set_jobs_this_loop []) ;;
  n <- gets loop_num ;;
  msg <- gets current ;;
  log (Text rule_below) ;;
  stamp <- now_iso ;;
  log (LoopHeader n msg stamp) ;;
  log (Text rule) ;;
  ret loop_start.

(** The statements under [try]. *)
Definition try_body (loop_start : float) : prog unit :=
  response <- phases ;;
  record_loop loop_start response ;;
  pause.

(** The body of [while running]. *)
Definition iteration : prog unit :=
  loop_start <- loop_head ;;
  try_except (try_body loop_start) on_error.

(** The three lines logged once the loop is left. *)
Definition epilogue : prog unit :=
  log (Text rule_below) ;;
  n <- gets loop_num ;;
  total <- gets total_jobs ;;
  log (StoppedLine n total) ;;
  log (Text rule).

(** [while running: ...] followed by the closing lines.  [None] when the
    loop is still running after [fuel] iterations. *)
Fixpoint main_loop (fuel : nat) (s : state World) : option (state World) :=
  if running s then
    match fuel with
    | O => None
    | S fuel' => main_loop fuel' (snd (iteration s))
    end
  else Some (snd (epilogue s)).

(** ** The single run ([luxbin_quantum_full_experiment.py]) *)

Definition COMPUTERS : list string := ["QNode-Alpha"; "QNode-Beta"; "QNode-Gamma"].

Definition append_log (e : log_entry) : prog unit :=
  modify (fun s => set_pipeline_log (pipeline_log s ++ [e])%list s).

(** The block repeated for the echo rounds, the relay legs and the rallies:
    build, run, decode, append to [pipeline_log], move on. *)
Definition sim_hop (phase node : string) (build : string -> result circuit)
           (shots : nat) : prog unit :=
  start <- clock ;;
  msg <- gets current ;;
  qc <- lift (build msg) ;;
  counts <- simulate qc shots ;;
  response <- lift (decode_message counts) ;;
  t <- clock ;;
  append_log (mkLogEntry phase msg response node (t - start)%float) ;;
  modify (set_current response).

(** The dictionary returned by [vote]. *)
Record ballot : Type := mkBallot {
  ballot_node : string;
  ballot_vote_light : ascii;
  ballot_vote_sound : ascii;
  ballot_vote_mw : ascii;
  ballot_wl : float;
  ballot_freq : float;
  ballot_mw : float;
  ballot_counts : counts
}.

(** [vote(node_idx, msg)] *)
Definition vote (node_idx : nat) (msg : string) : prog ballot :=
  c <- simulate (build_consensus msg) 1000 ;;
  top <- lift (top_key c) ;;
  val <- lift (int2 top) ;;
  ratio <- lift (true_divide val 31) ;;
  let wl := (400 + ratio * 300)%float in
  let freq := (262.6 + ratio * (2349.3 - 262.6))%float in
  let mw := (MW_MIN + ratio * (MW_MAX - MW_MIN))%float in
  ret (mkBallot (nth node_idx COMPUTERS "") (wavelength_to_char wl)
                (frequency_to_char freq) (microwave_to_char mw) wl freq mw c).

(** The [as_completed] loop of the single run. *)
Fixpoint collect_ballots (order : list nat) (futs : list (nat * result ballot))
         (votes : list ballot) : prog (list ballot) :=
  match order with
  | [] => ret votes
  | i :: rest =>
      v <- lift (future_result i futs) ;;
      collect_ballots rest futs (votes ++ [v])%list
  end.

Definition sim_consensus : prog unit :=
  relay_out <- gets current ;;
  start <- clock ;;
  starts <- gets (fun s => start_order env (world s)) ;;
  futs <- fan_out (order_indices starts) (fun i => vote i relay_out) ;;
  finishes <- gets (fun s => finish_order env (world s)) ;;
  votes <- collect_ballots (order_indices finishes) futs [] ;;
  t <- clock ;;
  let vote_chars := map ballot_vote_light votes in
  '(majority, consensus_msg) <- lift (aggregate (set_order env vote_chars) vote_chars) ;;
  modify (set_current consensus_msg) ;;
  append_log (mkLogEntry "CONSENSUS" relay_out consensus_msg "ALL" (t - start)%float).

Definition sim_rally (rally : nat) : prog unit :=
  let is_pong := Nat.eqb (rally mod 2) 1 in
  sim_hop "PINGPONG" (nth (rally mod 2) COMPUTERS "")
          (fun msg => Ok (build_ping msg is_pong)) 500.

Definition sim_final_echo : prog string :=
  start <- clock ;;
  msg <- gets current ;;
  c <- simulate (build_echo msg) 200 ;;
  final <- lift (decode_message c) ;;
  t <- clock ;;
  append_log (mkLogEntry "ECHO_FINAL" msg final (nth 0 COMPUTERS "") (t - start)%float) ;;
  ret final.

(** The main pipeline of the script, from [current = "NICHO"] to [final]. *)
Definition full_experiment : prog string :=
  modify (set_pipeline_log []) ;;
  modify (set_current "NICHO") ;;
  for_each (seq 0 2)
    (fun r => sim_hop "ECHO" (nth 0 COMPUTERS "")
                      (fun msg => Ok (build_echo msg)) 200) ;;
  for_each (seq 1 3)
    (fun leg => sim_hop "RELAY" (nth (leg - 1) COMPUTERS "")
                        (fun msg => build_relay msg leg) 500) ;;
  sim_consensus ;;
  for_each (seq 0 4) sim_rally ;;
  sim_final_echo.

End Program.

(** The state in which [luxbin_persistent_loop.py] enters its loop. *)
Definition initial_state {World} (w : World) (d : fs) : state World :=
  mkState w true 0 0 "NICHE" [] [] [] [] d.

(** ** Test doubles

    A deterministic world for running the scripts: the world is the number
    of blocking calls made so far, the Oracle answers every circuit with a
    fixed distribution chosen by its profile, call number [fail_at] raises
    and a shutdown signal arrives during call number [signal_at]. *)

Module Mock.

Definition bits (s : string) : bitstring :=
  map (fun c => Ascii.eqb c "1"%char) (list_ascii_of_string s).

Definition answer (p : profile) : counts :=
  match p with
  | Echo => [(bits "00101", 120%Z); (bits "01001", 80%Z)]
  | Relay _ => [(bits "00000", 300%Z); (bits "11111", 200%Z)]
  | Consensus => [(bits "00011", 400%Z); (bits "00101", 600%Z)]
  | Ping => [(bits "00111", 250%Z); (bits "00010", 250%Z)]
  | Pong => [(bits "11010", 500%Z)]
  end.

Definition job_name (n : nat) : job_id :=
  "job-" ++ String (ascii_of_nat (97 + n)) EmptyString.

Definition hits (at_call : option nat) (n : nat) : bool :=
  match at_call with
  | Some k => Nat.eqb k n
  | None => false
  end.

(** An Oracle whose relay legs measure a single outcome, so that the
    message they hand on has one symbol. *)
Definition terse (p : profile) : counts :=
  match p with
  | Relay _ => [(bits "00000", 500%Z)]
  | _ => answer p
  end.

Definition env_with (answer : profile -> counts)
           (fail_at signal_at : option nat) : Env nat :=
  mkEnv nat
    (fun b qc shots n =>
       (if hits fail_at n then Raise (OracleError 503)
        else Ok (answer (qc_profile qc), job_name n),
        hits signal_at n, S n))
    (fun qc shots n =>
       (if hits fail_at n then Raise (OracleError 503)
        else Ok (answer (qc_profile qc)), S n))
    (fun seconds n => (hits signal_at n, S n))
    (fun n => int_true_divide (Z.of_nat n) 1)
    (fun n => "2026-01-01T00:00:00")
    (fun x => x)
    (fun n => O123)
    (fun n => O231)
    (fun votes => rev (nodup ascii_dec votes)).

Definition env : option nat -> option nat -> Env nat := env_with answer.

Definition good_disk : fs := mkFs Absent true.

End Mock.

(** ** Notions used to state the properties *)

(** The round trip on one channel, checked symbol by symbol. *)
Definition round_trips (c : channel) (s : ascii) : bool :=
  match char_to_channel c s with
  | Some v => Ascii.eqb (channel_to_char c v) s
  | None => false
  end.

(** A symbol settles a position when it is what the rule of the decoder
    asks for: any symbol with two of the votes, else the first vote. *)
Definition settles (votes : list ascii) (s : ascii) : Prop :=
  (forall x, (2 <= count votes x)%Z -> s = x) /\
  ((forall x, (count votes x < 2)%Z) -> s = hd s votes).

(** The resolution rule on the three channel votes of a position: a symbol
    with at least two of the votes wins, otherwise the Light vote does; in
    particular the Light vote wins when all three differ. *)
Definition majority_else_light (light sound microwave s : ascii) : Prop :=
  (forall x, (2 <= count [light; sound; microwave] x)%Z -> s = x) /\
  ((forall x, (count [light; sound; microwave] x < 2)%Z) -> s = light) /\
  (light <> sound -> light <> microwave -> sound <> microwave -> s = light).

(** What [decode_key] returns on a key, if it returns. *)
Definition decodes_to (b : bitstring) (p : position) : Prop :=
  exists value,
    int2 b = Ok value /\
    pos_wl p = ratio_wl (key_ratio value (List.length b)) /\
    pos_freq p = ratio_freq (key_ratio value (List.length b)) /\
    pos_mw p = ratio_mw (key_ratio value (List.length b)) /\
    settles (channel_votes (pos_wl p) (pos_freq p) (pos_mw p)) (pos_char p).

(** The natural order of keys: the comparison of Python strings over '0'
    and '1', character by character, a proper prefix coming first. *)
Fixpoint bits_leb (x y : bitstring) : bool :=
  match x, y with
  | [], _ => true
  | _ :: _, [] => false
  | a :: x', b :: y' =>
      if Bool.eqb a b then bits_leb x' y' else negb a
  end.

(** The ranking that breaks ties between equal counts by the natural order
    of the keys: of two neighbours with the same count the smaller key comes
    first. *)
Fixpoint lex_tie_break (l : list (bitstring * Z)) : bool :=
  match l with
  | [] => true
  | x :: r =>
      match r with
      | [] => true
      | y :: _ =>
          (if (snd x =? snd y)%Z then bits_leb (fst x) (fst y) else true)
          && lex_tie_break r
      end
  end.

(** Keeps the entries with count [k], in their order. *)
Definition with_count (k : Z) (l : list (bitstring * Z)) : list (bitstring * Z) :=
  filter (fun x => (snd x =? k)%Z) l.

(** The majority with ties broken by first-seen order: the first vote, in
    the order of the vote list, among the most frequent ones. *)
Definition majority_first_seen (votes : list ascii) : result ascii :=
  max_key (count votes) votes.

(** ** Notions used to state the properties of the scripts *)

(** The submissions of a full single run, as the Oracle sees them. *)
Definition single_run_sequence : list profile :=
  [Echo; Echo; Relay 1; Relay 2; Relay 3; Consensus; Consensus; Consensus;
   Ping; Pong; Ping; Pong; Echo].

(** The submissions of one iteration of the persistent loop. *)
Definition loop_sequence : list profile :=
  [Echo; Relay 1; Relay 2; Relay 3; Consensus; Consensus; Consensus;
   Ping; Pong; Echo].

(** What a statement does to the two histories and to the shutdown flag:
    it appends submissions with profiles along [l] (all of [l] when it
    returns), it appends status lines, it never raises the flag again, and a
    shutdown line among the new lines means the flag is down. *)
Definition tracks {World A} (m : M World A) (l : list profile) : Prop :=
  forall s,
    exists done new,
      calls (snd (m s)) = (calls s ++ done)%list /\
      status (snd (m s)) = (status s ++ new)%list /\
      (exists rest, l = (map call_profile done ++ rest)%list) /\
      (is_ok (fst (m s)) = true -> map call_profile done = l) /\
      (running s = false -> running (snd (m s)) = false) /\
      (In ShutdownLine new -> running (snd (m s)) = false).

(** A statement that makes the submissions [l] whether it returns or
    raises. *)
Definition performs {World A} (m : M World A) (l : list profile) : Prop :=
  tracks m l /\
  forall s, List.length (calls (snd (m s)))
            = (List.length (calls s) + List.length l)%nat.

(** Two states that differ at most in the shutdown flag and the status
    stream. *)
Definition same_but_signals {World} (s s' : state World) : Prop :=
  world s = world s' /\ loop_num s = loop_num s' /\
  total_jobs s = total_jobs s' /\ current s = current s' /\
  jobs_this_loop s = jobs_this_loop s' /\ pipeline_log s = pipeline_log s' /\
  calls s = calls s' /\ disk s = disk s'.

(** Two statements that cannot be told apart except by the flag and the
    status stream. *)
Definition alike {World A} (m m' : M World A) : Prop :=
  forall s s', same_but_signals s s' ->
               fst (m s) = fst (m' s') /\
               same_but_signals (snd (m s)) (snd (m' s')).

(** The part of [tracks] that concerns the shutdown flag alone. *)
Definition keeps_flag {World A} (m : M World A) : Prop :=
  forall s,
    exists new,
      status (snd (m s)) = (status s ++ new)%list /\
      (running s = false -> running (snd (m s)) = false) /\
      (In ShutdownLine new -> running (snd (m s)) = false).

(** A statement whose first submission is [first s] when it runs from [s]. *)
Definition begins_with {World A} (m : M World A) (first : state World -> call) : Prop :=
  forall s, exists rest,
    calls (snd (m s)) = (calls s ++ first s :: rest)%list.

(** A statement that only adds submissions. *)
Definition grows {World A} (m : M World A) : Prop :=
  forall s, exists done, calls (snd (m s)) = (calls s ++ done)%list.

(** The echo of the current message on the first backend: the submission
    that opens an iteration of the loop. *)
Definition opening_call {World} (s : state World) : call :=
  mkCall (Some backend_a) (build_echo (current s)) 200.

(** The value of a triple of channel values on one channel. *)
Definition on_channel (c : channel) (t : float * float * float) : float :=
  match c with
  | Light => fst (fst t)
  | Sound => snd (fst t)
  | Microwave => snd t
  end.

(** A statement that leaves the observation [f] of the state as it was,
    whether it returns or raises. *)
Definition unchanged {World A X} (f : state World -> X) (m : M World A) : Prop :=
  forall s, f (snd (m s)) = f s.

(** An observation that does not look at the world, the message, the jobs
    of the iteration or the two histories. *)
Definition bookkeeping {World X} (f : state World -> X) : Prop :=
  forall (s : state World) w cur jobs cl st,
    f (mkState w (running s) (loop_num s) (total_jobs s) cur jobs
               (pipeline_log s) cl st (disk s)) = f s.

(** A statement that, when it returns, has recorded [n] more jobs. *)
Definition adds_jobs {World A} (m : M World A) (n : nat) : Prop :=
  forall s, is_ok (fst (m s)) = true ->
            List.length (jobs_this_loop (snd (m s)))
            = (List.length (jobs_this_loop s) + n)%nat.

(** The records a readable log file holds; a file that is absent or
    unreadable counts as empty, as [save_loop_result] takes it. *)
Definition held_records (d : disk_file) : list json_value :=
  match d with
  | HoldsList xs => xs
  | _ => []
  end.

(** A world in which no shutdown signal is ever delivered. *)
Definition signal_free {World} (env : Env World) : Prop :=
  (forall b qc shots w, snd (fst (run_hw env b qc shots w)) = false) /\
  (forall seconds w, fst (sleep env seconds w) = false).

(** The state after saving the records [rs] one after the other, each under
    its own loop number. *)
Definition save_each {World} (rs : list loop_record) (s : state World) : state World :=
  fold_left (fun st r => snd (save_loop_result (rec_loop r) r st)) rs s.

(** All keys of a given width. *)
Fixpoint keys_of_width (w : nat) : list bitstring :=
  match w with
  | O => [[]]
  | S w' => (map (cons false) (keys_of_width w')
             ++ map (cons true) (keys_of_width w'))%list
  end.

(** The symbols that keys of one to five bits decode to. *)
Definition reachable_symbols : list ascii :=
  list_ascii_of_string "ACFHIJKLMPRUWXYZ ".

(** The check of one key: it decodes, to a reachable symbol, and its Light
    and Sound votes differ. *)
Definition key_in_reach (b : bitstring) : bool :=
  match decode_key b with
  | Ok p =>
      existsb (Ascii.eqb (pos_char p)) reachable_symbols
      && negb (Ascii.eqb (wavelength_to_char (pos_wl p))
                         (frequency_to_char (pos_freq p)))
  | Raise _ => false
  end.

(** A chain of log entries from one message to another: every entry takes
    the message the previous one gave. *)
Fixpoint chained (input : string) (entries : list log_entry) (output : string) : Prop :=
  match entries with
  | [] => input = output
  | e :: r => le_in e = input /\ chained (le_out e) r output
  end.

(** The phase and the node under which an entry was logged. *)
Definition stage (e : log_entry) : string * string := (le_phase e, le_node e).

(** A statement of the single run that, started on the message [input],
    has appended, when it returns, entries with the stages [names] to the
    pipeline log, chained from [input] to the message it leaves. *)
Definition threads {World A} (input : string) (m : M World A)
           (names : list (string * string)) : Prop :=
  forall s, current s = input -> is_ok (fst (m s)) = true ->
            exists entries,
              pipeline_log (snd (m s)) = (pipeline_log s ++ entries)%list /\
              map stage entries = names /\
              chained input entries (current (snd (m s))).

(** The same for a statement whose outcome is the message it returns. *)
Definition delivers {World} (input : string) (m : M World string)
           (names : list (string * string)) : Prop :=
  forall s, current s = input ->
            forall final, fst (m s) = Ok final ->
            exists entries,
              pipeline_log (snd (m s)) = (pipeline_log s ++ entries)%list /\
              map stage entries = names /\
              chained input entries final.

(** The stages of a full single run: phase and node of every entry. *)
Definition single_run_stages : list (string * string) :=
  [("ECHO", "QNode-Alpha"); ("ECHO", "QNode-Alpha");
   ("RELAY", "QNode-Alpha"); ("RELAY", "QNode-Beta"); ("RELAY", "QNode-Gamma");
   ("CONSENSUS", "ALL");
   ("PINGPONG", "QNode-Alpha"); ("PINGPONG", "QNode-Beta");
   ("PINGPONG", "QNode-Alpha"); ("PINGPONG", "QNode-Beta");
   ("ECHO_FINAL", "QNode-Alpha")].

(** What the Oracle sees of a submission: the node it is sent to (none on
    the simulator), the phase profile of the circuit and the shots. *)
Definition submission : Type := option backend * profile * nat.

Definition seen (c : call) : submission :=
  (call_node c, call_profile c, call_shots c).

(** The submissions of a full single run. *)
Definition single_run_submissions : list submission :=
  [(None, Echo, 200); (None, Echo, 200);
   (None, Relay 1, 500); (None, Relay 2, 500); (None, Relay 3, 500);
   (None, Consensus, 1000); (None, Consensus, 1000); (None, Consensus, 1000);
   (None, Ping, 500); (None, Pong, 500); (None, Ping, 500); (None, Pong, 500);
   (None, Echo, 200)]%nat.

(** The three submissions of the consensus phase of the loop, one to each
    backend, when the worker threads start in the order [o]. *)
Definition consensus_submissions (o : order3) : list submission :=
  map (fun i => (Some (nth i backends backend_a), Consensus, 1000%nat))
      (order_indices o).

(** The submissions of one pass of the persistent loop. *)
Definition loop_submissions (o : order3) : list submission :=
  ([(Some backend_a, Echo, 200); (Some backend_a, Relay 1, 500);
    (Some backend_b, Relay 2, 500); (Some backend_c, Relay 3, 500)]%nat
   ++ consensus_submissions o
   ++ [(Some backend_a, Ping, 500); (Some backend_b, Pong, 500);
       (Some backend_a, Echo, 200)]%nat)%list.

(** A statement that, when it returns, has made submissions which the
    Oracle saw as a list with the property [P]. *)
Definition submits {World A} (m : M World A) (P : list submission -> Prop) : Prop :=
  forall s, is_ok (fst (m s)) = true ->
            exists done,
              calls (snd (m s)) = (calls s ++ done)%list /\ P (map seen done).

(** The characters whose upper case is a symbol of the codebook: the
    letters A to Z and a to z, the space, U+0131 and U+017F. *)
Definition folds_into_codebook (cp : codepoint) : bool :=
  ((65 <=? cp) && (cp <=? 90) || (97 <=? cp) && (cp <=? 122)
   || (cp =? 32) || (cp =? 305) || (cp =? 383))%N.
Arguments folds_into_codebook cp%_N.

(** Whether the look-ups of [encode_char] find the character's key. *)
Definition key_in_codebook (cp : codepoint) : bool :=
  match upper_key cp with
  | Some k => existsb (Ascii.eqb k) symbols
  | None => false
  end.
Arguments key_in_codebook cp%_N.

(** * Properties *)

Ltac split_eqb x y :=
  destruct (Ascii.eqb_spec x y); subst; try congruence.

(** Decides every comparison of characters in the goal. *)
Ltac split_all_eqb :=
  repeat match goal with
         | |- context [Ascii.eqb ?x ?y] =>
             destruct (Ascii.eqb_spec x y); subst; simpl; try congruence
         end.

(** ** Codebook *)

Section CodecFacts.

Local Open Scope char_scope.

Lemma symbols_are_alphabet :
  symbols = list_ascii_of_string "ABCDEFGHIJKLMNOPQRSTUVWXYZ ".
Proof. reflexivity. Qed.

Lemma tables_share_keys (c : channel) : map fst (channel_table c) = symbols.
Proof. destruct c; reflexivity. Qed.

Lemma round_trips_all (c : channel) : forallb (round_trips c) symbols = true.
Proof. destruct c; vm_compute; reflexivity. Qed.

(** C4. Codebook round trip: every one of the 27 symbols (A to Z and space)
    has a value on every channel, and the nearest-value lookup of that value
    on the same channel gives the symbol back. *)
Theorem codebook_round_trip (c : channel) (s : ascii) :
  In s symbols ->
  exists v, char_to_channel c s = Some v /\ channel_to_char c v = s.
Proof.
  intros Hin.
  pose proof (round_trips_all c) as Hall.
  rewrite forallb_forall in Hall.
  specialize (Hall s Hin). unfold round_trips in Hall.
  destruct (char_to_channel c s) as [v|]; [|discriminate].
  exists v. split; [reflexivity|].
  now apply Ascii.eqb_eq.
Qed.

Lemma codebook_round_trip_witness :
  In "M" symbols /\
  exists v, char_to_channel Sound "M" = Some v /\ channel_to_char Sound v = "M".
Proof.
  assert (Hin : In "M" symbols) by (vm_compute; tauto).
  split; [exact Hin | exact (codebook_round_trip Sound "M" Hin)].
Defined.

End CodecFacts.

(** ** Outcome decoder *)

Section DecoderFacts.

Local Open Scope Z_scope.

Lemma count_three (a b c x : ascii) :
  count [a; b; c] x =
  (if Ascii.eqb x a then 1 else 0) + (if Ascii.eqb x b then 1 else 0)
  + (if Ascii.eqb x c then 1 else 0).
Proof.
  unfold count. simpl.
  destruct (Ascii.eqb x a), (Ascii.eqb x b), (Ascii.eqb x c); reflexivity.
Qed.

(** The value of [resolve] on three votes, by the pattern of agreement. *)
Lemma resolve_three_value (a b c : ascii) :
  resolve [a; b; c] =
  Ok (if Ascii.eqb b c then (if Ascii.eqb a b then a else b) else a).
Proof.
  unfold resolve, Counter. simpl.
  split_all_eqb; reflexivity.
Qed.

Lemma resolve_three (a b c : ascii) :
  exists s, resolve [a; b; c] = Ok s /\ settles [a; b; c] s.
Proof.
  eexists. split; [apply resolve_three_value|].
  split.
  - intros x Hx. rewrite count_three in Hx. revert Hx.
    split_all_eqb; intros; lia.
  - intros Hlow. simpl.
    split_eqb b c.
    split_eqb a c.
    specialize (Hlow c). rewrite count_three, Ascii.eqb_refl in Hlow.
    destruct (Ascii.eqb c a); lia.
Qed.

Lemma settles_three (a b c s : ascii) :
  settles [a; b; c] s -> majority_else_light a b c s.
Proof.
  intros [Hall Hnone]. simpl in Hnone.
  split; [exact Hall|]. split; [exact Hnone|].
  intros H1 H2 H3. apply Hnone. intros x. rewrite count_three.
  split_all_eqb; lia.
Qed.

Lemma settles_votes (wl freq mw : float) (s : ascii) :
  settles (channel_votes wl freq mw) s ->
  majority_else_light (wavelength_to_char wl) (frequency_to_char freq)
                      (microwave_to_char mw) s.
Proof. unfold channel_votes. apply settles_three. Qed.

Lemma decode_key_ok (b : bitstring) (p : position) :
  decode_key b = Ok p -> decodes_to b p.
Proof.
  unfold decode_key, decodes_to.
  destruct (int2 b) as [value|e]; simpl; [|discriminate].
  set (r := key_ratio value (List.length b)).
  destruct (resolve_three (wavelength_to_char (ratio_wl r))
              (frequency_to_char (ratio_freq r))
              (microwave_to_char (ratio_mw r))) as (s & Hs & Hset).
  unfold channel_votes. rewrite Hs. simpl.
  intros [= <-]. exists value. simpl. auto.
Qed.

(** A non-empty key always decodes. *)
Lemma decode_key_total (b : bitstring) :
  b <> [] -> exists p, decode_key b = Ok p.
Proof.
  intros Hb. unfold decode_key.
  destruct b as [|x r]; [congruence|]. simpl.
  match goal with
  | |- context [resolve (channel_votes ?x ?y ?z)] =>
      destruct (resolve_three (wavelength_to_char x) (frequency_to_char y)
                  (microwave_to_char z)) as (s & Hs & _)
  end.
  unfold channel_votes. rewrite Hs. simpl. eauto.
Qed.

Lemma decode_keys_ok (items : list (bitstring * Z)) (ps : list position) :
  decode_keys items = Ok ps ->
  Forall2 (fun kv p => decodes_to (fst kv) p) items ps.
Proof.
  revert ps. induction items as [|[b n] r IH]; simpl; intros ps H.
  - injection H as <-. constructor.
  - destruct (decode_key b) as [p|e] eqn:Hp; simpl in H; [|discriminate].
    destruct (decode_keys r) as [qs|e] eqn:Hq; simpl in H; [|discriminate].
    injection H as <-. constructor; [now apply decode_key_ok | now apply IH].
Qed.

Lemma decode_keys_total (items : list (bitstring * Z)) :
  Forall (fun kv => fst kv <> []) items ->
  exists ps, decode_keys items = Ok ps.
Proof.
  induction 1 as [|[b n] r Hb _ IH]; simpl; [eauto|].
  destruct (decode_key_total b Hb) as [p ->].
  destruct IH as [ps ->]. simpl. eauto.
Qed.

Lemma decode_counts_ok (c : counts) (n : nat) (d : decoded) :
  decode_counts c n = Ok d ->
  exists ps, decode_keys (firstn n (sorted_counts c)) = Ok ps /\
             d = (string_of_list_ascii (map pos_char ps),
                  map pos_wl ps, map pos_freq ps, map pos_mw ps).
Proof.
  unfold decode_counts.
  destruct (decode_keys (firstn n (sorted_counts c))) as [ps|e]; simpl;
    [|discriminate].
  intros [= <-]. eauto.
Qed.

(** C1. Vote resolution: whenever the decoder returns, every decoded position
    comes from the key of the same rank, its three channel values are those
    addressed by the ratio of that key, and its symbol is the symbol that
    holds at least two of the three channel votes (Light, Sound, Microwave)
    if there is one and the Light vote otherwise; in particular, when the
    three votes differ the decoded symbol is the Light vote. *)
Theorem decode_counts_vote_resolution
  (c : counts) (n : nat) (msg : string) (wls freqs mws : list float) :
  decode_counts c n = Ok (msg, wls, freqs, mws) ->
  exists ps : list position,
    msg = string_of_list_ascii (map pos_char ps) /\
    wls = map pos_wl ps /\ freqs = map pos_freq ps /\ mws = map pos_mw ps /\
    Forall2 (fun kv p =>
               decodes_to (fst kv) p /\
               majority_else_light (wavelength_to_char (pos_wl p))
                                   (frequency_to_char (pos_freq p))
                                   (microwave_to_char (pos_mw p))
                                   (pos_char p))
            (firstn n (sorted_counts c)) ps.
Proof.
  intros H. apply decode_counts_ok in H as (ps & Hps & Heq).
  injection Heq as -> -> -> ->.
  exists ps. do 4 (split; [reflexivity|]).
  apply decode_keys_ok in Hps.
  eapply Forall2_impl; [|exact Hps].
  intros [b k] p Hd. split; [exact Hd|].
  destruct Hd as (value & _ & _ & _ & _ & Hset).
  now apply settles_votes.
Qed.

Lemma decode_counts_vote_resolution_witness :
  exists msg wls freqs mws,
    decode_counts (Mock.answer Echo) 5 = Ok (msg, wls, freqs, mws) /\
    exists ps : list position,
      msg = string_of_list_ascii (map pos_char ps) /\
      wls = map pos_wl ps /\ freqs = map pos_freq ps /\ mws = map pos_mw ps /\
      Forall2 (fun kv p =>
                 decodes_to (fst kv) p /\
                 majority_else_light (wavelength_to_char (pos_wl p))
                                     (frequency_to_char (pos_freq p))
                                     (microwave_to_char (pos_mw p))
                                     (pos_char p))
              (firstn 5 (sorted_counts (Mock.answer Echo))) ps.
Proof.
  assert (H : exists d, decode_counts (Mock.answer Echo) 5 = Ok d)
    by (vm_compute; eauto).
  destruct H as [[[[msg wls] freqs] mws] H].
  exists msg, wls, freqs, mws.
  split; [exact H|].
  exact (decode_counts_vote_resolution (Mock.answer Echo) 5 msg wls freqs mws H).
Defined.

(** The two keys of the sample distribution: on 00101 the three channels
    vote M, D and E and Light wins; on 01001 they vote W, I and I and the
    pair wins. *)
Example decode_sample :
  map (fun b => match decode_key (Mock.bits b) with
                | Ok p => (channel_votes (pos_wl p) (pos_freq p) (pos_mw p),
                           pos_char p)
                | Raise _ => ([], " "%char)
                end) ["00101"; "01001"]%string
  = [(["M"; "D"; "E"], "M"); (["W"; "I"; "I"], "I")]%char.
Proof. vm_compute. reflexivity. Qed.

(** The only exception [decode_key] can raise is the one of [int]. *)
Lemma decode_key_raises (b : bitstring) (e : exn) :
  decode_key b = Raise e -> b = [] /\ e = ValueError.
Proof.
  destruct b as [|x r].
  - cbn. intros [= <-]. auto.
  - intros H. destruct (decode_key_total (x :: r)) as [p Hp]; congruence.
Qed.

(** A zero-width key among the ranked keys makes the whole call raise. *)
Lemma decode_keys_empty_key (items : list (bitstring * Z)) (k : Z) :
  In ([], k) items -> decode_keys items = Raise ValueError.
Proof.
  induction items as [|[b n] r IH]; simpl; [tauto|].
  intros [H|H].
  - injection H as -> ->. reflexivity.
  - destruct (decode_key b) as [p|e] eqn:Hp; simpl.
    + rewrite (IH H). reflexivity.
    + apply decode_key_raises in Hp as [_ ->]. reflexivity.
Qed.

(** C6. On a key of zero width the decoder does not reach its 0.5 fallback:
    [int('', 2)] raises [ValueError] first, and with it the whole call, while
    the guarded ratio itself would be 0.5 for width zero. *)
Theorem zero_width_key_raises :
  decode_key [] = Raise ValueError /\
  decode_counts [([], 200)] 5 = Raise ValueError /\
  key_ratio 0 0 = 0.5%float.
Proof. repeat split. Qed.

End DecoderFacts.

(** ** Ranking of the outcome keys *)

Section RankingFacts.

Local Open Scope Z_scope.

Variable A : Type.
Variable key : A -> Z.

Lemma insert_by_perm (x : A) (l : list A) :
  Permutation (x :: l) (insert_by key x l).
Proof.
  induction l as [|y r IH]; simpl; [reflexivity|].
  destruct (key y <? key x).
  - rewrite perm_swap. now apply perm_skip.
  - reflexivity.
Qed.

Lemma sorted_perm (l : list A) : Permutation l (sorted key l).
Proof.
  induction l as [|x r IH]; simpl; [constructor|].
  rewrite <- insert_by_perm. now apply perm_skip.
Qed.

Lemma insert_by_sorted (x : A) (l : list A) :
  StronglySorted (fun a b => key a <= key b) l ->
  StronglySorted (fun a b => key a <= key b) (insert_by key x l).
Proof.
  induction 1 as [|y r Hr IH Hy]; simpl.
  - repeat constructor.
  - destruct (key y <? key x) eqn:E.
    + apply Z.ltb_lt in E. constructor; [exact IH|].
      rewrite <- insert_by_perm. constructor; [lia | exact Hy].
    + apply Z.ltb_ge in E. constructor; [now constructor|].
      constructor; [exact E|].
      eapply Forall_impl; [|exact Hy]. simpl. intros; lia.
Qed.

Lemma sorted_sorted (l : list A) :
  StronglySorted (fun a b => key a <= key b) (sorted key l).
Proof.
  induction l as [|x r IH]; simpl; [constructor | now apply insert_by_sorted].
Qed.

(** Stability: elements with the same key keep their order. *)
Lemma insert_by_stable (v : Z) (x : A) (l : list A) :
  filter (fun a => key a =? v) (insert_by key x l)
  = filter (fun a => key a =? v) (x :: l).
Proof.
  induction l as [|y r IH]; simpl; [reflexivity|].
  destruct (key y <? key x) eqn:E; [|reflexivity].
  apply Z.ltb_lt in E. simpl in *. rewrite IH.
  destruct (key x =? v) eqn:Ex, (key y =? v) eqn:Ey; try reflexivity.
  apply Z.eqb_eq in Ex, Ey. lia.
Qed.

Lemma sorted_stable (v : Z) (l : list A) :
  filter (fun a => key a =? v) (sorted key l)
  = filter (fun a => key a =? v) l.
Proof.
  induction l as [|x r IH]; simpl; [reflexivity|].
  rewrite insert_by_stable. simpl. now rewrite IH.
Qed.

End RankingFacts.

Section DecoderRanking.

Local Open Scope Z_scope.

Lemma string_of_list_length (l : list ascii) :
  String.length (string_of_list_ascii l) = List.length l.
Proof. induction l; simpl; congruence. Qed.

Lemma Forall_take {X} (P : X -> Prop) (n : nat) (l : list X) :
  Forall P l -> Forall P (firstn n l).
Proof.
  intros H. revert n. induction H as [|x r Hx _ IH]; intros [|n]; simpl;
    constructor; auto.
Qed.

Lemma sorted_counts_descending (c : counts) :
  StronglySorted (fun a b => snd b <= snd a) (sorted_counts c).
Proof.
  unfold sorted_counts.
  pose proof (sorted_sorted _ (fun x : bitstring * Z => - snd x) c) as H.
  induction H as [|x r _ IH Hx]; constructor; [exact IH|].
  eapply Forall_impl; [|exact Hx]. simpl. intros; lia.
Qed.

Lemma sorted_counts_stable (k : Z) (c : counts) :
  with_count k (sorted_counts c) = with_count k c.
Proof.
  unfold with_count, sorted_counts.
  assert (Hext : forall l : list (bitstring * Z),
             filter (fun x => snd x =? k) l
             = filter (fun x => - snd x =? - k) l).
  { intros l. apply filter_ext. intros a.
    destruct (Z.eqb_spec (snd a) k), (Z.eqb_spec (- snd a) (- k));
      lia || reflexivity. }
  rewrite !Hext. apply sorted_stable.
Qed.

(** C7 (as the code has it). Ranking: the ranked keys are the keys of the
    distribution ordered by count, largest first; keys with the same count
    keep the order in which the distribution iterates them (the sort is
    stable and sorts on the count alone).  The first [n] ranked keys are
    decoded: the decoder returns on every distribution without a zero-width
    key, and what it returns has [min n (number of keys)] positions, so
    fewer than [n] when fewer keys exist. *)
Theorem ranking_by_count_stable (c : counts) (n : nat) :
  Permutation c (sorted_counts c) /\
  StronglySorted (fun a b => snd b <= snd a) (sorted_counts c) /\
  (forall k, with_count k (sorted_counts c) = with_count k c) /\
  (Forall (fun kv => fst kv <> []) c ->
   exists msg wls freqs mws,
     decode_counts c n = Ok (msg, wls, freqs, mws)) /\
  (forall msg wls freqs mws,
     decode_counts c n = Ok (msg, wls, freqs, mws) ->
     String.length msg = Nat.min n (List.length c) /\
     List.length wls = Nat.min n (List.length c) /\
     List.length freqs = Nat.min n (List.length c) /\
     List.length mws = Nat.min n (List.length c)).
Proof.
  split; [apply sorted_perm|].
  split; [apply sorted_counts_descending|].
  split; [intros k; apply sorted_counts_stable|].
  split.
  - intros Hne.
    destruct (decode_keys_total (firstn n (sorted_counts c))) as [ps Hps].
    { apply Forall_take.
      eapply Permutation_Forall; [apply sorted_perm | exact Hne]. }
    unfold decode_counts. rewrite Hps. simpl. eauto.
  - intros msg wls freqs mws H.
    apply decode_counts_ok in H as (ps & Hps & Heq).
    injection Heq as -> -> -> ->.
    apply decode_keys_ok, Forall2_length in Hps.
    rewrite length_firstn in Hps.
    assert (Hlen : List.length (sorted_counts c) = List.length c)
      by (symmetry; apply Permutation_length, sorted_perm).
    rewrite Hlen in Hps.
    rewrite string_of_list_length, !length_map. auto.
Qed.

Lemma ranking_by_count_stable_witness :
  (Forall (fun kv => fst kv <> []) (Mock.answer Ping) ->
   exists msg wls freqs mws,
     decode_counts (Mock.answer Ping) 5 = Ok (msg, wls, freqs, mws)) /\
  Forall (fun kv : bitstring * Z => fst kv <> []) (Mock.answer Ping) /\
  decode_counts (Mock.answer Ping) 5
  = Ok ("RF"%string, map ratio_wl [int_true_divide 7 31; int_true_divide 2 31],
        map ratio_freq [int_true_divide 7 31; int_true_divide 2 31],
        map ratio_mw [int_true_divide 7 31; int_true_divide 2 31]) /\
  sorted_counts (Mock.answer Ping)
  = [(Mock.bits "00111", 250); (Mock.bits "00010", 250)].
Proof.
  split; [|split; [|split]].
  - exact (proj1 (proj2 (proj2 (proj2
             (ranking_by_count_stable (Mock.answer Ping) 5))))).
  - repeat constructor; discriminate.
  - vm_compute. reflexivity.
  - vm_compute. reflexivity.
Defined.

(** C7 (as stated) fails: two keys with the same count stay in the order of
    the distribution, here '1' before '0', not in the order of the keys. *)
Lemma ranking_not_lexicographic :
  sorted_counts [(Mock.bits "1", 5); (Mock.bits "0", 5)]
  = [(Mock.bits "1", 5); (Mock.bits "0", 5)] /\
  lex_tie_break (sorted_counts [(Mock.bits "1", 5); (Mock.bits "0", 5)]) = false /\
  ~ (forall c : counts, lex_tie_break (sorted_counts c) = true).
Proof.
  split; [reflexivity|]. split; [reflexivity|].
  intros H. specialize (H [(Mock.bits "1", 5); (Mock.bits "0", 5)]).
  discriminate H.
Qed.

End DecoderRanking.

(** ** Consensus aggregate *)

Section AggregateFacts.

Local Open Scope Z_scope.

(** [max] returns the first element with the largest key: with the
    elements [pre0] in front of the running best and the elements [mid]
    between it and the rest. *)
Lemma max_from_first {X} (k : X -> Z) (xs pre0 mid : list X) (best : X) :
  (forall x, In x pre0 -> k x < k best) ->
  (forall x, In x mid -> k x <= k best) ->
  exists pre post,
    (pre0 ++ best :: mid ++ xs)%list = (pre ++ max_from k best xs :: post)%list /\
    (forall x, In x pre -> k x < k (max_from k best xs)) /\
    (forall x, In x post -> k x <= k (max_from k best xs)).
Proof.
  revert pre0 mid best.
  induction xs as [|y r IH]; intros pre0 mid best Hpre Hmid; simpl.
  - exists pre0, mid. rewrite app_nil_r. auto.
  - destruct (k best <? k y) eqn:E.
    + apply Z.ltb_lt in E.
      destruct (IH (pre0 ++ best :: mid)%list [] y) as (pre & post & Heq & H).
      { intros x Hx. apply in_app_or in Hx as [Hx|[<-|Hx]].
        - specialize (Hpre x Hx). lia.
        - exact E.
        - specialize (Hmid x Hx). lia. }
      { intros x []. }
      exists pre, post. split; [|exact H].
      rewrite <- Heq. simpl. now rewrite <- app_assoc.
    + apply Z.ltb_ge in E.
      destruct (IH pre0 (mid ++ [y])%list best Hpre) as (pre & post & Heq & H).
      { intros x Hx. apply in_app_or in Hx as [Hx|[<-|[]]]; auto. }
      exists pre, post. split; [|exact H].
      rewrite <- Heq. now rewrite <- app_assoc.
Qed.

Lemma max_key_first {X} (k : X -> Z) (xs : list X) :
  xs <> [] ->
  exists m pre post,
    max_key k xs = Ok m /\ xs = (pre ++ m :: post)%list /\
    (forall x, In x pre -> k x < k m) /\
    (forall x, In x post -> k x <= k m).
Proof.
  destruct xs as [|x r]; [congruence|]. intros _.
  destruct (max_from_first k r [] [] x) as (pre & post & Heq & H);
    try (intros ? []).
  exists (max_from k x r), pre, post. simpl in *. auto.
Qed.

Lemma count_nonneg (votes : list ascii) (x : ascii) : 0 <= count votes x.
Proof. unfold count. lia. Qed.

Lemma count_absent (votes : list ascii) (x : ascii) :
  ~ In x votes -> count votes x = 0.
Proof.
  unfold count. induction votes as [|v r IH]; simpl; intros H; [reflexivity|].
  destruct (Ascii.eqb_spec x v) as [->|_]; [tauto|]. apply IH. tauto.
Qed.

Lemma count_present (votes : list ascii) (x : ascii) :
  In x votes -> 0 < count votes x.
Proof.
  unfold count. induction votes as [|v r IH]; simpl; intros H; [tauto|].
  destruct (Ascii.eqb_spec x v) as [->|Hne]; simpl; [lia|].
  destruct H as [H|H]; [congruence | auto].
Qed.

(** C2 (as the code has it). Aggregate step on the three vote symbols: the
    majority is a symbol that occurs most often among the votes; when
    several symbols are equally frequent the one that the set of distinct
    votes iterates first is taken (an order Python does not fix), so a
    strictly most frequent symbol is always the majority, and for the votes
    A, A, B it is A.  The message is the three votes followed by the
    majority twice: the concatenation padded with the majority up to
    length 5 and cut at 5; its length is exactly 5. *)
Theorem aggregate_three_votes (s votes : list ascii) :
  set_iteration votes s ->
  List.length votes = 3%nat ->
  exists m,
    majority_vote s votes = Ok m /\
    In m votes /\
    (forall x, count votes x <= count votes m) /\
    (exists pre post, s = (pre ++ m :: post)%list /\
                      forall x, In x pre -> count votes x < count votes m) /\
    (forall x, (forall y, y <> x -> count votes y < count votes x) -> m = x) /\
    (votes = ["A"; "A"; "B"]%char -> m = "A"%char) /\
    aggregate s votes = Ok (m, string_of_list_ascii (votes ++ [m; m])) /\
    String.length (string_of_list_ascii (votes ++ [m; m])) = 5%nat.
Proof.
  intros [Hnd Hiff] Hlen.
  assert (Hs : s <> []).
  { destruct votes as [|v r]; [discriminate|].
    intros ->. apply (Hiff v). now left. }
  destruct (max_key_first (count votes) s Hs) as (m & pre & post & Hm & Heq & Hlt & Hle).
  assert (Hin : In m votes) by (apply Hiff; rewrite Heq; apply in_elt).
  assert (Hmax : forall x, count votes x <= count votes m).
  { intros x. destruct (in_dec ascii_dec x votes) as [Hx|Hx].
    - apply Hiff in Hx. rewrite Heq in Hx.
      apply in_app_or in Hx as [Hx|[<-|Hx]]; [|lia|auto].
      specialize (Hlt x Hx). lia.
    - rewrite (count_absent votes x Hx). apply count_nonneg. }
  assert (Hstrict : forall x, (forall y, y <> x -> count votes y < count votes x) -> m = x).
  { intros x Hx. destruct (ascii_dec m x) as [E|E]; [exact E|].
    specialize (Hx m E). specialize (Hmax x). lia. }
  exists m. unfold majority_vote. rewrite Hm.
  split; [reflexivity|]. split; [exact Hin|]. split; [exact Hmax|].
  split; [eauto|]. split; [exact Hstrict|].
  split.
  { intros ->. apply Hstrict. intros y Hy. rewrite !count_three.
    revert Hy. split_all_eqb; intros; lia. }
  destruct votes as [|a [|b [|c [|d r]]]]; try discriminate.
  unfold aggregate, majority_vote. rewrite Hm. split; reflexivity.
Qed.

Lemma aggregate_three_votes_witness :
  set_iteration ["A"; "A"; "B"]%char ["B"; "A"]%char /\
  exists m,
    majority_vote ["B"; "A"]%char ["A"; "A"; "B"]%char = Ok m /\
    m = "A"%char /\
    aggregate ["B"; "A"]%char ["A"; "A"; "B"]%char = Ok (m, "AABAA"%string).
Proof.
  assert (Hset : set_iteration ["A"; "A"; "B"]%char ["B"; "A"]%char).
  { split.
    - repeat constructor; simpl; intuition discriminate.
    - intros x; simpl; tauto. }
  split; [exact Hset|].
  destruct (aggregate_three_votes ["B"; "A"]%char ["A"; "A"; "B"]%char Hset eq_refl)
    as (m & Hm & _ & _ & _ & _ & HA & Hagg & _).
  exists m. split; [exact Hm|]. split; [exact (HA eq_refl)|].
  rewrite Hagg, (HA eq_refl). reflexivity.
Defined.

(** C2 (as stated) fails on the tie-break: with three different votes every
    symbol is equally frequent, and the majority is the symbol the set
    yields first, here C, not the first-seen vote A. *)
Lemma majority_not_first_seen :
  set_iteration ["A"; "B"; "C"]%char ["C"; "B"; "A"]%char /\
  majority_vote ["C"; "B"; "A"]%char ["A"; "B"; "C"]%char = Ok "C"%char /\
  majority_first_seen ["A"; "B"; "C"]%char = Ok "A"%char /\
  ~ (forall votes s, set_iteration votes s ->
                     majority_vote s votes = majority_first_seen votes).
Proof.
  assert (Hset : set_iteration ["A"; "B"; "C"]%char ["C"; "B"; "A"]%char).
  { split.
    - repeat constructor; simpl; intuition discriminate.
    - intros x; simpl; tauto. }
  split; [exact Hset|]. split; [reflexivity|]. split; [reflexivity|].
  intros H. specialize (H _ _ Hset). discriminate H.
Qed.

End AggregateFacts.

(** ** Histories of the scripts *)

(** Closes the side goals of a history step once the new submissions and
    lines are given. *)
Ltac close_tracks :=
  repeat split; auto; try tauto; try discriminate;
  try (now exists []); try (now intros []).

Section TrackFacts.

Context {World : Type}.
Variable env : Env World.

Local Open Scope prog_scope.

Lemma tracks_eq {A} (m : M World A) (l l' : list profile) :
  tracks m l -> l = l' -> tracks m l'.
Proof. now intros H <-. Qed.

Lemma tracks_ret {A} (a : A) : tracks (World:=World) (ret a) [].
Proof.
  intros s. exists [], []. simpl. rewrite !app_nil_r.
  close_tracks.
Qed.

Lemma tracks_lift {A} (r : result A) : tracks (World:=World) (lift r) [].
Proof.
  intros s. exists [], []. simpl. rewrite !app_nil_r.
  close_tracks.
Qed.

Lemma tracks_gets {A} (f : state World -> A) : tracks (gets f) [].
Proof.
  intros s. exists [], []. simpl. rewrite !app_nil_r.
  close_tracks.
Qed.

(** An assignment to a variable other than the histories and the flag. *)
Lemma tracks_modify (f : state World -> state World) :
  (forall s, calls (f s) = calls s) ->
  (forall s, status (f s) = status s) ->
  (forall s, running (f s) = running s) ->
  tracks (modify f) [].
Proof.
  intros Hc Hs Hr s. exists [], []. simpl.
  rewrite Hc, Hs, Hr, !app_nil_r.
  close_tracks.
Qed.

Lemma tracks_log (l : line) : l <> ShutdownLine -> tracks (World:=World) (log l) [].
Proof.
  intros Hl s. exists [], [l]. simpl. rewrite app_nil_r.
  repeat split; auto.
  - now exists [].
  - intros [H|[]]. congruence.
Qed.

Lemma tracks_bind {A B} (m : M World A) (k : A -> M World B) (l1 l2 : list profile) :
  tracks m l1 -> (forall a, tracks (k a) l2) ->
  tracks (bindM m k) (l1 ++ l2).
Proof.
  intros Hm Hk s. unfold bindM.
  destruct (Hm s) as (d1 & n1 & Hc1 & Hs1 & (r1 & Hr1) & Ho1 & Hf1 & Hsig1).
  destruct (m s) as [[a|e] s1]; simpl in *.
  - destruct (Hk a s1) as (d2 & n2 & Hc2 & Hs2 & (r2 & Hr2) & Ho2 & Hf2 & Hsig2).
    exists (d1 ++ d2)%list, (n1 ++ n2)%list.
    rewrite Hc2, Hs2, Hc1, Hs1, !app_assoc, map_app, (Ho1 eq_refl).
    repeat split; auto.
    + exists r2. now rewrite <- app_assoc, <- Hr2.
    + intros Hok. now rewrite (Ho2 Hok).
    + intros Hin. apply in_app_or in Hin as [Hin|Hin]; auto.
  - exists d1, n1. repeat split; auto; try discriminate.
    exists (r1 ++ l2)%list. now rewrite app_assoc, <- Hr1.
Qed.

(** The handler and its delivery after a blocking call. *)
Lemma deliver_calls (sig : bool) (s : state World) :
  calls (deliver sig s) = calls s.
Proof. now destruct sig. Qed.

Lemma deliver_status (sig : bool) (s : state World) :
  exists new, status (deliver sig s) = (status s ++ new)%list /\
              (running s = false -> running (deliver sig s) = false) /\
              (In ShutdownLine new -> running (deliver sig s) = false).
Proof.
  destruct sig; simpl.
  - exists [ShutdownLine]. auto.
  - exists []. rewrite app_nil_r. repeat split; auto. intros [].
Qed.

Lemma tracks_hw (b : backend) (qc : circuit) (shots : nat) :
  tracks (hw env b qc shots) [qc_profile qc].
Proof.
  intros s. unfold hw.
  destruct (run_hw env b qc shots (world s)) as [[r sig] w]. simpl.
  destruct (deliver_status sig
              (set_world w (set_calls (calls s ++ [mkCall (Some b) qc shots]) s)))
    as (new & Hs & Hf & Hsig).
  exists [mkCall (Some b) qc shots], new.
  rewrite deliver_calls, Hs. simpl.
  close_tracks.
Qed.

Lemma tracks_simulate (qc : circuit) (shots : nat) :
  tracks (simulate env qc shots) [qc_profile qc].
Proof.
  intros s. unfold simulate.
  destruct (run_circuit env qc shots (world s)) as [r w]. simpl.
  exists [mkCall None qc shots], []. rewrite app_nil_r.
  close_tracks.
Qed.

Lemma tracks_sleep_for (seconds : nat) : tracks (sleep_for env seconds) [].
Proof.
  intros s. unfold sleep_for.
  destruct (sleep env seconds (world s)) as [sig w]. simpl.
  destruct (deliver_status sig (set_world w s)) as (new & Hs & Hf & Hsig).
  exists [], new. rewrite deliver_calls, Hs. simpl. rewrite app_nil_r.
  close_tracks.
Qed.

Lemma tracks_save_loop_result (n : nat) (data : loop_record) :
  tracks (World:=World) (save_loop_result n data) [].
Proof.
  intros s. exists [], []. unfold save_loop_result.
  destruct (log_file (disk s)); simpl;
    try destruct (writable (disk s)); simpl; rewrite !app_nil_r;
    close_tracks.
Qed.

(** Statements that submit whether they return or not. *)
Lemma performs_hw (b : backend) (qc : circuit) (shots : nat) :
  performs (hw env b qc shots) [qc_profile qc].
Proof.
  split; [apply tracks_hw|]. intros s. unfold hw.
  destruct (run_hw env b qc shots (world s)) as [[r sig] w]. simpl.
  rewrite deliver_calls. simpl. now rewrite length_app.
Qed.

Lemma performs_simulate (qc : circuit) (shots : nat) :
  performs (simulate env qc shots) [qc_profile qc].
Proof.
  split; [apply tracks_simulate|]. intros s. unfold simulate.
  destruct (run_circuit env qc shots (world s)) as [r w]. simpl.
  now rewrite length_app.
Qed.

(** After its submissions a task may go on with statements that submit
    nothing. *)
Lemma performs_bind {A B} (m : M World A) (k : A -> M World B) (l : list profile) :
  performs m l -> (forall a, tracks (k a) []) -> performs (bindM m k) l.
Proof.
  intros [Hm Hlen] Hk. split.
  - eapply tracks_eq; [apply tracks_bind; eassumption | apply app_nil_r].
  - intros s. unfold bindM. specialize (Hlen s).
    destruct (m s) as [[a|e] s1]; simpl in *; [|exact Hlen].
    destruct (Hk a s1) as (d & n & Hc & _ & (r & Hr) & _).
    symmetry in Hr. apply app_eq_nil in Hr as [Hd _].
    apply map_eq_nil in Hd. subst d. rewrite Hc, app_nil_r. exact Hlen.
Qed.

Lemma tracks_capture {A} (m : M World A) (l : list profile) :
  performs m l -> tracks (capture m) l.
Proof.
  intros [Hm Hlen] s. unfold capture.
  destruct (Hm s) as (d & n & Hc & Hs & (r & Hr) & Ho & Hf & Hsig).
  specialize (Hlen s).
  destruct (m s) as [a s1]; simpl in *.
  exists d, n. repeat split; auto; [now exists r|].
  intros _. rewrite Hc, length_app in Hlen.
  assert (Hd : List.length (map call_profile d) = List.length l)
    by (rewrite length_map; lia).
  rewrite Hr, length_app in Hd.
  destruct r; [now rewrite app_nil_r in Hr | simpl in Hd; lia].
Qed.

Lemma tracks_for_each {X} (body : X -> M World unit) (f : X -> list profile)
      (xs : list X) :
  (forall x, tracks (body x) (f x)) ->
  tracks (for_each xs body) (List.concat (map f xs)).
Proof.
  intros Hbody. induction xs as [|x r IH]; simpl.
  - apply tracks_ret.
  - apply tracks_bind; auto.
Qed.

Lemma tracks_fan_out {A} (task : nat -> M World A) (l : list profile)
      (order : list nat) :
  (forall i, performs (task i) l) ->
  tracks (fan_out order task) (List.concat (map (fun _ => l) order)).
Proof.
  intros Htask. induction order as [|i r IH]; simpl.
  - apply tracks_ret.
  - apply tracks_bind; [now apply tracks_capture|]. intros a.
    eapply tracks_eq; [apply tracks_bind; [exact IH|]|apply app_nil_r].
    intros rs. apply tracks_ret.
Qed.

(** One step of a history proof on the basic statements. *)
Ltac track_basic :=
  first
    [ apply tracks_ret | apply tracks_lift | apply tracks_gets
    | apply tracks_log; discriminate
    | apply tracks_sleep_for | apply tracks_save_loop_result
    | apply tracks_modify; reflexivity
    | eapply tracks_eq; [apply tracks_hw | cbn; reflexivity]
    | eapply tracks_eq; [apply tracks_simulate | cbn; reflexivity]
    | match goal with
      | |- tracks (let '(_, _) := ?p in _) _ => destruct p
      end ].

Ltac track_with tac :=
  repeat first [ tac | track_basic | eapply tracks_bind; [ | intros ? ] ].

Ltac track := track_with fail.

(** *** The persistent loop *)

(** A builder that raises ends the statement before anything is
    submitted. *)
Lemma tracks_lift_bind {A B} (r : result A) (k : A -> M World B)
      (l : list profile) :
  (forall a, r = Ok a -> tracks (k a) l) -> tracks (bindM (lift r) k) l.
Proof.
  intros H. destruct r as [a|e]; intros s.
  - exact (H a eq_refl s).
  - exists [], []. cbn. rewrite !app_nil_r. close_tracks. now exists l.
Qed.

Lemma build_relay_profile (msg : string) (leg : nat) (qc : circuit) :
  build_relay msg leg = Ok qc -> qc_profile qc = Relay leg.
Proof.
  unfold build_relay.
  destruct (if Nat.eqb leg 3 then _ else _) as [[]|e]; cbn [bind];
    [|discriminate].
  now intros [= <-].
Qed.

Lemma tracks_hop (label : string) (b : backend)
      (build : string -> result circuit) (shots : nat) (p : profile) :
  (forall msg qc, build msg = Ok qc -> qc_profile qc = p) ->
  tracks (hop env label b build shots) [p].
Proof.
  intros Hp. unfold hop.
  eapply tracks_eq.
  - eapply tracks_bind; [track|]. intros msg.
    eapply tracks_bind; [track|]. intros _.
    apply tracks_lift_bind. intros qc Hqc.
    track_with ltac:(eapply tracks_eq;
                      [apply tracks_hw | rewrite (Hp _ _ Hqc); reflexivity]).
  - reflexivity.
Qed.

Lemma performs_do_vote (b : backend) (msg : string) :
  performs (do_vote env b msg) [Consensus].
Proof.
  unfold do_vote. apply performs_bind; [apply performs_hw|].
  intros [c jid]. eapply tracks_eq; [track | reflexivity].
Qed.

Lemma tracks_collect_votes (order : list nat)
      (futs : list (nat * result (ascii * job_id))) (votes : list ascii) :
  tracks (World:=World) (collect_votes order futs votes) [].
Proof.
  revert votes. induction order as [|i r IH]; intros votes; simpl.
  - apply tracks_ret.
  - eapply tracks_eq; [track_with ltac:(apply IH) | reflexivity].
Qed.

Lemma tracks_consensus_phase :
  tracks (consensus_phase env) [Consensus; Consensus; Consensus].
Proof.
  unfold consensus_phase.
  eapply tracks_eq.
  - eapply tracks_bind; [track|]. intros msg.
    eapply tracks_bind; [track|]. intros _.
    eapply tracks_bind; [track|]. intros starts.
    eapply tracks_bind.
    { eapply tracks_eq.
      - apply tracks_fan_out with (l := [Consensus]).
        intros i. apply performs_do_vote.
      - instantiate (1 := [Consensus; Consensus; Consensus]).
        destruct starts; reflexivity. }
    intros futs.
    track_with ltac:(apply tracks_collect_votes).
  - reflexivity.
Qed.

Lemma tracks_rally_step (rally : nat) :
  tracks (rally_step env rally)
         [if Nat.eqb (rally mod 2) 1 then Pong else Ping].
Proof.
  unfold rally_step. apply tracks_hop. now intros msg qc [= <-].
Qed.

Lemma tracks_final_echo : tracks (final_echo env) [Echo].
Proof.
  unfold final_echo. eapply tracks_eq; [track | reflexivity].
Qed.

Lemma tracks_later_phases : tracks (later_phases env) (tl loop_sequence).
Proof.
  unfold later_phases.
  eapply tracks_eq.
  - eapply tracks_bind.
    { apply tracks_for_each with (f := fun lb => [Relay (fst lb)]).
      intros lb. apply tracks_hop. intros msg qc.
      apply build_relay_profile. }
    intros _. eapply tracks_bind; [apply tracks_consensus_phase|].
    intros _. eapply tracks_bind.
    { apply tracks_for_each. apply tracks_rally_step. }
    intros _. apply tracks_final_echo.
  - reflexivity.
Qed.

Lemma tracks_phases : tracks (phases env) loop_sequence.
Proof.
  unfold phases.
  eapply tracks_eq.
  - eapply tracks_bind;
      [apply tracks_hop with (p := Echo); now intros msg qc [= <-]|].
    intros _. apply tracks_later_phases.
  - reflexivity.
Qed.

Lemma tracks_record_loop (loop_start : float) (response : string) :
  tracks (record_loop env loop_start response) [].
Proof.
  unfold record_loop, clock, now_iso.
  eapply tracks_eq; [track | reflexivity].
Qed.

Lemma tracks_pause : tracks (pause env) [].
Proof.
  unfold pause. eapply tracks_eq.
  - eapply tracks_bind; [track|]. intros [|].
    + eapply tracks_eq; [track | reflexivity].
    + apply tracks_ret.
  - reflexivity.
Qed.

Lemma tracks_try_body (loop_start : float) :
  tracks (try_body env loop_start) loop_sequence.
Proof.
  unfold try_body. eapply tracks_eq.
  - eapply tracks_bind; [apply tracks_phases|]. intros response.
    eapply tracks_bind; [apply tracks_record_loop|]. intros _.
    apply tracks_pause.
  - reflexivity.
Qed.

Lemma tracks_on_error (e : exn) : tracks (on_error env e) [].
Proof.
  unfold on_error. eapply tracks_eq; [track | reflexivity].
Qed.

Lemma tracks_loop_head : tracks (loop_head env) [].
Proof.
  unfold loop_head, clock, now_iso. eapply tracks_eq; [track | reflexivity].
Qed.

(** *** The shutdown flag *)

Lemma tracks_keeps_flag {A} (m : M World A) (l : list profile) :
  tracks m l -> keeps_flag m.
Proof.
  intros H s. destruct (H s) as (d & n & _ & Hs & _ & _ & Hf & Hsig).
  exists n. auto.
Qed.

Lemma keeps_flag_bind {A B} (m : M World A) (k : A -> M World B) :
  keeps_flag m -> (forall a, keeps_flag (k a)) -> keeps_flag (bindM m k).
Proof.
  intros Hm Hk s. unfold bindM.
  destruct (Hm s) as (n1 & Hs1 & Hf1 & Hsig1).
  destruct (m s) as [[a|e] s1]; simpl in *; [|eauto].
  destruct (Hk a s1) as (n2 & Hs2 & Hf2 & Hsig2).
  exists (n1 ++ n2)%list. rewrite Hs2, Hs1, app_assoc.
  repeat split; auto.
  intros Hin. apply in_app_or in Hin as [Hin|Hin]; auto.
Qed.

Lemma keeps_flag_try_except {A} (body : M World A) (handler : exn -> M World A) :
  keeps_flag body -> (forall e, keeps_flag (handler e)) ->
  keeps_flag (try_except body handler).
Proof.
  intros Hm Hk s. unfold try_except.
  destruct (Hm s) as (n1 & Hs1 & Hf1 & Hsig1).
  destruct (body s) as [[a|e] s1]; simpl in *; [eauto|].
  destruct (Hk e s1) as (n2 & Hs2 & Hf2 & Hsig2).
  exists (n1 ++ n2)%list. rewrite Hs2, Hs1, app_assoc.
  repeat split; auto.
  intros Hin. apply in_app_or in Hin as [Hin|Hin]; auto.
Qed.

Lemma keeps_flag_iteration : keeps_flag (iteration env).
Proof.
  unfold iteration. apply keeps_flag_bind.
  - eapply tracks_keeps_flag, tracks_loop_head.
  - intros t. apply keeps_flag_try_except.
    + eapply tracks_keeps_flag, tracks_try_body.
    + intros e. eapply tracks_keeps_flag, tracks_on_error.
Qed.

(** *** The single run *)

Lemma tracks_sim_hop (phase node : string)
      (build : string -> result circuit) (shots : nat) (p : profile) :
  (forall msg qc, build msg = Ok qc -> qc_profile qc = p) ->
  tracks (sim_hop env phase node build shots) [p].
Proof.
  intros Hp. unfold sim_hop, clock, append_log.
  eapply tracks_eq.
  - eapply tracks_bind; [track|]. intros start.
    eapply tracks_bind; [track|]. intros msg.
    apply tracks_lift_bind. intros qc Hqc.
    track_with ltac:(eapply tracks_eq;
                      [apply tracks_simulate | rewrite (Hp _ _ Hqc); reflexivity]).
  - reflexivity.
Qed.

Lemma performs_vote (node_idx : nat) (msg : string) :
  performs (vote env node_idx msg) [Consensus].
Proof.
  unfold vote. apply performs_bind; [apply performs_simulate|].
  intros c. eapply tracks_eq; [track | reflexivity].
Qed.

Lemma tracks_collect_ballots (order : list nat)
      (futs : list (nat * result ballot)) (votes : list ballot) :
  tracks (World:=World) (collect_ballots order futs votes) [].
Proof.
  revert votes. induction order as [|i r IH]; intros votes; simpl.
  - apply tracks_ret.
  - eapply tracks_eq; [track_with ltac:(apply IH) | reflexivity].
Qed.

Lemma tracks_sim_consensus :
  tracks (sim_consensus env) [Consensus; Consensus; Consensus].
Proof.
  unfold sim_consensus, clock, append_log.
  eapply tracks_eq.
  - eapply tracks_bind; [track|]. intros relay_out.
    eapply tracks_bind; [track|]. intros start.
    eapply tracks_bind; [track|]. intros starts.
    eapply tracks_bind.
    { eapply tracks_eq.
      - apply tracks_fan_out with (l := [Consensus]).
        intros i. apply performs_vote.
      - instantiate (1 := [Consensus; Consensus; Consensus]).
        destruct starts; reflexivity. }
    intros futs.
    track_with ltac:(apply tracks_collect_ballots).
  - reflexivity.
Qed.

Lemma tracks_sim_rally (rally : nat) :
  tracks (sim_rally env rally)
         [if Nat.eqb (rally mod 2) 1 then Pong else Ping].
Proof.
  unfold sim_rally. apply tracks_sim_hop. now intros msg qc [= <-].
Qed.

Lemma tracks_sim_final_echo : tracks (sim_final_echo env) [Echo].
Proof.
  unfold sim_final_echo, clock, append_log.
  eapply tracks_eq; [track | reflexivity].
Qed.

Lemma tracks_full_experiment : tracks (full_experiment env) single_run_sequence.
Proof.
  unfold full_experiment.
  eapply tracks_eq.
  - eapply tracks_bind; [track|]. intros _.
    eapply tracks_bind; [track|]. intros _.
    eapply tracks_bind.
    { apply tracks_for_each with (f := fun _ => [Echo]).
      intros r. apply tracks_sim_hop. now intros msg qc [= <-]. }
    intros _. eapply tracks_bind.
    { apply tracks_for_each with (f := fun leg => [Relay leg]).
      intros leg. apply tracks_sim_hop. intros msg qc.
      apply build_relay_profile. }
    intros _. eapply tracks_bind; [apply tracks_sim_consensus|].
    intros _. eapply tracks_bind.
    { apply tracks_for_each. apply tracks_sim_rally. }
    intros _. apply tracks_sim_final_echo.
  - reflexivity.
Qed.

End TrackFacts.

(** ** What the statements leave alone *)

Section FrameRules.

Context {World : Type} {X : Type}.
Variable f : state World -> X.

Lemma unchanged_ret {A} (a : A) : unchanged f (ret a).
Proof. intros s. reflexivity. Qed.

Lemma unchanged_lift {A} (r : result A) : unchanged f (lift r).
Proof. intros s. reflexivity. Qed.

Lemma unchanged_gets {A} (g : state World -> A) : unchanged f (gets g).
Proof. intros s. reflexivity. Qed.

Lemma unchanged_modify (g : state World -> state World) :
  (forall s, f (g s) = f s) -> unchanged f (modify g).
Proof. intros H s. apply H. Qed.

Lemma unchanged_bind {A B} (m : M World A) (k : A -> M World B) :
  unchanged f m -> (forall a, unchanged f (k a)) -> unchanged f (bindM m k).
Proof.
  intros Hm Hk s. unfold bindM. specialize (Hm s).
  destruct (m s) as [[a|e] s1]; simpl in *; [|exact Hm].
  now rewrite Hk.
Qed.

Lemma unchanged_try_except {A} (m : M World A) (h : exn -> M World A) :
  unchanged f m -> (forall e, unchanged f (h e)) -> unchanged f (try_except m h).
Proof.
  intros Hm Hh s. unfold try_except. specialize (Hm s).
  destruct (m s) as [[a|e] s1]; simpl in *; [exact Hm|].
  now rewrite Hh.
Qed.

Lemma unchanged_capture {A} (m : M World A) :
  unchanged f m -> unchanged f (capture m).
Proof.
  intros Hm s. unfold capture. specialize (Hm s).
  now destruct (m s) as [r s1].
Qed.

Lemma unchanged_for_each {Y} (body : Y -> M World unit) (xs : list Y) :
  (forall x, unchanged f (body x)) -> unchanged f (for_each xs body).
Proof.
  intros Hb. induction xs as [|x r IH]; simpl.
  - apply unchanged_ret.
  - apply unchanged_bind; auto.
Qed.

Lemma unchanged_fan_out {A} (task : nat -> M World A) (order : list nat) :
  (forall i, unchanged f (task i)) -> unchanged f (fan_out order task).
Proof.
  intros Ht. induction order as [|i r IH]; simpl.
  - apply unchanged_ret.
  - apply unchanged_bind; [apply unchanged_capture, Ht|]. intros a.
    apply unchanged_bind; [exact IH|]. intros rs. apply unchanged_ret.
Qed.

End FrameRules.

(** One step of a frame proof; [tac] closes the steps on the Oracle, on
    [sleep] and on named statements. *)
Ltac frame_with tac :=
  repeat first
    [ tac
    | apply unchanged_ret | apply unchanged_lift | apply unchanged_gets
    | apply unchanged_modify; solve [intros []; auto; reflexivity]
    | match goal with
      | |- unchanged _ (let '(_, _) := ?p in _) => destruct p
      end
    | apply unchanged_bind; [ | intros ? ] ].

Section FrameFacts.

Context {World : Type} {X : Type}.
Variable env : Env World.
Variable f : state World -> X.

(** The observation survives every assignment of the phases and the two
    blocking calls. *)
Hypothesis f_assign : bookkeeping f.
Hypothesis f_hw : forall b qc shots, unchanged f (hw env b qc shots).
Hypothesis f_sleep : forall seconds, unchanged f (sleep_for env seconds).

Ltac assign :=
  apply unchanged_modify;
  let st := fresh "st" in intros st; solve [apply (f_assign st)].

Ltac frame := frame_with ltac:(first [ apply f_hw | apply f_sleep | assign ]).

Lemma unchanged_log (l : line) : unchanged f (log l).
Proof. unfold log. frame. Qed.

Lemma unchanged_hop (label : string) (b : backend) (build : string -> result circuit)
      (shots : nat) :
  unchanged f (hop env label b build shots).
Proof. unfold hop, log. frame. Qed.

Lemma unchanged_do_vote (b : backend) (msg : string) :
  unchanged f (do_vote env b msg).
Proof. unfold do_vote. frame. Qed.

Lemma unchanged_collect_votes (order : list nat)
      (futs : list (nat * result (ascii * job_id))) (votes : list ascii) :
  unchanged f (collect_votes order futs votes).
Proof.
  revert votes. induction order as [|i r IH]; intros votes; simpl.
  - apply unchanged_ret.
  - frame_with ltac:(first [ apply IH | assign ]).
Qed.

Lemma unchanged_consensus_phase : unchanged f (consensus_phase env).
Proof.
  unfold consensus_phase, log.
  frame_with ltac:(first [ apply unchanged_collect_votes
                         | apply unchanged_fan_out; intros; apply unchanged_do_vote
                         | assign ]).
Qed.

Lemma unchanged_final_echo : unchanged f (final_echo env).
Proof. unfold final_echo, log. frame. Qed.

Lemma unchanged_phases : unchanged f (phases env).
Proof.
  unfold phases, later_phases, rally_step.
  frame_with ltac:(first [ apply unchanged_hop | apply unchanged_consensus_phase
                         | apply unchanged_final_echo
                         | apply unchanged_for_each; intros ]).
Qed.

End FrameFacts.

(** ** Submissions as the Oracle sees them *)

Section SubmissionFacts.

Context {World : Type}.
Variable env : Env World.

Local Open Scope prog_scope.

Lemma bind_gets {A B} (g : state World -> A) (k : A -> M World B) (s : state World) :
  bindM (gets g) k s = k (g s) s.
Proof. reflexivity. Qed.

Lemma bind_log {B} (l : line) (k : unit -> M World B) (s : state World) :
  bindM (log l) k s = k tt (set_status (status s ++ [l])%list s).
Proof. reflexivity. Qed.

Lemma calls_bind_quiet {A B} (m : M World A) (k : A -> M World B) (s : state World) :
  (forall a, unchanged calls (k a)) ->
  calls (snd (bindM m k s)) = calls (snd (m s)).
Proof.
  intros Hk. unfold bindM. destruct (m s) as [[a|e] s1]; [apply Hk | reflexivity].
Qed.

Lemma calls_log (l : line) : unchanged (World:=World) calls (log l).
Proof. intros s. reflexivity. Qed.

(** A pool whose tasks each submit once, whatever becomes of them. *)
Lemma fan_out_calls_of {A} (task : nat -> M World A) (c : nat -> call)
      (order : list nat) (s : state World) :
  (forall i st, calls (snd (task i st)) = (calls st ++ [c i])%list) ->
  calls (snd (fan_out order task s)) = (calls s ++ map c order)%list.
Proof.
  intros Htask. revert s.
  induction order as [|i r IH]; intros s; cbn [fan_out map].
  - cbn. now rewrite app_nil_r.
  - unfold bindM at 1. unfold capture at 1.
    pose proof (Htask i s) as Hc.
    destruct (task i s) as [res s1]. cbn [snd] in Hc.
    rewrite calls_bind_quiet by (intros rs; apply unchanged_ret).
    rewrite IH, Hc, <- app_assoc. reflexivity.
Qed.

Lemma do_vote_call (b : backend) (msg : string) (s : state World) :
  calls (snd (do_vote env b msg s))
  = (calls s ++ [mkCall (Some b) (build_consensus msg) 1000])%list.
Proof.
  unfold do_vote. rewrite calls_bind_quiet.
  - unfold hw.
    destruct (run_hw env b (build_consensus msg) 1000 (world s)) as [[r sig] w].
    cbn [snd]. now rewrite deliver_calls.
  - intros [c jid]. apply unchanged_bind; [apply unchanged_lift|].
    intros ch. apply unchanged_ret.
Qed.

Lemma vote_call (node_idx : nat) (msg : string) (s : state World) :
  calls (snd (vote env node_idx msg s))
  = (calls s ++ [mkCall None (build_consensus msg) 1000])%list.
Proof.
  unfold vote. rewrite calls_bind_quiet.
  - unfold simulate.
    now destruct (run_circuit env (build_consensus msg) 1000 (world s)) as [r w].
  - intros c. frame_with fail.
Qed.

Lemma calls_collect_votes (order : list nat)
      (futs : list (nat * result (ascii * job_id))) (votes : list ascii) :
  unchanged (World:=World) calls (collect_votes order futs votes).
Proof.
  revert votes. induction order as [|i r IH]; intros votes; simpl.
  - apply unchanged_ret.
  - frame_with ltac:(apply IH).
Qed.

Lemma calls_collect_ballots (order : list nat)
      (futs : list (nat * result ballot)) (votes : list ballot) :
  unchanged (World:=World) calls (collect_ballots order futs votes).
Proof.
  revert votes. induction order as [|i r IH]; intros votes; simpl.
  - apply unchanged_ret.
  - frame_with ltac:(apply IH).
Qed.

(** The submissions of the consensus phase, whether or not it returns. *)
Lemma consensus_calls (s : state World) :
  calls (snd (consensus_phase env s))
  = (calls s
     ++ map (fun i => mkCall (Some (nth i backends backend_a))
                             (build_consensus (current s)) 1000)
            (order_indices (start_order env (world s))))%list.
Proof.
  unfold consensus_phase.
  rewrite bind_gets, bind_log, bind_gets, calls_bind_quiet.
  - rewrite (fan_out_calls_of
               (fun i => do_vote env (nth i backends backend_a) (current s))
               (fun i => mkCall (Some (nth i backends backend_a))
                                (build_consensus (current s)) 1000))
      by (intros i st; apply do_vote_call).
    reflexivity.
  - intros futs. unfold log.
    frame_with ltac:(apply calls_collect_votes).
Qed.

Lemma sim_consensus_calls (s : state World) :
  calls (snd (sim_consensus env s))
  = (calls s
     ++ map (fun _ => mkCall None (build_consensus (current s)) 1000)
            (order_indices (start_order env (world s))))%list.
Proof.
  unfold sim_consensus, clock.
  rewrite bind_gets, bind_gets, bind_gets, calls_bind_quiet.
  - rewrite (fan_out_calls_of
               (fun i => vote env i (current s))
               (fun _ => mkCall None (build_consensus (current s)) 1000))
      by (intros i st; apply vote_call).
    reflexivity.
  - intros futs. unfold append_log.
    frame_with ltac:(apply calls_collect_ballots).
Qed.

(** *** Rules *)

Lemma submits_weaken {A} (m : M World A) (P Q : list submission -> Prop) :
  submits m P -> (forall l, P l -> Q l) -> submits m Q.
Proof.
  intros Hm HPQ s Hok. destruct (Hm s Hok) as (d & Hc & HP). eauto.
Qed.

Lemma submits_quiet {A} (m : M World A) :
  unchanged calls m -> submits m (eq []).
Proof. intros H s _. exists []. now rewrite H, app_nil_r. Qed.

Lemma submits_bind {A B} (m : M World A) (k : A -> M World B)
      (P Q R : list submission -> Prop) :
  submits m P -> (forall a, submits (k a) Q) ->
  (forall l1 l2, P l1 -> Q l2 -> R (l1 ++ l2)%list) ->
  submits (bindM m k) R.
Proof.
  intros Hm Hk HR s. unfold bindM. specialize (Hm s).
  destruct (m s) as [[a|e] s1]; cbn [fst snd] in *; [|discriminate].
  intros Hok. destruct (Hm eq_refl) as (d1 & Hc1 & HP).
  destruct (Hk a s1 Hok) as (d2 & Hc2 & HQ).
  exists (d1 ++ d2)%list. rewrite Hc2, Hc1, app_assoc, map_app. auto.
Qed.

Lemma submits_quiet_bind {A B} (m : M World A) (k : A -> M World B)
      (P : list submission -> Prop) :
  unchanged calls m -> (forall a, submits (k a) P) -> submits (bindM m k) P.
Proof.
  intros Hm Hk.
  apply (submits_bind m k (eq []) P P); [now apply submits_quiet | exact Hk|].
  now intros l1 l2 <-.
Qed.

Lemma submits_then_quiet {A B} (m : M World A) (k : A -> M World B)
      (P : list submission -> Prop) :
  submits m P -> (forall a, unchanged calls (k a)) -> submits (bindM m k) P.
Proof.
  intros Hm Hk.
  apply (submits_bind m k P (eq []) P);
    [exact Hm | intros a; now apply submits_quiet|].
  intros l1 l2 HP <-. now rewrite app_nil_r.
Qed.

Lemma submits_seq {A B} (m : M World A) (k : A -> M World B)
      (l1 l2 : list submission) :
  submits m (eq l1) -> (forall a, submits (k a) (eq l2)) ->
  submits (bindM m k) (eq (l1 ++ l2)%list).
Proof.
  intros Hm Hk. apply (submits_bind m k (eq l1) (eq l2)); auto.
  now intros x y <- <-.
Qed.

(** A builder that raises leaves nothing to show. *)
Lemma submits_lift_bind {A B} (r : result A) (k : A -> M World B)
      (P : list submission -> Prop) :
  (forall a, r = Ok a -> submits (k a) P) -> submits (bindM (lift r) k) P.
Proof.
  intros H. destruct r as [a|e]; intros s.
  - exact (H a eq_refl s).
  - cbn. discriminate.
Qed.

Lemma submits_for_each {Y} (body : Y -> M World unit) (f : Y -> submission)
      (xs : list Y) :
  (forall x, submits (body x) (eq [f x])) ->
  submits (for_each xs body) (eq (map f xs)).
Proof.
  intros Hb. induction xs as [|x r IH]; cbn [for_each map].
  - apply submits_quiet, unchanged_ret.
  - apply (submits_seq (body x) _ [f x] (map f r)); auto.
Qed.

Lemma submits_hw (b : backend) (qc : circuit) (shots : nat) :
  submits (hw env b qc shots) (eq [(Some b, qc_profile qc, shots)]).
Proof.
  intros s _. exists [mkCall (Some b) qc shots]. unfold hw.
  destruct (run_hw env b qc shots (world s)) as [[r sig] w]. cbn [snd].
  now rewrite deliver_calls.
Qed.

Lemma submits_simulate (qc : circuit) (shots : nat) :
  submits (simulate env qc shots) (eq [(None, qc_profile qc, shots)]).
Proof.
  intros s _. exists [mkCall None qc shots]. unfold simulate.
  now destruct (run_circuit env qc shots (world s)) as [r w].
Qed.

(** *** The persistent loop *)

Lemma submits_hop (label : string) (b : backend)
      (build : string -> result circuit) (shots : nat) (p : profile) :
  (forall msg qc, build msg = Ok qc -> qc_profile qc = p) ->
  submits (hop env label b build shots) (eq [(Some b, p, shots)]).
Proof.
  intros Hp. unfold hop.
  apply submits_quiet_bind; [apply unchanged_gets|]. intros msg.
  apply submits_quiet_bind; [apply calls_log|]. intros _.
  apply submits_lift_bind. intros qc Hqc.
  apply submits_then_quiet.
  - rewrite <- (Hp _ _ Hqc). apply submits_hw.
  - intros [c jid]. unfold log. frame_with fail.
Qed.

Lemma submits_final_echo :
  submits (final_echo env) (eq [(Some backend_a, Echo, 200%nat)]).
Proof.
  unfold final_echo.
  apply submits_quiet_bind; [apply unchanged_gets|]. intros msg.
  apply submits_quiet_bind; [apply calls_log|]. intros _.
  apply submits_then_quiet.
  - apply (submits_hw backend_a (build_echo msg) 200).
  - intros [c jid]. unfold log. frame_with fail.
Qed.

Lemma submits_consensus_phase :
  submits (consensus_phase env) (fun l => exists o, consensus_submissions o = l).
Proof.
  intros s _. eexists. split; [apply consensus_calls|].
  exists (start_order env (world s)).
  unfold consensus_submissions. now rewrite map_map.
Qed.

(** The submissions of a pass that returns: each relay leg goes to its own
    backend, the consensus to each backend once, the rallies to the first
    two backends in turn. *)
Lemma submits_phases :
  submits (phases env) (fun l => exists o, loop_submissions o = l).
Proof.
  unfold phases, later_phases.
  apply (submits_bind _ _ (eq [(Some backend_a, Echo, 200%nat)])
           (fun l => exists o,
                ([(Some backend_a, Relay 1, 500); (Some backend_b, Relay 2, 500);
                  (Some backend_c, Relay 3, 500)]%nat
                 ++ consensus_submissions o
                 ++ [(Some backend_a, Ping, 500); (Some backend_b, Pong, 500);
                     (Some backend_a, Echo, 200)]%nat)%list = l)).
  { apply submits_hop. now intros msg qc [= <-]. }
  { intros _.
    apply (submits_bind _ _
             (eq [(Some backend_a, Relay 1, 500); (Some backend_b, Relay 2, 500);
                  (Some backend_c, Relay 3, 500)]%nat)
             (fun l => exists o,
                  (consensus_submissions o
                   ++ [(Some backend_a, Ping, 500); (Some backend_b, Pong, 500);
                       (Some backend_a, Echo, 200)]%nat)%list = l)).
    { apply (submits_for_each _
               (fun lb => (Some (snd lb), Relay (fst lb), 500%nat))
               (combine (seq 1 3) backends)).
      intros lb. apply submits_hop. intros msg qc. apply build_relay_profile. }
    { intros _.
      apply (submits_bind _ _ (fun l => exists o, consensus_submissions o = l)
               (eq [(Some backend_a, Ping, 500); (Some backend_b, Pong, 500);
                    (Some backend_a, Echo, 200)]%nat)).
      { apply submits_consensus_phase. }
      { intros _.
        apply (submits_seq _ _
                 [(Some backend_a, Ping, 500); (Some backend_b, Pong, 500)]%nat
                 [(Some backend_a, Echo, 200)]%nat).
        - apply (submits_for_each _
                   (fun rally =>
                      (Some (nth (rally mod 2) [backend_a; backend_b] backend_a),
                       if Nat.eqb (rally mod 2) 1 then Pong else Ping, 500%nat))
                   (seq 0 2)).
          intros rally. unfold rally_step. apply submits_hop.
          now intros msg qc [= <-].
        - intros _. apply submits_final_echo. }
      { intros l1 l2 [o <-] <-. now exists o. } }
    { intros l1 l2 <- [o <-]. now exists o. } }
  { intros l1 l2 <- [o <-]. now exists o. }
Qed.

(** *** The single run *)

Lemma submits_sim_hop (phase node : string)
      (build : string -> result circuit) (shots : nat) (p : profile) :
  (forall msg qc, build msg = Ok qc -> qc_profile qc = p) ->
  submits (sim_hop env phase node build shots) (eq [(None, p, shots)]).
Proof.
  intros Hp. unfold sim_hop, clock.
  apply submits_quiet_bind; [apply unchanged_gets|]. intros start.
  apply submits_quiet_bind; [apply unchanged_gets|]. intros msg.
  apply submits_lift_bind. intros qc Hqc.
  apply submits_then_quiet.
  - rewrite <- (Hp _ _ Hqc). apply submits_simulate.
  - intros c. unfold append_log. frame_with fail.
Qed.

Lemma submits_sim_consensus :
  submits (sim_consensus env)
          (eq [(None, Consensus, 1000); (None, Consensus, 1000);
               (None, Consensus, 1000)]%nat).
Proof.
  intros s _. eexists. split; [apply sim_consensus_calls|].
  now destruct (start_order env (world s)).
Qed.

Lemma submits_sim_final_echo :
  submits (sim_final_echo env) (eq [(None, Echo, 200%nat)]).
Proof.
  unfold sim_final_echo, clock.
  apply submits_quiet_bind; [apply unchanged_gets|]. intros start.
  apply submits_quiet_bind; [apply unchanged_gets|]. intros msg.
  apply submits_then_quiet.
  - apply (submits_simulate (build_echo msg) 200).
  - intros c. unfold append_log. frame_with fail.
Qed.

Lemma submits_full_experiment :
  submits (full_experiment env) (eq single_run_submissions).
Proof.
  unfold full_experiment.
  apply submits_quiet_bind; [now intros s|]. intros _.
  apply submits_quiet_bind; [now intros s|]. intros _.
  apply (submits_seq _ _ [(None, Echo, 200); (None, Echo, 200)]%nat).
  { apply (submits_for_each _ (fun _ => (None, Echo, 200%nat)) (seq 0 2)).
    intros r. apply submits_sim_hop. now intros msg qc [= <-]. }
  intros _.
  apply (submits_seq _ _
           [(None, Relay 1, 500); (None, Relay 2, 500); (None, Relay 3, 500)]%nat).
  { apply (submits_for_each _ (fun leg => (None, Relay leg, 500%nat)) (seq 1 3)).
    intros leg. apply submits_sim_hop. intros msg qc. apply build_relay_profile. }
  intros _.
  apply (submits_seq _ _
           [(None, Consensus, 1000); (None, Consensus, 1000);
            (None, Consensus, 1000)]%nat).
  { apply submits_sim_consensus. }
  intros _.
  apply (submits_seq _ _
           [(None, Ping, 500); (None, Pong, 500); (None, Ping, 500);
            (None, Pong, 500)]%nat [(None, Echo, 200)]%nat).
  { apply (submits_for_each _
             (fun rally => (None, if Nat.eqb (rally mod 2) 1 then Pong else Ping,
                            500%nat))
             (seq 0 4)).
    intros rally. unfold sim_rally. apply submits_sim_hop.
    now intros msg qc [= <-]. }
  intros _. apply submits_sim_final_echo.
Qed.

End SubmissionFacts.

(** ** Stages of the single run *)

Section StageFacts.

Context {World : Type}.
Variable env : Env World.

Local Open Scope prog_scope.

Lemma chained_app (i x o : string) (e1 e2 : list log_entry) :
  chained i e1 x -> chained x e2 o -> chained i (e1 ++ e2) o.
Proof.
  revert i. induction e1 as [|e r IH]; intros i; cbn [chained app].
  - now intros ->.
  - intros [Hin Hr] H2. split; [exact Hin | now apply IH].
Qed.

Lemma threads_ret {A} (i : string) (a : A) : threads (World:=World) i (ret a) [].
Proof. intros s Hi _. exists []. cbn. rewrite app_nil_r. auto. Qed.

Lemma threads_quiet_bind {A B} (i : string) (m : M World A) (k : A -> M World B)
      (names : list (string * string)) :
  unchanged pipeline_log m -> unchanged current m ->
  (forall a, threads i (k a) names) ->
  threads i (bindM m k) names.
Proof.
  intros Hl Hc Hk s Hi. unfold bindM. specialize (Hl s). specialize (Hc s).
  destruct (m s) as [[a|e] s1]; cbn [fst snd] in *; [|discriminate].
  intros Hok. destruct (Hk a s1) as (es & Hes & Hn & Hch); [congruence|exact Hok|].
  exists es. now rewrite Hes, Hl.
Qed.

Lemma threads_read {B} (i : string) (k : string -> M World B)
      (names : list (string * string)) :
  threads i (k i) names -> threads i (bindM (gets current) k) names.
Proof.
  intros Hk s Hi. rewrite bind_gets, Hi. now apply Hk.
Qed.

Lemma threads_seq {A B} (i : string) (m : M World A) (k : A -> M World B)
      (n1 n2 : list (string * string)) :
  threads i m n1 -> (forall a o, threads o (k a) n2) ->
  threads i (bindM m k) (n1 ++ n2).
Proof.
  intros Hm Hk s Hi. unfold bindM. specialize (Hm s Hi).
  destruct (m s) as [[a|e] s1]; cbn [fst snd] in *; [|discriminate].
  intros Hok. destruct (Hm eq_refl) as (e1 & He1 & Hn1 & Hc1).
  destruct (Hk a (current s1) s1 eq_refl Hok) as (e2 & He2 & Hn2 & Hc2).
  exists (e1 ++ e2)%list. rewrite He2, He1, app_assoc, map_app, Hn1, Hn2.
  repeat split. eapply chained_app; eassumption.
Qed.

Lemma delivers_seq {A} (i : string) (m : M World A) (k : A -> M World string)
      (n1 n2 : list (string * string)) :
  threads i m n1 -> (forall a o, delivers o (k a) n2) ->
  delivers i (bindM m k) (n1 ++ n2).
Proof.
  intros Hm Hk s Hi final. unfold bindM. specialize (Hm s Hi).
  destruct (m s) as [[a|e] s1]; cbn [fst snd] in *; [|discriminate].
  intros Hok. destruct (Hm eq_refl) as (e1 & He1 & Hn1 & Hc1).
  destruct (Hk a (current s1) s1 eq_refl final Hok) as (e2 & He2 & Hn2 & Hc2).
  exists (e1 ++ e2)%list. rewrite He2, He1, app_assoc, map_app, Hn1, Hn2.
  repeat split. eapply chained_app; eassumption.
Qed.

Lemma threads_for_each {Y} (body : Y -> M World unit)
      (name : Y -> string * string) (xs : list Y) (i : string) :
  (forall x o, threads o (body x) [name x]) ->
  threads i (for_each xs body) (map name xs).
Proof.
  intros Hb. revert i. induction xs as [|x r IH]; intros i; cbn [for_each map].
  - apply threads_ret.
  - apply (threads_seq i (body x) _ [name x]); [apply Hb|]. intros _ o. apply IH.
Qed.

(** The simulator touches neither the log nor the message. *)
Lemma log_simulate (qc : circuit) (shots : nat) :
  unchanged pipeline_log (simulate env qc shots).
Proof.
  intros s. unfold simulate.
  now destruct (run_circuit env qc shots (world s)) as [r w].
Qed.

Lemma current_simulate (qc : circuit) (shots : nat) :
  unchanged current (simulate env qc shots).
Proof.
  intros s. unfold simulate.
  now destruct (run_circuit env qc shots (world s)) as [r w].
Qed.

Lemma threads_sim_hop (phase node : string) (build : string -> result circuit)
      (shots : nat) (i : string) :
  threads i (sim_hop env phase node build shots) [(phase, node)].
Proof.
  unfold sim_hop, clock.
  apply threads_quiet_bind; try apply unchanged_gets. intros start.
  apply threads_read.
  apply threads_quiet_bind; try apply unchanged_lift. intros qc.
  apply threads_quiet_bind; [apply log_simulate | apply current_simulate|].
  intros c.
  apply threads_quiet_bind; try apply unchanged_lift. intros response.
  apply threads_quiet_bind; try apply unchanged_gets. intros t.
  intros s Hi _. cbn.
  exists [mkLogEntry phase i response node (t - start)%float].
  repeat split; auto.
Qed.

Lemma frame_vote {X} (f : state World -> X) (node_idx : nat) (msg : string) :
  (forall qc shots, unchanged f (simulate env qc shots)) ->
  unchanged f (vote env node_idx msg).
Proof.
  intros Hsim. unfold vote.
  apply unchanged_bind; [apply Hsim|]. intros c.
  apply unchanged_bind; [apply unchanged_lift|]. intros top.
  apply unchanged_bind; [apply unchanged_lift|]. intros val.
  apply unchanged_bind; [apply unchanged_lift|]. intros ratio.
  apply unchanged_ret.
Qed.

Lemma frame_collect_ballots {X} (f : state World -> X) (order : list nat)
      (futs : list (nat * result ballot)) (votes : list ballot) :
  unchanged f (collect_ballots order futs votes).
Proof.
  revert votes. induction order as [|j r IH]; intros votes;
    cbn [collect_ballots].
  - apply unchanged_ret.
  - apply unchanged_bind; [apply unchanged_lift|]. intros v. apply IH.
Qed.

Lemma threads_sim_consensus (i : string) :
  threads i (sim_consensus env) [("CONSENSUS", "ALL")].
Proof.
  unfold sim_consensus, clock.
  apply threads_read.
  apply threads_quiet_bind; try apply unchanged_gets. intros start.
  apply threads_quiet_bind; try apply unchanged_gets. intros starts.
  apply threads_quiet_bind.
  { apply unchanged_fan_out. intros j. apply frame_vote, log_simulate. }
  { apply unchanged_fan_out. intros j. apply frame_vote, current_simulate. }
  intros futs.
  apply threads_quiet_bind; try apply unchanged_gets. intros finishes.
  apply threads_quiet_bind; try apply frame_collect_ballots. intros votes.
  apply threads_quiet_bind; try apply unchanged_gets. intros t.
  apply threads_quiet_bind; try apply unchanged_lift. intros [majority msg].
  intros s Hi _. cbn.
  exists [mkLogEntry "CONSENSUS" i msg "ALL" (t - start)%float].
  repeat split; auto.
Qed.

Lemma delivers_sim_final_echo (i : string) :
  delivers i (sim_final_echo env) [("ECHO_FINAL", "QNode-Alpha")].
Proof.
  intros s Hi final.
  unfold sim_final_echo, clock, bindM, gets, lift, append_log, modify, ret.
  rewrite Hi.
  pose proof (log_simulate (build_echo i) 200 s) as Hl.
  destruct (simulate env (build_echo i) 200 s) as [[c|e] s1];
    cbn [fst snd] in *; [|discriminate].
  destruct (decode_message c) as [out|e]; cbn [fst snd]; [|discriminate].
  intros [= <-]. cbn [pipeline_log set_pipeline_log]. rewrite Hl.
  eexists [_]. repeat split.
Qed.

(** The pipeline after its two opening assignments. *)
Lemma delivers_pipeline (s : state World) :
  current s = "NICHO" ->
  forall final,
    fst ((for_each (seq 0 2)
            (fun _ => sim_hop env "ECHO" (nth 0 COMPUTERS "")
                              (fun msg => Ok (build_echo msg)) 200) ;;
          for_each (seq 1 3)
            (fun leg => sim_hop env "RELAY" (nth (leg - 1) COMPUTERS "")
                                (fun msg => build_relay msg leg) 500) ;;
          sim_consensus env ;;
          for_each (seq 0 4) (sim_rally env) ;;
          sim_final_echo env) s) = Ok final ->
    exists entries,
      pipeline_log
        (snd ((for_each (seq 0 2)
                 (fun _ => sim_hop env "ECHO" (nth 0 COMPUTERS "")
                                   (fun msg => Ok (build_echo msg)) 200) ;;
               for_each (seq 1 3)
                 (fun leg => sim_hop env "RELAY" (nth (leg - 1) COMPUTERS "")
                                     (fun msg => build_relay msg leg) 500) ;;
               sim_consensus env ;;
               for_each (seq 0 4) (sim_rally env) ;;
               sim_final_echo env) s))
      = (pipeline_log s ++ entries)%list /\
      map stage entries = single_run_stages /\
      chained "NICHO" entries final.
Proof.
  revert s.
  change (delivers "NICHO"
            (for_each (seq 0 2)
               (fun _ => sim_hop env "ECHO" (nth 0 COMPUTERS "")
                                 (fun msg => Ok (build_echo msg)) 200) ;;
             for_each (seq 1 3)
               (fun leg => sim_hop env "RELAY" (nth (leg - 1) COMPUTERS "")
                                   (fun msg => build_relay msg leg) 500) ;;
             sim_consensus env ;;
             for_each (seq 0 4) (sim_rally env) ;;
             sim_final_echo env)
            single_run_stages).
  apply (delivers_seq _ _ _ [("ECHO", "QNode-Alpha"); ("ECHO", "QNode-Alpha")]).
  { apply (threads_for_each _ (fun _ => ("ECHO", "QNode-Alpha")) (seq 0 2)).
    intros. apply threads_sim_hop. }
  intros _ o1.
  apply (delivers_seq _ _ _ [("RELAY", "QNode-Alpha"); ("RELAY", "QNode-Beta");
                             ("RELAY", "QNode-Gamma")]).
  { apply (threads_for_each _ (fun leg => ("RELAY", nth (leg - 1) COMPUTERS ""))
             (seq 1 3)).
    intros. apply threads_sim_hop. }
  intros _ o2. apply (delivers_seq _ _ _ [("CONSENSUS", "ALL")]).
  { apply threads_sim_consensus. }
  intros _ o3.
  apply (delivers_seq _ _ _ [("PINGPONG", "QNode-Alpha"); ("PINGPONG", "QNode-Beta");
                             ("PINGPONG", "QNode-Alpha"); ("PINGPONG", "QNode-Beta")]).
  { apply (threads_for_each _ (fun rally => ("PINGPONG", nth (rally mod 2) COMPUTERS ""))
             (seq 0 4)).
    intros. unfold sim_rally. apply threads_sim_hop. }
  intros _ o4. apply delivers_sim_final_echo.
Qed.

End StageFacts.

(** ** Order of the phases *)

Section PhaseOrder.

Context {World : Type}.
Variable env : Env World.

(** C3 (as the code has it). Phase order: a pass of the single-run pipeline
    that completes has submitted, in this order, ECHO, ECHO, RELAY leg 1,
    leg 2, leg 3, CONSENSUS three times (once per node), PING, PONG, PING,
    PONG and the final ECHO, with 200 shots for the echoes, 1000 for the
    consensus and 500 otherwise, and has logged each phase under its node;
    a pass of the persistent loop that completes has submitted ECHO once
    to the first backend, the three RELAY legs to the first, second and
    third backend, CONSENSUS to each of the three backends once (in the
    order the threads start), PING to the first and PONG to the second
    backend, and the final ECHO to the first.  A pass that raises has
    submitted a prefix of its sequence. *)
Theorem pipeline_phase_order (s : state World) :
  (exists done,
     calls (snd (full_experiment env s)) = (calls s ++ done)%list /\
     (exists rest, single_run_sequence = (map call_profile done ++ rest)%list) /\
     (is_ok (fst (full_experiment env s)) = true ->
      map call_profile done = single_run_sequence /\
      map seen done = single_run_submissions /\
      map stage (pipeline_log (snd (full_experiment env s))) = single_run_stages)) /\
  (exists done,
     calls (snd (phases env s)) = (calls s ++ done)%list /\
     (exists rest, loop_sequence = (map call_profile done ++ rest)%list) /\
     (is_ok (fst (phases env s)) = true ->
      map call_profile done = loop_sequence /\
      exists o, map seen done = loop_submissions o)).
Proof.
  split.
  - destruct (tracks_full_experiment env s) as (d & n & Hc & _ & Hr & Ho & _).
    exists d. split; [exact Hc|]. split; [exact Hr|].
    intros Hok. split; [auto|].
    destruct (submits_full_experiment env s Hok) as (d' & Hc' & Hseen).
    rewrite Hc in Hc'. apply app_inv_head in Hc'. subst d'.
    split; [now symmetry|].
    destruct (fst (full_experiment env s)) as [final|e] eqn:Hfst;
      [|discriminate].
    destruct (delivers_pipeline env (set_current "NICHO" (set_pipeline_log [] s))
                eq_refl final Hfst)
      as (entries & Hlog & Hnames & _).
    change (pipeline_log (snd (full_experiment env s)) = entries) in Hlog.
    now rewrite Hlog.
  - destruct (tracks_phases env s) as (d & n & Hc & _ & Hr & Ho & _).
    exists d. split; [exact Hc|]. split; [exact Hr|].
    intros Hok. split; [auto|].
    destruct (submits_phases env s Hok) as (d' & Hc' & o & Hseen).
    rewrite Hc in Hc'. apply app_inv_head in Hc'. subst d'.
    exists o. now symmetry.
Qed.

End PhaseOrder.

Lemma pipeline_phase_order_witness :
  map seen
      (calls (snd (full_experiment (Mock.env None None)
                                   (initial_state 0%nat Mock.good_disk))))
  = single_run_submissions /\
  map stage
      (pipeline_log (snd (full_experiment (Mock.env None None)
                                          (initial_state 0%nat Mock.good_disk))))
  = single_run_stages /\
  map seen
      (calls (snd (phases (Mock.env None None)
                          (initial_state 0%nat Mock.good_disk))))
  = loop_submissions O123.
Proof.
  destruct (pipeline_phase_order (Mock.env None None)
              (initial_state 0%nat Mock.good_disk))
    as [(d1 & Hc1 & _ & Ho1) (d2 & Hc2 & _ & Ho2)].
  assert (H1 : is_ok (fst (full_experiment (Mock.env None None)
                             (initial_state 0%nat Mock.good_disk))) = true)
    by (vm_compute; reflexivity).
  assert (H2 : is_ok (fst (phases (Mock.env None None)
                             (initial_state 0%nat Mock.good_disk))) = true)
    by (vm_compute; reflexivity).
  destruct (Ho1 H1) as (_ & Hseen1 & Hst1).
  destruct (Ho2 H2) as (_ & o & Hseen2).
  split; [rewrite Hc1; exact Hseen1|].
  split; [exact Hst1|].
  vm_compute. reflexivity.
Defined.

(** C3 (as stated) fails for the persistent loop: a pass that returns has
    made ten submissions, with one echo round and two rallies, not the
    thirteen of the single run. *)
Lemma loop_pass_is_shorter :
  is_ok (fst (phases (Mock.env None None) (initial_state 0%nat Mock.good_disk)))
  = true /\
  map call_profile
      (calls (snd (phases (Mock.env None None)
                          (initial_state 0%nat Mock.good_disk))))
  = [Echo; Relay 1; Relay 2; Relay 3; Consensus; Consensus; Consensus;
     Ping; Pong; Echo] /\
  map call_profile
      (calls (snd (phases (Mock.env None None)
                          (initial_state 0%nat Mock.good_disk))))
  <> single_run_sequence.
Proof.
  split; [vm_compute; reflexivity|].
  split; [vm_compute; reflexivity|].
  vm_compute. discriminate.
Qed.

(** ** The loop record *)




(** C9. The record of a successful iteration: its output is the output of
    the final echo, but its input field holds the message that went into
    the final echo (here W), not the message the iteration started from
    (here NICHE). *)
Theorem loop_record_input_field :
  let s0 := initial_state 0%nat Mock.good_disk in
  let s1 := snd (iteration (Mock.env None None) s0) in
  current s0 = "NICHE" /\
  fst (iteration (Mock.env None None) s0) = Ok tt /\
  In (PhaseLine "ECHO FINAL" backend_a "W") (status s1) /\
  In (ResponseLine "MI" "job-j") (status s1) /\
  exists r,
    log_file (disk s1) = HoldsList [JRecord r] /\
    rec_input r = "W" /\ rec_output r = "MI" /\ rec_loop r = 1%nat /\
    rec_job_count r = 10%nat /\ List.length (rec_jobs r) = 10%nat /\
    rec_total_jobs_all_time r = 10%nat.
Proof.
  vm_compute. repeat split; auto 30.
  eexists. repeat split.
Qed.

(** ** Recovery of the persistent loop *)

Section LoopFacts.

Context {World : Type}.
Variable env : Env World.

Lemma tracks_grows {A} (m : M World A) (l : list profile) :
  tracks m l -> grows m.
Proof.
  intros H s. destruct (H s) as (d & _ & Hc & _). eauto.
Qed.

Lemma begins_bind {A B} (m : M World A) (k : A -> M World B)
      (first : state World -> call) :
  begins_with m first -> (forall a, grows (k a)) ->
  begins_with (bindM m k) first.
Proof.
  intros Hm Hk s. unfold bindM. destruct (Hm s) as (rest & Hc).
  destruct (m s) as [[a|e] s1]; simpl in *; [|eauto].
  destruct (Hk a s1) as (d & Hd). exists (rest ++ d)%list.
  rewrite Hd, Hc, <- app_assoc. reflexivity.
Qed.

Lemma begins_try_except {A} (body : M World A) (handler : exn -> M World A)
      (first : state World -> call) :
  begins_with body first -> (forall e, grows (handler e)) ->
  begins_with (try_except body handler) first.
Proof.
  intros Hm Hk s. unfold try_except. destruct (Hm s) as (rest & Hc).
  destruct (body s) as [[a|e] s1]; simpl in *; [eauto|].
  destruct (Hk e s1) as (d & Hd). exists (rest ++ d)%list.
  rewrite Hd, Hc, <- app_assoc. reflexivity.
Qed.

(** A hop whose builder cannot fail always submits. *)
Lemma begins_hop (label : string) (b : backend) (build : string -> circuit)
      (shots : nat) :
  begins_with (hop env label b (fun msg => Ok (build msg)) shots)
              (fun s => mkCall (Some b) (build (current s)) shots).
Proof.
  intros s. unfold hop, bindM, gets, log, modify, lift, hw. simpl.
  destruct (run_hw env b (build (current s)) shots (world s)) as [[r sig] w].
  destruct r as [[c jid]|e]; simpl.
  - destruct (decode_message c) as [response|e]; simpl;
      rewrite deliver_calls; simpl; now exists [].
  - rewrite deliver_calls. simpl. now exists [].
Qed.

Lemma begins_try_body (loop_start : float) :
  begins_with (try_body env loop_start) opening_call.
Proof.
  unfold try_body, phases.
  apply begins_bind.
  - apply begins_bind; [apply begins_hop|].
    intros _. eapply tracks_grows, tracks_later_phases.
  - intros response. eapply tracks_grows.
    eapply tracks_bind; [apply tracks_record_loop|].
    intros _. apply tracks_pause.
Qed.

(** What [loop_head] leaves behind. *)
Lemma loop_head_value (s : state World) :
  fst (loop_head env s) = Ok (time_time env (world s)) /\
  current (snd (loop_head env s)) = current s /\
  calls (snd (loop_head env s)) = calls s /\
  world (snd (loop_head env s)) = world s /\
  loop_num (snd (loop_head env s)) = (loop_num s + 1)%nat /\
  jobs_this_loop (snd (loop_head env s)) = [] /\
  In (LoopHeader (loop_num s + 1) (current s) (isoformat_now env (world s)))
     (status (snd (loop_head env s))).
Proof.
  unfold loop_head, bindM, modify, clock, now_iso, gets, log, ret. simpl.
  repeat split; auto.
  rewrite !in_app_iff. simpl. auto.
Qed.

(** Every iteration opens with the echo of its input message. *)
Lemma iteration_first_call : begins_with (iteration env) opening_call.
Proof.
  intros s. unfold iteration, bindM.
  destruct (loop_head_value s) as (Hv & Hcur & Hcalls & _).
  destruct (loop_head env s) as [r s0]. simpl in *. subst r.
  destruct (begins_try_except (try_body env (time_time env (world s)))
              (on_error env) opening_call
              (begins_try_body _)
              (fun e => tracks_grows _ _ (tracks_on_error env e)) s0)
    as (rest & Hrest).
  exists rest. rewrite Hrest, Hcalls. unfold opening_call. now rewrite Hcur.
Qed.

(** The error handler, spelled out. *)
Lemma on_error_value (e : exn) (s : state World) :
  on_error env e s
  = (Ok tt,
     set_current "NICHE"
       (deliver (fst (sleep env 30 (world s)))
          (set_world (snd (sleep env 30 (world s)))
             (set_status (status s ++ [ErrorLine (loop_num s) e;
                                       Text "  Waiting 30s before retry..."])%list
                         s)))).
Proof.
  unfold on_error, bindM, gets, log, modify, sleep_for. simpl.
  destruct (sleep env 30 (world s)) as [sig w]. simpl.
  rewrite <- app_assoc. reflexivity.
Qed.

(** C5. Reset on error: when the statements under [try] raise in an
    iteration, the iteration still completes; the failure is logged, the
    loop sleeps 30 seconds (the pause after a successful iteration is 10),
    and the message is reset to NICHE, so that the next iteration is logged
    with input NICHE and opens by submitting the echo of NICHE, whatever
    the failed iteration had produced. *)
Theorem reset_on_error
  (s s0 s1 : state World) (t0 : float) (e : exn) :
  loop_head env s = (Ok t0, s0) ->
  try_body env t0 s0 = (Raise e, s1) ->
  let s2 := snd (iteration env s) in
  fst (iteration env s) = Ok tt /\
  current s2 = "NICHE" /\
  world s2 = snd (sleep env 30 (world s1)) /\
  calls s2 = calls s1 /\
  (exists tail,
     status s2 = (status s1 ++ ErrorLine (loop_num s1) e
                    :: Text "  Waiting 30s before retry..." :: tail)%list) /\
  (forall s', running s' = true ->
              world (snd (pause env s')) = snd (sleep env 10 (world s'))) /\
  In (LoopHeader (loop_num s2 + 1) "NICHE" (isoformat_now env (world s2)))
     (status (snd (loop_head env s2))) /\
  exists rest,
    calls (snd (iteration env s2))
    = (calls s2 ++ mkCall (Some backend_a) (build_echo "NICHE") 200 :: rest)%list.
Proof.
  intros Hhead Hbody.
  assert (Hit : iteration env s = on_error env e s1).
  { unfold iteration, bindM, try_except. now rewrite Hhead, Hbody. }
  cbv zeta. rewrite Hit, on_error_value. cbn [fst snd].
  set (s2 := set_current "NICHE" _).
  assert (Hcur : current s2 = "NICHE") by reflexivity.
  split; [reflexivity|]. split; [exact Hcur|].
  split.
  { subst s2. destruct (fst (sleep env 30 (world s1))); reflexivity. }
  split.
  { subst s2. cbn. now rewrite deliver_calls. }
  split.
  { subst s2. cbn.
    destruct (deliver_status (fst (sleep env 30 (world s1)))
                (set_world (snd (sleep env 30 (world s1)))
                   (set_status (status s1 ++ [ErrorLine (loop_num s1) e;
                                  Text "  Waiting 30s before retry..."])%list s1)))
      as (new & Hs & _).
    exists new. rewrite Hs. cbn. now rewrite <- app_assoc. }
  split.
  { intros s' Hr. unfold pause, bindM, gets, log, modify, sleep_for. simpl.
    rewrite Hr. simpl.
    destruct (sleep env 10 (world s')) as [sig w]. simpl.
    now destruct sig. }
  split.
  { rewrite <- Hcur at 1. apply loop_head_value. }
  destruct (iteration_first_call s2) as (rest & Hrest).
  exists rest. rewrite Hrest. unfold opening_call. now rewrite Hcur.
Qed.

End LoopFacts.

Lemma reset_on_error_witness :
  let env := Mock.env_with Mock.terse None None in
  let s := initial_state 0%nat Mock.good_disk in
  let s0 := snd (loop_head env s) in
  let s1 := snd (try_body env 0%float s0) in
  try_body env 0%float s0 = (Raise CircuitError, s1) /\
  current s1 = "A" /\
  map call_profile (calls s1) = [Echo; Relay 1; Relay 2] /\
  current (snd (iteration env s)) = "NICHE" /\
  In (ErrorLine 1 CircuitError) (status (snd (iteration env s))).
Proof.
  cbv zeta.
  assert (H1 : loop_head (Mock.env_with Mock.terse None None)
                         (initial_state 0%nat Mock.good_disk)
               = (Ok 0%float,
                  snd (loop_head (Mock.env_with Mock.terse None None)
                                 (initial_state 0%nat Mock.good_disk))))
    by (vm_compute; reflexivity).
  assert (H2 : try_body (Mock.env_with Mock.terse None None) 0%float
                 (snd (loop_head (Mock.env_with Mock.terse None None)
                                 (initial_state 0%nat Mock.good_disk)))
               = (Raise CircuitError,
                  snd (try_body (Mock.env_with Mock.terse None None) 0%float
                         (snd (loop_head (Mock.env_with Mock.terse None None)
                                 (initial_state 0%nat Mock.good_disk))))))
    by (vm_compute; reflexivity).
  split; [exact H2|]. split; [vm_compute; reflexivity|].
  split; [vm_compute; reflexivity|].
  destruct (reset_on_error (Mock.env_with Mock.terse None None) _ _ _ _ _ H1 H2)
    as (_ & Hcur & _ & _ & (tail & Hst) & _).
  split; [exact Hcur|].
  rewrite Hst. apply in_or_app. right. left. reflexivity.
Defined.

(** ** Graceful shutdown *)

(** Breaks an assumption [same_but_signals s s'] into its equations and
    closes a goal that follows from them. *)
Ltac use_same :=
  match goal with
  | H : same_but_signals _ _ |- _ =>
      destruct H as (?Hw & ?Hn & ?Ht & ?Hc & ?Hj & ?Hp & ?Hcalls & ?Hd)
  end.

Ltac close_same :=
  unfold same_but_signals in *; simpl in *;
  repeat match goal with
         | H : _ /\ _ |- _ => destruct H
         end;
  repeat split; congruence.

Section ShutdownFacts.

Context {World : Type}.
Variable env : Env World.

Lemma alike_ret {A} (a : A) : alike (World:=World) (ret a) (ret a).
Proof. intros s s' H. simpl. auto. Qed.

Lemma alike_lift {A} (r : result A) : alike (World:=World) (lift r) (lift r).
Proof. intros s s' H. simpl. auto. Qed.

Lemma alike_gets {A} (f : state World -> A) :
  (forall s s', same_but_signals s s' -> f s = f s') ->
  alike (gets f) (gets f).
Proof. intros Hf s s' H. simpl. split; [f_equal; auto | exact H]. Qed.

Lemma alike_modify (f : state World -> state World) :
  (forall s s', same_but_signals s s' -> same_but_signals (f s) (f s')) ->
  alike (modify f) (modify f).
Proof. intros Hf s s' H. simpl. auto. Qed.

Lemma alike_log (l : line) : alike (World:=World) (log l) (log l).
Proof. intros s s' H. simpl. split; [reflexivity | close_same]. Qed.

Lemma alike_bind {A B} (m m' : M World A) (k k' : A -> M World B) :
  alike m m' -> (forall a, alike (k a) (k' a)) ->
  alike (bindM m k) (bindM m' k').
Proof.
  intros Hm Hk s s' H. unfold bindM.
  destruct (Hm s s' H) as [Hr Hs].
  destruct (m s) as [r s1], (m' s') as [r' s1']. simpl in *. subst r'.
  destruct r as [a|e]; [apply Hk; exact Hs | simpl; auto].
Qed.

Lemma alike_try_except {A} (m m' : M World A) (h h' : exn -> M World A) :
  alike m m' -> (forall e, alike (h e) (h' e)) ->
  alike (try_except m h) (try_except m' h').
Proof.
  intros Hm Hh s s' H. unfold try_except.
  destruct (Hm s s' H) as [Hr Hs].
  destruct (m s) as [r s1], (m' s') as [r' s1']. simpl in *. subst r'.
  destruct r as [a|e]; [simpl; auto | apply Hh; exact Hs].
Qed.

Lemma alike_capture {A} (m m' : M World A) :
  alike m m' -> alike (capture m) (capture m').
Proof.
  intros Hm s s' H. unfold capture.
  destruct (Hm s s' H) as [Hr Hs].
  destruct (m s) as [r s1], (m' s') as [r' s1']. simpl in *. subst r'. auto.
Qed.

Lemma same_deliver (sig sig' : bool) (s s' : state World) :
  same_but_signals s s' -> same_but_signals (deliver sig s) (deliver sig' s').
Proof. intros H. destruct sig, sig'; close_same. Qed.

Lemma alike_hw (b : backend) (qc : circuit) (shots : nat) :
  alike (hw env b qc shots) (hw (mute env) b qc shots).
Proof.
  intros s s' H. unfold hw, mute. cbn [run_hw].
  assert (Hw : world s = world s') by apply H. rewrite <- Hw.
  destruct (run_hw env b qc shots (world s)) as [[r sig] w]. cbn [fst snd].
  split; [reflexivity|]. apply same_deliver. close_same.
Qed.

Lemma alike_sleep_for (seconds : nat) :
  alike (sleep_for env seconds) (sleep_for (mute env) seconds).
Proof.
  intros s s' H. unfold sleep_for, mute. cbn [sleep].
  assert (Hw : world s = world s') by apply H. rewrite <- Hw.
  destruct (sleep env seconds (world s)) as [sig w]. cbn [fst snd].
  split; [reflexivity|]. apply same_deliver. close_same.
Qed.

Lemma alike_save_loop_result (n : nat) (data : loop_record) :
  alike (World:=World) (save_loop_result n data) (save_loop_result n data).
Proof.
  intros s s' H. unfold save_loop_result.
  assert (Hd : disk s = disk s') by apply H. rewrite <- Hd.
  destruct (log_file (disk s)); simpl;
    try destruct (writable (disk s)); simpl; split; auto; close_same.
Qed.

Lemma alike_for_each {X} (body body' : X -> M World unit) (xs : list X) :
  (forall x, alike (body x) (body' x)) ->
  alike (for_each xs body) (for_each xs body').
Proof.
  intros Hb. induction xs as [|x r IH]; simpl.
  - apply alike_ret.
  - apply alike_bind; auto.
Qed.

Lemma alike_fan_out {A} (task task' : nat -> M World A) (order : list nat) :
  (forall i, alike (task i) (task' i)) ->
  alike (fan_out order task) (fan_out order task').
Proof.
  intros Ht. induction order as [|i r IH]; simpl.
  - apply alike_ret.
  - apply alike_bind; [apply alike_capture, Ht|]. intros a.
    apply alike_bind; [exact IH|]. intros rs. apply alike_ret.
Qed.

(** One step of an independence proof on the basic statements. *)
Ltac alike_basic :=
  first
    [ apply alike_ret | apply alike_lift | apply alike_log
    | apply alike_hw | apply alike_sleep_for | apply alike_save_loop_result
    | apply alike_gets; solve [intros; close_same]
    | apply alike_modify; solve [intros; close_same]
    | match goal with
      | |- alike (let '(_, _) := ?p in _) _ => destruct p
      end ].

Ltac alike_with tac :=
  repeat first [ tac | alike_basic | apply alike_bind; [ | intros ? ] ].

Lemma alike_hop (label : string) (b : backend)
      (build : string -> result circuit) (shots : nat) :
  alike (hop env label b build shots) (hop (mute env) label b build shots).
Proof. unfold hop. alike_with fail. Qed.

Lemma alike_do_vote (b : backend) (msg : string) :
  alike (do_vote env b msg) (do_vote (mute env) b msg).
Proof. unfold do_vote. alike_with fail. Qed.

Lemma alike_collect_votes (order : list nat)
      (futs : list (nat * result (ascii * job_id))) (votes : list ascii) :
  alike (World:=World) (collect_votes order futs votes)
        (collect_votes order futs votes).
Proof.
  revert votes. induction order as [|i r IH]; intros votes; simpl.
  - apply alike_ret.
  - alike_with ltac:(apply IH).
Qed.

Lemma alike_consensus_phase :
  alike (consensus_phase env) (consensus_phase (mute env)).
Proof.
  unfold consensus_phase.
  alike_with ltac:(first [ apply alike_collect_votes
                         | apply alike_fan_out; intros; apply alike_do_vote ]).
Qed.

Lemma alike_final_echo : alike (final_echo env) (final_echo (mute env)).
Proof. unfold final_echo. alike_with fail. Qed.

Lemma alike_phases : alike (phases env) (phases (mute env)).
Proof.
  unfold phases, later_phases, rally_step.
  alike_with ltac:(first [ apply alike_hop | apply alike_consensus_phase
                         | apply alike_final_echo
                         | apply alike_for_each; intros ]).
Qed.

Lemma alike_record_loop (loop_start : float) (response : string) :
  alike (record_loop env loop_start response)
        (record_loop (mute env) loop_start response).
Proof. unfold record_loop, clock, now_iso. alike_with fail. Qed.

Lemma alike_on_error (e : exn) : alike (on_error env e) (on_error (mute env) e).
Proof. unfold on_error. alike_with fail. Qed.

Lemma alike_loop_head : alike (loop_head env) (loop_head (mute env)).
Proof. unfold loop_head, clock, now_iso. alike_with fail. Qed.

(** The pause returns and touches nothing but the world, the flag and the
    status stream. *)
Lemma pause_value (e : Env World) (s : state World) :
  fst (pause e s) = Ok tt /\
  calls (snd (pause e s)) = calls s /\ disk (snd (pause e s)) = disk s /\
  current (snd (pause e s)) = current s /\
  loop_num (snd (pause e s)) = loop_num s /\
  total_jobs (snd (pause e s)) = total_jobs s.
Proof.
  unfold pause, bindM, gets, log, modify, sleep_for, ret. simpl.
  destruct (running s); simpl; [|repeat split].
  destruct (sleep e 10 (world s)) as [sig w]. simpl.
  destruct sig; repeat split.
Qed.

Lemma iteration_returns (e : Env World) (s : state World) :
  fst (iteration e s) = Ok tt.
Proof.
  unfold iteration, bindM, try_except.
  destruct (loop_head_value e s) as (Hv & _).
  destruct (loop_head e s) as [r s0]. simpl in Hv. subst r.
  destruct (try_body e (time_time e (world s)) s0) as [[[]|x] s1]; simpl.
  - reflexivity.
  - now rewrite on_error_value.
Qed.

(** A signal changes neither what an iteration submits nor what it saves
    nor the message it hands on. *)
Lemma iteration_outcome (s s' : state World) :
  same_but_signals s s' ->
  let s1 := snd (iteration env s) in
  let s1' := snd (iteration (mute env) s') in
  calls s1 = calls s1' /\ disk s1 = disk s1' /\ current s1 = current s1' /\
  loop_num s1 = loop_num s1' /\ total_jobs s1 = total_jobs s1'.
Proof.
  intros H. cbv zeta. unfold iteration, bindM.
  destruct (alike_loop_head s s' H) as [Hr H0].
  destruct (loop_head_value env s) as (Hv & _).
  destruct (loop_head env s) as [r s0], (loop_head (mute env) s') as [r' s0'].
  simpl in Hr, H0, Hv. subst r' r.
  set (t := time_time env (world s)).
  unfold try_except, try_body, bindM.
  destruct (alike_phases s0 s0' H0) as [Hr1 H1].
  destruct (phases env s0) as [r1 sa], (phases (mute env) s0') as [r1' sa'].
  simpl in Hr1, H1. subst r1'.
  destruct r1 as [response|x].
  - destruct (alike_record_loop t response sa sa' H1) as [Hr2 H2].
    destruct (record_loop env t response sa) as [r2 sb],
             (record_loop (mute env) t response sa') as [r2' sb'].
    simpl in Hr2, H2. subst r2'.
    destruct r2 as [[]|x].
    + destruct (pause_value env sb) as (Hp & Hc & Hd & Hcur & Hn & Ht).
      destruct (pause_value (mute env) sb') as (Hp' & Hc' & Hd' & Hcur' & Hn' & Ht').
      destruct (pause env sb) as [rp sp], (pause (mute env) sb') as [rp' sp'].
      simpl in *. subst rp rp'. simpl.
      rewrite Hc, Hd, Hcur, Hn, Ht, Hc', Hd', Hcur', Hn', Ht'. close_same.
    + destruct (alike_on_error x sb sb' H2) as [_ H3]. close_same.
  - destruct (alike_on_error x sa sa' H1) as [_ H3]. close_same.
Qed.

(** With the flag down the loop is left at once. *)
Lemma main_loop_stopped (fuel : nat) (s : state World) :
  running s = false -> main_loop env fuel s = Some (snd (epilogue s)).
Proof.
  intros Hr. destruct fuel; cbn [main_loop]; rewrite Hr; reflexivity.
Qed.

Lemma same_refl (s : state World) : same_but_signals s s.
Proof. repeat split. Qed.

(** The closing lines change nothing but the status stream. *)
Lemma epilogue_value (s : state World) :
  let s2 := snd (epilogue s) in
  calls s2 = calls s /\ disk s2 = disk s /\ world s2 = world s /\
  current s2 = current s /\ loop_num s2 = loop_num s /\
  total_jobs s2 = total_jobs s /\
  status s2 = (status s ++ [Text rule_below;
                            StoppedLine (loop_num s) (total_jobs s);
                            Text rule])%list.
Proof.
  cbv zeta. unfold epilogue, bindM, gets, log, modify. cbn.
  repeat split. now rewrite <- !app_assoc.
Qed.


End ShutdownFacts.


(** * Further properties of the code *)

(** ** The decoder: alphabet, errors and the first ranked key *)

Section DecoderMore.

Local Open Scope Z_scope.

Lemma min_from_in {X} (k : X -> float) (xs : list X) (best : X) :
  In (min_from k best xs) (best :: xs).
Proof.
  revert best. induction xs as [|x r IH]; intros best; simpl; [auto|].
  destruct (PrimFloat.ltb (k x) (k best)).
  - right. apply IH.
  - destruct (IH best) as [H|H]; auto.
Qed.

Lemma nearest_in_table (table : list (ascii * float)) (v : float) :
  table <> [] -> In (nearest table v) (map fst table).
Proof.
  destruct table as [|x r]; [congruence|]. intros _.
  unfold nearest, min_key. apply in_map. apply min_from_in.
Qed.

Lemma channel_to_char_in_symbols (c : channel) (v : float) :
  In (channel_to_char c v) symbols.
Proof.
  rewrite <- (tables_share_keys c).
  destruct c; apply nearest_in_table; discriminate.
Qed.

Lemma wavelength_in_symbols (v : float) : In (wavelength_to_char v) symbols.
Proof.
  assert (H : map fst CHAR_WAVELENGTHS = symbols) by reflexivity.
  rewrite <- H. unfold wavelength_to_char.
  apply nearest_in_table. discriminate.
Qed.

Lemma frequency_in_symbols (v : float) : In (frequency_to_char v) symbols.
Proof.
  assert (H : map fst CHAR_FREQUENCIES = symbols) by reflexivity.
  rewrite <- H. unfold frequency_to_char.
  apply nearest_in_table. discriminate.
Qed.

Lemma resolve_three_in (a b c s : ascii) :
  resolve [a; b; c] = Ok s -> s = a \/ s = b.
Proof.
  rewrite resolve_three_value.
  destruct (Ascii.eqb b c), (Ascii.eqb a b); intros [= <-]; auto.
Qed.

Lemma decode_key_in_symbols (b : bitstring) (p : position) :
  decode_key b = Ok p -> In (pos_char p) symbols.
Proof.
  unfold decode_key, channel_votes.
  destruct (int2 b) as [value|e]; cbn [bind]; [|discriminate].
  set (r := key_ratio value (List.length b)).
  pose proof (wavelength_in_symbols (ratio_wl r)) as Hl.
  pose proof (frequency_in_symbols (ratio_freq r)) as Hs.
  revert Hl Hs.
  generalize (wavelength_to_char (ratio_wl r)) (frequency_to_char (ratio_freq r))
             (microwave_to_char (ratio_mw r)).
  intros l s m Hl Hs.
  destruct (resolve [l; s; m]) as [ch|e] eqn:E; cbn [bind]; [|discriminate].
  intros [= <-]. unfold pos_char. cbn [fst].
  apply resolve_three_in in E as [->| ->]; assumption.
Qed.

Lemma vote_light_in_symbols (c : counts) (ch : ascii) :
  vote_light c = Ok ch -> In ch symbols.
Proof.
  unfold vote_light.
  destruct (top_key c) as [top|e]; cbn [bind]; [|discriminate].
  destruct (int2 top) as [val|e]; cbn [bind]; [|discriminate].
  destruct (true_divide val 31) as [ratio|e]; cbn [bind]; [|discriminate].
  intros [= <-]. apply wavelength_in_symbols.
Qed.

(** X1. Whatever the distribution, the decoder and the node vote only ever
    produce symbols of the codebook. *)
Theorem decoder_alphabet (c : counts) (n : nat) :
  (forall msg wls freqs mws,
      decode_counts c n = Ok (msg, wls, freqs, mws) ->
      Forall (fun ch => In ch symbols) (list_ascii_of_string msg)) /\
  (forall ch, vote_light c = Ok ch -> In ch symbols).
Proof.
  split; [|apply vote_light_in_symbols].
  intros msg wls freqs mws H.
  apply decode_counts_ok in H as (ps & Hps & Heq).
  injection Heq as -> _ _ _.
  rewrite list_ascii_of_string_of_list_ascii.
  revert ps Hps.
  induction (firstn n (sorted_counts c)) as [|[b k] r IH]; simpl; intros ps H.
  - injection H as <-. constructor.
  - destruct (decode_key b) as [p|e] eqn:Hp; simpl in H; [|discriminate].
    destruct (decode_keys r) as [qs|e] eqn:Hq; simpl in H; [|discriminate].
    injection H as <-. simpl. constructor.
    + now apply decode_key_in_symbols with (b := b).
    + now apply IH.
Qed.

Lemma decoder_alphabet_witness :
  decode_counts (Mock.answer Ping) 5
  = Ok ("RF"%string,
        map ratio_wl [int_true_divide 7 31; int_true_divide 2 31],
        map ratio_freq [int_true_divide 7 31; int_true_divide 2 31],
        map ratio_mw [int_true_divide 7 31; int_true_divide 2 31]) /\
  Forall (fun ch => In ch symbols) (list_ascii_of_string "RF").
Proof.
  assert (H : decode_counts (Mock.answer Ping) 5
              = Ok ("RF"%string,
                    map ratio_wl [int_true_divide 7 31; int_true_divide 2 31],
                    map ratio_freq [int_true_divide 7 31; int_true_divide 2 31],
                    map ratio_mw [int_true_divide 7 31; int_true_divide 2 31]))
    by (vm_compute; reflexivity).
  split; [exact H|].
  exact (proj1 (decoder_alphabet (Mock.answer Ping) 5) _ _ _ _ H).
Defined.

Lemma decode_keys_raises (items : list (bitstring * Z)) (e : exn) :
  decode_keys items = Raise e ->
  e = ValueError /\ exists k, In ([], k) items.
Proof.
  induction items as [|[b n] r IH]; simpl; [discriminate|].
  destruct (decode_key b) as [p|x] eqn:Hp; simpl.
  - destruct (decode_keys r) as [qs|y]; simpl; [discriminate|].
    intros [= <-]. destruct (IH eq_refl) as (-> & k & Hk). eauto.
  - intros [= <-]. apply decode_key_raises in Hp as [-> ->]. eauto.
Qed.

(** X2. The decoder raises exactly when one of the keys it decodes, the
    first [n] of the ranking, has width zero, and the exception is then
    [ValueError]; keys beyond the first [n] are never looked at. *)
Theorem decode_counts_raises_iff (c : counts) (n : nat) (e : exn) :
  decode_counts c n = Raise e <->
  e = ValueError /\ exists k, In ([], k) (firstn n (sorted_counts c)).
Proof.
  unfold decode_counts. split.
  - destruct (decode_keys (firstn n (sorted_counts c))) as [ps|x] eqn:H;
      simpl; [discriminate|].
    intros [= <-]. now apply decode_keys_raises.
  - intros (-> & k & Hk). now rewrite (decode_keys_empty_key _ k Hk).
Qed.

(** [max] seen from the right: the maximum of the tail wins over the head
    only when it is strictly larger. *)
Lemma max_from_le {X} (k : X -> Z) (xs : list X) (best : X) :
  k best <= k (max_from k best xs).
Proof.
  revert best. induction xs as [|x r IH]; intros best; simpl; [lia|].
  destruct (k best <? k x) eqn:E.
  - apply Z.ltb_lt in E. specialize (IH x). lia.
  - apply IH.
Qed.

Lemma max_from_cons {X} (k : X -> Z) (r : list X) (x y : X) :
  max_from k x (y :: r)
  = if k x <? k (max_from k y r) then max_from k y r else x.
Proof.
  revert x y. induction r as [|z r IH]; intros x y.
  - reflexivity.
  - change (max_from k x (y :: z :: r))
      with (if k x <? k y then max_from k y (z :: r) else max_from k x (z :: r)).
    rewrite (IH y z), (IH x z).
    generalize (max_from k z r). intros m.
    destruct (Z.ltb_spec (k y) (k m));
      destruct (Z.ltb_spec (k x) (k y));
      destruct (Z.ltb_spec (k x) (k m)); try reflexivity; lia.
Qed.

(** The head of the ranking is the entry that [max] picks. *)
Lemma sorted_counts_head (x : bitstring * Z) (r : counts) :
  exists rest, sorted_counts (x :: r) = max_from snd x r :: rest.
Proof.
  revert x. induction r as [|y r IH]; intros x.
  - now exists [].
  - destruct (IH y) as (rest & Hrest).
    unfold sorted_counts in *. cbn [sorted] in *.
    rewrite Hrest. cbn [insert_by]. rewrite max_from_cons.
    destruct (Z.ltb_spec (- snd (max_from snd y r)) (- snd x));
      destruct (Z.ltb_spec (snd x) (snd (max_from snd y r))); try lia; eauto.
Qed.

Lemma bind_ok {A B} (a : A) (k : A -> result B) : bind (Ok a) k = k a.
Proof. reflexivity. Qed.

(** For five-bit keys the ratio of the decoder is the ratio of the vote. *)
Lemma key_ratio_five (value : Z) : key_ratio value 5 = int_true_divide value 31.
Proof. reflexivity. Qed.

(** The quotient of a five-bit value by 31 is a float. *)
Lemma true_divide_five (top : bitstring) (value : Z) :
  List.length top = 5%nat -> int2 top = Ok value ->
  true_divide value 31 = Ok (int_true_divide value 31).
Proof.
  intros Hlen Hint.
  destruct top as [|b1 [|b2 [|b3 [|b4 [|b5 [|b6 top]]]]]]; try discriminate Hlen.
  destruct b1, b2, b3, b4, b5; vm_compute in Hint; injection Hint as <-;
    vm_compute; reflexivity.
Qed.

(** X3. The key on which a node votes in the consensus phase is the key the
    decoder ranks first; when that key has five bits the node's vote is the
    Light-channel vote of the decoder's first position.  On an empty
    distribution the vote raises [ValueError], while the decoder returns
    the empty message. *)
Theorem vote_is_first_position (c : counts) :
  (c = [] -> vote_light c = Raise ValueError /\
             decode_counts c 5 = Ok (""%string, [], [], [])) /\
  (c <> [] ->
   exists top cnt rest,
     sorted_counts c = (top, cnt) :: rest /\
     top_key c = Ok top /\
     (List.length top = 5%nat ->
      forall p, decode_key top = Ok p ->
                vote_light c = Ok (wavelength_to_char (pos_wl p)))).
Proof.
  split.
  - intros ->. split; reflexivity.
  - intros Hc. destruct c as [|x r]; [congruence|].
    destruct (sorted_counts_head x r) as (rest & Hrest).
    destruct (max_from snd x r) as [top cnt] eqn:Hmax.
    exists top, cnt, rest. split; [exact Hrest|].
    assert (Htop : top_key (x :: r) = Ok top).
    { unfold top_key, max_key.
      change (max_from (fun x0 : bitstring * Z => snd x0) x r)
        with (max_from snd x r).
      rewrite Hmax. reflexivity. }
    split; [exact Htop|].
    intros Hlen p Hp.
    apply decode_key_ok in Hp as (value & Hint & Hwl & _).
    unfold vote_light.
    rewrite Htop, bind_ok, Hint, bind_ok, (true_divide_five top value Hlen Hint),
      bind_ok, Hwl, Hlen, key_ratio_five.
    unfold ratio_wl. reflexivity.
Qed.

Lemma vote_is_first_position_witness :
  Mock.answer Consensus <> [] /\
  top_key (Mock.answer Consensus) = Ok (Mock.bits "00101") /\
  vote_light (Mock.answer Consensus) = Ok "M"%char.
Proof.
  assert (Hne : Mock.answer Consensus <> []) by discriminate.
  split; [exact Hne|].
  destruct (proj2 (vote_is_first_position (Mock.answer Consensus)) Hne)
    as (top & cnt & rest & Hs & Htop & Hvote).
  assert (Ht : top = Mock.bits "00101").
  { assert (Hs' : sorted_counts (Mock.answer Consensus)
                  = [(Mock.bits "00101", 600); (Mock.bits "00011", 400)])
      by (vm_compute; reflexivity).
    rewrite Hs' in Hs. now injection Hs as <- _ _. }
  subst top. split; [exact Htop|].
  destruct (decode_key (Mock.bits "00101")) as [p|e] eqn:Hp;
    [|vm_compute in Hp; discriminate].
  rewrite (Hvote eq_refl p eq_refl).
  vm_compute in Hp. injection Hp as <-. vm_compute. reflexivity.
Defined.

End DecoderMore.

(** ** Strings as lists of characters *)

Section StringFacts.

Lemma list_of_string_length (s : string) :
  List.length (list_ascii_of_string s) = String.length s.
Proof. induction s; simpl; congruence. Qed.

Lemma list_of_string_app (s1 s2 : string) :
  list_ascii_of_string (s1 ++ s2)
  = (list_ascii_of_string s1 ++ list_ascii_of_string s2)%list.
Proof. induction s1; simpl; congruence. Qed.

Lemma string_of_list_app (l1 l2 : list ascii) :
  string_of_list_ascii (l1 ++ l2)%list
  = string_of_list_ascii l1 ++ string_of_list_ascii l2.
Proof. induction l1; simpl; congruence. Qed.

(** [msg[:n]] keeps the first [n] characters. *)
Lemma list_of_take (n : nat) (s : string) :
  list_ascii_of_string (take n s) = firstn n (list_ascii_of_string s).
Proof.
  unfold take. revert n. induction s as [|c s IH]; intros [|n]; simpl;
    try reflexivity.
  now rewrite IH.
Qed.

Lemma take_of_list (n : nat) (l : list ascii) :
  take n (string_of_list_ascii l) = string_of_list_ascii (firstn n l).
Proof.
  rewrite <- (string_of_list_ascii_of_string (take n _)), list_of_take.
  now rewrite list_ascii_of_string_of_list_ascii.
Qed.

Lemma firstn_min_length {X} (l : list X) (k : nat) :
  firstn (Nat.min (List.length l) k) l = firstn k l.
Proof.
  destruct (Nat.le_ge_cases (List.length l) k) as [H|H].
  - rewrite Nat.min_l by exact H.
    rewrite firstn_all. symmetry. now apply firstn_all2.
  - now rewrite Nat.min_r by exact H.
Qed.

End StringFacts.

(** ** The consensus aggregate on any number of votes *)

Section AggregateMore.

(** The padding loop, on the characters of the message. *)
Lemma pad_while_list (fuel : nat) (l : list ascii) (m : ascii) :
  (5 - List.length l <= fuel)%nat ->
  pad_while fuel (string_of_list_ascii l) m
  = string_of_list_ascii (l ++ repeat m (5 - List.length l))%list.
Proof.
  revert l. induction fuel as [|fuel IH]; intros l Hf; cbn [pad_while].
  - replace (5 - List.length l)%nat with 0%nat by lia.
    cbn [repeat]. now rewrite app_nil_r.
  - rewrite string_of_list_length.
    destruct (Nat.ltb_spec (List.length l) 5) as [Hlt|Hge].
    + change (String m EmptyString) with (string_of_list_ascii [m]).
      rewrite <- string_of_list_app, IH
        by (rewrite length_app; cbn [List.length]; lia).
      rewrite length_app, <- app_assoc.
      replace (5 - List.length l)%nat
        with (S (5 - (List.length l + List.length [m])))%nat
        by (cbn [List.length]; lia).
      reflexivity.
    + replace (5 - List.length l)%nat with 0%nat by lia.
      cbn [repeat]. now rewrite app_nil_r.
Qed.

(** X4. The aggregate step on any votes: without votes it raises
    [ValueError]; with at least one vote it returns a message of exactly
    five symbols, the votes in order followed by the majority symbol as
    often as needed, cut after the fifth symbol when there are more votes. *)
Theorem aggregate_any_votes (s votes : list ascii) :
  set_iteration votes s ->
  (votes = [] -> aggregate s votes = Raise ValueError) /\
  (votes <> [] ->
   exists m,
     majority_vote s votes = Ok m /\ In m votes /\
     aggregate s votes
     = Ok (m, string_of_list_ascii
                (firstn 5 (votes ++ repeat m (5 - List.length votes))%list)) /\
     List.length (firstn 5 (votes ++ repeat m (5 - List.length votes))%list)
     = 5%nat).
Proof.
  intros [Hnd Hiff]. split.
  - intros ->. destruct s as [|x r]; [reflexivity|].
    exfalso. apply (Hiff x). now left.
  - intros Hv.
    assert (Hs : s <> []).
    { destruct votes as [|v r]; [congruence|].
      intros ->. apply (Hiff v). now left. }
    destruct (max_key_first (count votes) s Hs)
      as (m & pre & post & Hm & Heq & _).
    exists m. unfold aggregate, majority_vote. rewrite Hm. cbn [bind].
    split; [reflexivity|].
    split; [apply Hiff; rewrite Heq; apply in_elt|].
    split.
    + now rewrite pad_while_list, take_of_list by lia.
    + rewrite length_firstn, length_app, repeat_length. lia.
Qed.

Lemma aggregate_any_votes_witness :
  set_iteration (list_ascii_of_string "ABCABCA") (list_ascii_of_string "CAB") /\
  aggregate (list_ascii_of_string "CAB") (list_ascii_of_string "ABCABCA")
  = Ok ("A"%char, "ABCAB").
Proof.
  assert (Hset : set_iteration (list_ascii_of_string "ABCABCA")
                               (list_ascii_of_string "CAB")).
  { split.
    - repeat constructor; simpl; intuition discriminate.
    - intros x; simpl; tauto. }
  split; [exact Hset|].
  destruct (proj2 (aggregate_any_votes _ _ Hset)) as (m & Hm & _ & Hagg & _);
    [discriminate|].
  rewrite Hagg.
  assert (Hm' : majority_vote (list_ascii_of_string "CAB")
                              (list_ascii_of_string "ABCABCA") = Ok "A"%char)
    by reflexivity.
  rewrite Hm' in Hm. injection Hm as <-. reflexivity.
Defined.

End AggregateMore.

(** ** The request builder *)

Section BuilderFacts.

Lemma upper_idempotent (c : ascii) : upper (upper c) = upper c.
Proof.
  destruct c as [[] [] [] [] [] [] [] []]; reflexivity.
Qed.

Lemma dict_get_absent (k : ascii) (table : list (ascii * float)) :
  ~ In k (map fst table) -> dict_get k table = None.
Proof.
  induction table as [|[k' v] r IH]; simpl; intros H; [reflexivity|].
  destruct (Ascii.eqb_spec k k') as [->|_]; [tauto|]. apply IH. tauto.
Qed.

Lemma dict_get_present (k : ascii) (table : list (ascii * float)) :
  In k (map fst table) -> exists v, dict_get k table = Some v.
Proof.
  induction table as [|[k' v] r IH]; simpl; intros H; [tauto|].
  destruct (Ascii.eqb_spec k k') as [->|Hne]; [eauto|].
  destruct H as [H|H]; [congruence | auto].
Qed.

(** The three look-ups under one key. *)
Lemma lookups_of_symbol (k : ascii) (ch : channel) :
  In k symbols ->
  char_to_channel ch k
  = Some (on_channel ch (dict_get_default k CHAR_WAVELENGTHS 540.3,
                         dict_get_default k CHAR_FREQUENCIES 262.6,
                         dict_get_default k CHAR_MICROWAVES 5.5)).
Proof.
  intros Hin. unfold char_to_channel, dict_get_default.
  rewrite <- (tables_share_keys ch) in Hin.
  apply dict_get_present in Hin as [v Hv].
  destruct ch; cbn [channel_table on_channel fst snd] in *; now rewrite Hv.
Qed.

Lemma lookups_of_other (k : ascii) :
  ~ In k symbols ->
  (dict_get_default k CHAR_WAVELENGTHS 540.3,
   dict_get_default k CHAR_FREQUENCIES 262.6,
   dict_get_default k CHAR_MICROWAVES 5.5) = (540.3, 262.6, 5.5)%float.
Proof.
  intros Hout. unfold dict_get_default.
  rewrite (dict_get_absent k CHAR_WAVELENGTHS),
    (dict_get_absent k CHAR_FREQUENCIES),
    (dict_get_absent k CHAR_MICROWAVES); [reflexivity|..]; exact Hout.
Qed.

Lemma in_symbols_iff (k : ascii) :
  existsb (Ascii.eqb k) symbols = true <-> In k symbols.
Proof.
  rewrite existsb_exists. split.
  - intros (x & Hx & Heq). apply Ascii.eqb_eq in Heq. now subst.
  - intros H. exists k. split; [exact H | apply Ascii.eqb_refl].
Qed.

(** On the characters of a message, [encode_char] is the encoding of the
    character's code point. *)
Lemma encode_char_codepoint (c : ascii) :
  encode_codepoint (N_of_ascii c) = encode_char c.
Proof.
  destruct c as [[] [] [] [] [] [] [] []]; vm_compute; reflexivity.
Qed.

Lemma key_in_codebook_char (c : ascii) :
  key_in_codebook (N_of_ascii c) = folds_into_codebook (N_of_ascii c).
Proof.
  destruct c as [[] [] [] [] [] [] [] []]; vm_compute; reflexivity.
Qed.

Lemma lower_case_char (c : ascii) :
  ((97 <=? N_of_ascii c) && (N_of_ascii c <=? 122))%N = true ->
  encode_codepoint (N_of_ascii c) = encode_codepoint (N_of_ascii c - 32).
Proof.
  destruct c as [[] [] [] [] [] [] [] []]; intros H; vm_compute in H;
    try discriminate H; vm_compute; reflexivity.
Qed.

Lemma codepoint_of_char (cp : codepoint) :
  (cp < 256)%N -> N_of_ascii (ascii_of_N cp) = cp.
Proof. apply N_ascii_embedding. Qed.

Lemma key_in_codebook_folds (cp : codepoint) :
  key_in_codebook cp = folds_into_codebook cp.
Proof.
  destruct (N.lt_ge_cases cp 256) as [Hlt|Hge].
  - rewrite <- (codepoint_of_char cp Hlt). apply key_in_codebook_char.
  - unfold key_in_codebook, upper_key, folds_into_codebook.
    assert (H1 : (cp <? 128)%N = false) by (apply N.ltb_ge; lia).
    assert (H2 : (cp <=? 90)%N = false) by (apply N.leb_gt; lia).
    assert (H3 : (cp <=? 122)%N = false) by (apply N.leb_gt; lia).
    assert (H4 : (cp =? 32)%N = false) by (apply N.eqb_neq; lia).
    rewrite H1, H2, H3, H4, !andb_false_r. cbn [orb].
    destruct (cp =? 305)%N; [reflexivity|].
    destruct (cp =? 383)%N; reflexivity.
Qed.

(** X5. Encoding of a character, for every character of a Python string:
    on the characters a message of the model can hold it is [encode_char];
    the case of a letter a to z does not matter; U+0131 and U+017F are
    encoded as I and S, their upper case; a character whose upper case is a
    symbol of the codebook is encoded by the three table values of that
    symbol; and every other character is encoded exactly like a space. *)
Theorem encode_char_cases (cp : codepoint) :
  (forall c : ascii, encode_codepoint (N_of_ascii c) = encode_char c) /\
  ((97 <= cp <= 122)%N -> encode_codepoint cp = encode_codepoint (cp - 32)) /\
  (encode_codepoint 305 = encode_char "I"%char /\
   encode_codepoint 383 = encode_char "S"%char) /\
  (folds_into_codebook cp = true ->
   exists k, upper_key cp = Some k /\ In k symbols /\
             forall ch, char_to_channel ch k
                        = Some (on_channel ch (encode_codepoint cp))) /\
  (folds_into_codebook cp = false ->
   encode_codepoint cp = encode_char " "%char).
Proof.
  split; [exact encode_char_codepoint|].
  split.
  { intros [Hlo Hhi].
    assert (Hlt : (cp < 256)%N) by lia.
    rewrite <- (codepoint_of_char cp Hlt). apply lower_case_char.
    rewrite (codepoint_of_char cp Hlt).
    apply andb_true_intro. split; now apply N.leb_le. }
  split; [split; vm_compute; reflexivity|].
  rewrite <- key_in_codebook_folds. unfold key_in_codebook, encode_codepoint.
  change (encode_char " "%char) with (540.3, 262.6, 5.5)%float.
  destruct (upper_key cp) as [k|].
  - split.
    + intros Hin. apply in_symbols_iff in Hin.
      exists k. split; [reflexivity|]. split; [exact Hin|].
      intros ch. now apply lookups_of_symbol.
    + intros Hout. apply lookups_of_other. intros Hin.
      apply in_symbols_iff in Hin. congruence.
  - split; [discriminate | reflexivity].
Qed.

Lemma encode_char_cases_witness :
  encode_codepoint 110 = encode_codepoint 78 /\
  char_to_channel Light "N"%char = Some (on_channel Light (encode_codepoint 110)) /\
  encode_codepoint 233 = encode_char " "%char.
Proof.
  assert (Hrange : (97 <= 110 <= 122)%N) by lia.
  split; [exact (proj1 (proj2 (encode_char_cases 110%N)) Hrange)|].
  split.
  - destruct (proj1 (proj2 (proj2 (proj2 (encode_char_cases 110%N)))) eq_refl)
      as (k & Hk & _ & Hch).
    injection Hk as <-. exact (Hch Light).
  - exact (proj2 (proj2 (proj2 (proj2 (encode_char_cases 233%N)))) eq_refl).
Defined.

Lemma cx_last_first (n : nat) :
  cx n (Z.of_nat n - 1) 0
  = if (n <=? 1)%nat then Raise CircuitError else Ok tt.
Proof.
  destruct n as [|[|n]]; try reflexivity.
  unfold cx, qubit_index.
  assert (H1 : (0 <=? Z.of_nat (S (S n)) - 1)%Z = true) by (apply Z.leb_le; lia).
  assert (H2 : (Z.of_nat (S (S n)) - 1 <? Z.of_nat (S (S n)))%Z = true)
    by (apply Z.ltb_lt; lia).
  assert (H3 : (0 <? Z.of_nat (S (S n)))%Z = true) by (apply Z.ltb_lt; lia).
  assert (H4 : (Z.of_nat (S (S n)) - 1 =? 0)%Z = false) by (apply Z.eqb_neq; lia).
  rewrite H1, H2. cbn [andb bind].
  change (0 <=? 0)%Z with true. rewrite H3. cbn [andb bind].
  now rewrite H4.
Qed.

(** The third relay leg cannot be built on a message of fewer than two
    symbols; every other relay circuit can. *)
Lemma build_relay_cases (msg : string) (leg : nat) :
  build_relay msg leg
  = if Nat.eqb leg 3 && (Nat.min (String.length msg) 5 <=? 1)%nat
    then Raise CircuitError
    else Ok (mkCircuit (Relay leg) (Nat.min (String.length msg) 5)
                       (encode_message (Nat.min (String.length msg) 5) msg)).
Proof.
  unfold build_relay. destruct (Nat.eqb leg 3); cbn [andb bind]; [|reflexivity].
  rewrite cx_last_first.
  now destruct (Nat.min (String.length msg) 5 <=? 1)%nat.
Qed.

Lemma firstn_repeat_five {X} (a : X) (k : nat) :
  (k <= 5)%nat -> firstn k (repeat a 5) = repeat a k.
Proof.
  intros H. do 6 (destruct k as [|k]; [reflexivity|]). lia.
Qed.

Lemma encode_message_first_five (msg : string) :
  encode_message (Nat.min (String.length msg) 5) msg
  = map encode_char (firstn 5 (list_ascii_of_string msg)).
Proof.
  unfold encode_message.
  now rewrite list_of_take, <- list_of_string_length, firstn_min_length.
Qed.

(** X6. The builders look at the first five symbols only: echo, relay and
    ping circuits have min(len, 5) qubits and encode one symbol per qubit,
    the first [len] or five symbols of the message; the consensus circuit
    always has five qubits, the message being filled up with A.  Building
    fails in one case only, with [CircuitError]: the third relay leg on a
    message of fewer than two symbols.  In all four builders a message and
    its first five symbols give the same outcome. *)
Theorem builders_first_five (msg : string) (leg : nat) (is_pong : bool) :
  let first := firstn 5 (list_ascii_of_string msg) in
  (build_echo msg
   = mkCircuit Echo (List.length first) (map encode_char first) /\
   build_relay msg leg
   = (if Nat.eqb leg 3 && (List.length first <=? 1)%nat
      then Raise CircuitError
      else Ok (mkCircuit (Relay leg) (List.length first)
                         (map encode_char first))) /\
   build_ping msg is_pong
   = mkCircuit (if is_pong then Pong else Ping) (List.length first)
               (map encode_char first) /\
   build_consensus msg
   = mkCircuit Consensus 5
       (map encode_char (first ++ repeat "A"%char (5 - List.length first))%list)) /\
  (List.length first <= 5)%nat /\
  (build_echo (take 5 msg) = build_echo msg /\
   build_relay (take 5 msg) leg = build_relay msg leg /\
   build_ping (take 5 msg) is_pong = build_ping msg is_pong /\
   build_consensus (take 5 msg) = build_consensus msg).
Proof.
  cbv zeta.
  assert (Hlen : forall s : string,
             Nat.min (String.length s) 5
             = List.length (firstn 5 (list_ascii_of_string s))).
  { intros s. rewrite length_firstn, list_of_string_length. apply Nat.min_comm. }
  assert (Hcons : forall s : string,
             build_consensus s
             = mkCircuit Consensus 5
                 (map encode_char
                    (firstn 5 (list_ascii_of_string s)
                     ++ repeat "A"%char
                          (5 - List.length (firstn 5 (list_ascii_of_string s))))%list)).
  { intros s. unfold build_consensus. f_equal. f_equal.
    rewrite list_of_take, list_of_string_app, firstn_app.
    f_equal. rewrite length_firstn.
    change (list_ascii_of_string "AAAAA") with (repeat "A"%char 5).
    replace (5 - Nat.min 5 (List.length (list_ascii_of_string s)))%nat
      with (5 - List.length (list_ascii_of_string s))%nat by lia.
    apply firstn_repeat_five. lia. }
  assert (Hfirst : forall s : string,
             firstn 5 (list_ascii_of_string (take 5 s))
             = firstn 5 (list_ascii_of_string s)).
  { intros s. rewrite list_of_take, firstn_firstn. reflexivity. }
  assert (Hecho : forall s, build_echo s
                            = mkCircuit Echo
                                (List.length (firstn 5 (list_ascii_of_string s)))
                                (map encode_char (firstn 5 (list_ascii_of_string s)))).
  { intros s. unfold build_echo. now rewrite encode_message_first_five, Hlen. }
  assert (Hrelay : forall s,
             build_relay s leg
             = if Nat.eqb leg 3
                  && (List.length (firstn 5 (list_ascii_of_string s)) <=? 1)%nat
               then Raise CircuitError
               else Ok (mkCircuit (Relay leg)
                          (List.length (firstn 5 (list_ascii_of_string s)))
                          (map encode_char (firstn 5 (list_ascii_of_string s))))).
  { intros s. rewrite build_relay_cases.
    now rewrite encode_message_first_five, Hlen. }
  assert (Hping : forall s, build_ping s is_pong
                            = mkCircuit (if is_pong then Pong else Ping)
                                (List.length (firstn 5 (list_ascii_of_string s)))
                                (map encode_char (firstn 5 (list_ascii_of_string s)))).
  { intros s. unfold build_ping. now rewrite encode_message_first_five, Hlen. }
  split; [auto|].
  split; [rewrite length_firstn; lia|].
  rewrite (Hecho (take 5 msg)), (Hrelay (take 5 msg)), (Hping (take 5 msg)),
    (Hcons (take 5 msg)), Hecho, Hrelay, Hping, Hcons, Hfirst.
  auto.
Qed.

End BuilderFacts.

(** ** The log file *)

Section LogFileFacts.

Context {World : Type}.

Lemma save_loop_result_ok (n : nat) (data : loop_record) (s : state World) :
  log_file (disk s) <> HoldsOther ->
  writable (disk s) = true ->
  save_loop_result n data s
  = (Ok tt,
     set_disk (mkFs (HoldsList (held_records (log_file (disk s)) ++ [JRecord data])%list)
                    true) s).
Proof.
  intros Hf Hw. unfold save_loop_result. rewrite Hw.
  destruct (log_file (disk s)); try reflexivity. congruence.
Qed.


End LogFileFacts.



(** ** One iteration of the loop, step by step *)

Section IterationFacts.

Context {World : Type}.
Variable env : Env World.

(** The end of a successful pass when the log file takes the record. *)
Lemma record_loop_saved (t0 : float) (response : string) (s : state World) :
  log_file (disk s) <> HoldsOther ->
  writable (disk s) = true ->
  let r := mkLoopRecord (loop_num s) (isoformat_now env (world s)) (current s)
             response (jobs_this_loop s) (List.length (jobs_this_loop s))
             (round1 env (time_time env (world s) - t0)%float)
             (total_jobs s + List.length (jobs_this_loop s)) in
  let s' := snd (record_loop env t0 response s) in
  fst (record_loop env t0 response s) = Ok tt /\
  disk s' = mkFs (HoldsList (held_records (log_file (disk s)) ++ [JRecord r])%list) true /\
  current s' = response /\
  total_jobs s' = (total_jobs s + List.length (jobs_this_loop s))%nat /\
  loop_num s' = loop_num s /\ world s' = world s /\ running s' = running s.
Proof.
  intros Hf Hw. cbv zeta.
  unfold record_loop, bindM, clock, now_iso, gets, modify, log. cbn.
  rewrite save_loop_result_ok by assumption. cbn. repeat split.
Qed.

(** The end of a successful pass when the log file refuses the record. *)
Lemma record_loop_refused (t0 : float) (response : string) (s : state World) :
  log_file (disk s) = HoldsOther \/ writable (disk s) = false ->
  let s' := snd (record_loop env t0 response s) in
  (exists e, fst (record_loop env t0 response s) = Raise e /\
             (e = AttributeError \/ e = OSError)) /\
  disk s' = disk s /\ current s' = current s /\
  total_jobs s' = (total_jobs s + List.length (jobs_this_loop s))%nat /\
  loop_num s' = loop_num s /\ calls s' = calls s /\ status s' = status s.
Proof.
  intros H. cbv zeta.
  unfold record_loop, bindM, clock, now_iso, gets, modify, log, save_loop_result.
  cbn.
  destruct (log_file (disk s)); cbn;
    try (destruct (writable (disk s)); cbn);
    try (destruct H; discriminate);
    (split; [eexists; split; [reflexivity|auto]|repeat split]).
Qed.

End IterationFacts.

(** ** Bookkeeping of the loop *)

Ltac frame_if :=
  match goal with
  | |- unchanged _ (if ?b then _ else _) => destruct b
  end.

Section LedgerFacts.

Context {World : Type} {X : Type}.
Variable env : Env World.
Variable f : state World -> X.

Hypothesis f_assign : bookkeeping f.
Hypothesis f_flag : forall b s, f (set_running b s) = f s.

Lemma ledger_deliver (sig : bool) (s : state World) : f (deliver sig s) = f s.
Proof.
  destruct sig; [|reflexivity]. cbn.
  rewrite f_flag. apply (f_assign s).
Qed.

Lemma ledger_hw (b : backend) (qc : circuit) (shots : nat) :
  unchanged f (hw env b qc shots).
Proof.
  intros s. unfold hw.
  destruct (run_hw env b qc shots (world s)) as [[r sig] w]. cbn [snd].
  rewrite ledger_deliver. apply (f_assign s).
Qed.

Lemma ledger_sleep_for (seconds : nat) : unchanged f (sleep_for env seconds).
Proof.
  intros s. unfold sleep_for.
  destruct (sleep env seconds (world s)) as [sig w]. cbn [snd].
  rewrite ledger_deliver. apply (f_assign s).
Qed.

Lemma ledger_phases : unchanged f (phases env).
Proof.
  apply unchanged_phases; [exact f_assign | apply ledger_hw].
Qed.

Lemma ledger_on_error (e : exn) : unchanged f (on_error env e).
Proof.
  intros s. rewrite on_error_value. cbn [snd].
  change (f (set_current "NICHE" ?x)) with (f (set_current "NICHE" x)).
  etransitivity; [apply (f_assign (deliver _ _))|].
  rewrite ledger_deliver. apply (f_assign s).
Qed.

End LedgerFacts.

Section RunningFacts.

Context {World : Type}.
Variable env : Env World.
Hypothesis quiet : signal_free env.

Lemma running_bookkeeping : bookkeeping (@running World).
Proof. intros s w cur jobs cl st. reflexivity. Qed.

Lemma running_hw (b : backend) (qc : circuit) (shots : nat) :
  unchanged running (hw env b qc shots).
Proof.
  intros s. unfold hw. pose proof (proj1 quiet b qc shots (world s)) as Hsig.
  destruct (run_hw env b qc shots (world s)) as [[r sig] w].
  cbn in Hsig. subst sig. reflexivity.
Qed.

Lemma running_sleep_for (seconds : nat) :
  unchanged running (sleep_for env seconds).
Proof.
  intros s. unfold sleep_for. pose proof (proj2 quiet seconds (world s)) as Hsig.
  destruct (sleep env seconds (world s)) as [sig w].
  cbn in Hsig. subst sig. reflexivity.
Qed.

Lemma running_save (n : nat) (data : loop_record) :
  unchanged (@running World) (save_loop_result n data).
Proof.
  intros s. unfold save_loop_result.
  destruct (log_file (disk s)); cbn; try destruct (writable (disk s));
    reflexivity.
Qed.

Lemma running_iteration : unchanged running (iteration env).
Proof.
  unfold iteration. apply unchanged_bind.
  - unfold loop_head, clock, now_iso, log. frame_with fail.
  - intros t. apply unchanged_try_except.
    + unfold try_body. apply unchanged_bind.
      { apply unchanged_phases; [apply running_bookkeeping | apply running_hw]. }
      intros response. apply unchanged_bind.
      { unfold record_loop, clock, now_iso, log.
        frame_with ltac:(apply running_save). }
      intros _. unfold pause, log.
      apply unchanged_bind; [apply unchanged_gets|]. intros [|].
      * frame_with ltac:(apply running_sleep_for).
      * apply unchanged_ret.
    + intros e. unfold on_error, log.
      frame_with ltac:(apply running_sleep_for).
Qed.


End RunningFacts.


(** ** Jobs of an iteration *)

Section JobFacts.

Context {World : Type}.
Variable env : Env World.

Lemma adds_eq {A} (m : M World A) (n n' : nat) :
  adds_jobs m n -> n = n' -> adds_jobs m n'.
Proof. now intros H <-. Qed.

Lemma adds_none {A} (m : M World A) :
  unchanged jobs_this_loop m -> adds_jobs m 0.
Proof. intros H s _. rewrite H. lia. Qed.

Lemma adds_bind {A B} (m : M World A) (k : A -> M World B) (n1 n2 : nat) :
  adds_jobs m n1 -> (forall a, adds_jobs (k a) n2) ->
  adds_jobs (bindM m k) (n1 + n2).
Proof.
  intros Hm Hk s. unfold bindM. specialize (Hm s).
  destruct (m s) as [[a|e] s1]; simpl in *; [|discriminate].
  intros Hok. rewrite (Hk a s1 Hok), (Hm eq_refl). lia.
Qed.

Lemma adds_append (jid : job_id) :
  adds_jobs (World:=World)
    (modify (fun s => set_jobs_this_loop (jobs_this_loop s ++ [jid])%list s)) 1.
Proof. intros s _. cbn. now rewrite length_app. Qed.

Lemma adds_for_each {Y} (body : Y -> M World unit) (n : nat) (xs : list Y) :
  (forall x, adds_jobs (body x) n) ->
  adds_jobs (for_each xs body) (List.length xs * n).
Proof.
  intros Hb. induction xs as [|x r IH]; cbn [for_each List.length Nat.mul].
  - apply adds_none, unchanged_ret.
  - apply adds_bind; auto.
Qed.

Lemma jobs_hw (b : backend) (qc : circuit) (shots : nat) :
  unchanged jobs_this_loop (hw env b qc shots).
Proof.
  intros s. unfold hw.
  destruct (run_hw env b qc shots (world s)) as [[r sig] w].
  now destruct sig.
Qed.

Lemma jobs_log (l : line) : unchanged (World:=World) jobs_this_loop (log l).
Proof. intros s. reflexivity. Qed.

Lemma adds_hop (label : string) (b : backend) (build : string -> result circuit)
      (shots : nat) :
  adds_jobs (hop env label b build shots) 1.
Proof.
  unfold hop.
  eapply adds_eq.
  - eapply adds_bind; [apply adds_none, unchanged_gets|]. intros msg.
    eapply adds_bind; [apply adds_none, jobs_log|]. intros _.
    eapply adds_bind; [apply adds_none, unchanged_lift|]. intros qc.
    eapply adds_bind; [apply adds_none, jobs_hw|]. intros [c jid].
    eapply adds_bind; [apply adds_none, unchanged_lift|]. intros response.
    eapply adds_bind; [apply adds_append|]. intros _.
    eapply adds_bind; [apply adds_none, jobs_log|]. intros _.
    apply adds_none, unchanged_modify. now intros [].
  - reflexivity.
Qed.

Lemma adds_final_echo : adds_jobs (final_echo env) 1.
Proof.
  unfold final_echo.
  eapply adds_eq.
  - eapply adds_bind; [apply adds_none, unchanged_gets|]. intros msg.
    eapply adds_bind; [apply adds_none, jobs_log|]. intros _.
    eapply adds_bind; [apply adds_none, jobs_hw|]. intros [c jid].
    eapply adds_bind; [apply adds_none, unchanged_lift|]. intros response.
    eapply adds_bind; [apply adds_append|]. intros _.
    eapply adds_bind; [apply adds_none, jobs_log|]. intros _.
    apply adds_none, unchanged_ret.
  - reflexivity.
Qed.

Lemma adds_collect_votes (order : list nat)
      (futs : list (nat * result (ascii * job_id))) (votes : list ascii) :
  adds_jobs (World:=World) (collect_votes order futs votes) (List.length order).
Proof.
  revert votes. induction order as [|i r IH]; intros votes;
    cbn [collect_votes List.length].
  - apply adds_none, unchanged_ret.
  - eapply adds_eq.
    + eapply adds_bind; [apply adds_none, unchanged_lift|]. intros [c jid].
      eapply adds_bind; [apply adds_append|]. intros _. apply IH.
    + reflexivity.
Qed.

Lemma jobs_do_vote (b : backend) (msg : string) :
  unchanged jobs_this_loop (do_vote env b msg).
Proof.
  unfold do_vote. apply unchanged_bind; [apply jobs_hw|]. intros [c jid].
  apply unchanged_bind; [apply unchanged_lift|]. intros ch.
  apply unchanged_ret.
Qed.

Lemma adds_consensus_phase : adds_jobs (consensus_phase env) 3.
Proof.
  unfold consensus_phase.
  eapply adds_eq.
  - eapply adds_bind; [apply adds_none, unchanged_gets|]. intros msg.
    eapply adds_bind; [apply adds_none, jobs_log|]. intros _.
    eapply adds_bind; [apply adds_none, unchanged_gets|]. intros starts.
    eapply adds_bind.
    { apply adds_none, unchanged_fan_out. intros i. apply jobs_do_vote. }
    intros futs.
    eapply adds_bind; [apply adds_none, unchanged_gets|]. intros finishes.
    eapply adds_bind.
    { eapply adds_eq; [apply adds_collect_votes|].
      instantiate (1 := 3%nat). now destruct finishes. }
    intros votes.
    eapply adds_bind; [apply adds_none, unchanged_lift|]. intros [m c].
    eapply adds_bind.
    { apply adds_none, unchanged_modify. now intros []. }
    intros _. apply adds_none, jobs_log.
  - reflexivity.
Qed.

(** A pass that returns has recorded ten jobs. *)
Lemma adds_phases : adds_jobs (phases env) 10.
Proof.
  unfold phases, later_phases.
  eapply adds_eq.
  - eapply adds_bind; [apply adds_hop|]. intros _.
    eapply adds_bind.
    { apply adds_for_each with (n := 1%nat). intros lb. apply adds_hop. }
    intros _. eapply adds_bind; [apply adds_consensus_phase|]. intros _.
    eapply adds_bind.
    { apply adds_for_each with (n := 1%nat). intros r. apply adds_hop. }
    intros _. apply adds_final_echo.
  - reflexivity.
Qed.

End JobFacts.

(** ** Outcome of an iteration *)

Section IterationOutcome.

Context {World : Type}.
Variable env : Env World.

Lemma disk_bookkeeping : bookkeeping (@disk World).
Proof. intros s w cur jobs cl st. reflexivity. Qed.

Lemma total_jobs_bookkeeping : bookkeeping (@total_jobs World).
Proof. intros s w cur jobs cl st. reflexivity. Qed.

Lemma loop_num_bookkeeping : bookkeeping (@loop_num World).
Proof. intros s w cur jobs cl st. reflexivity. Qed.

Lemma loop_head_ledger (s : state World) :
  disk (snd (loop_head env s)) = disk s /\
  total_jobs (snd (loop_head env s)) = total_jobs s.
Proof. split; reflexivity. Qed.

(** The state in which a pass ends, against the state before the
    iteration. *)
Lemma pass_ledger (s s0 sa : state World) (t0 : float) (r : result string) :
  loop_head env s = (Ok t0, s0) ->
  phases env s0 = (r, sa) ->
  disk sa = disk s /\ total_jobs sa = total_jobs s /\
  loop_num sa = (loop_num s + 1)%nat /\
  (is_ok r = true -> List.length (jobs_this_loop sa) = 10%nat).
Proof.
  intros Hhead Hpass.
  destruct (loop_head_value env s) as (_ & _ & _ & _ & Hn & Hjobs & _).
  destruct (loop_head_ledger s) as (Hd & Ht).
  rewrite Hhead in Hn, Hjobs, Hd, Ht. cbn [snd] in Hn, Hjobs, Hd, Ht.
  pose proof (ledger_phases env disk disk_bookkeeping
                (fun _ _ => eq_refl) s0) as Hd'.
  pose proof (ledger_phases env total_jobs total_jobs_bookkeeping
                (fun _ _ => eq_refl) s0) as Ht'.
  pose proof (ledger_phases env loop_num loop_num_bookkeeping
                (fun _ _ => eq_refl) s0) as Hn'.
  pose proof (adds_phases env s0) as Hj.
  rewrite Hpass in Hd', Ht', Hn', Hj. cbn [fst snd] in Hd', Ht', Hn', Hj.
  rewrite Hd', Ht', Hn', Hd, Ht, Hn.
  repeat split. intros Hok. rewrite (Hj Hok), Hjobs. reflexivity.
Qed.

(** X9. An iteration whose phases raise leaves no trace in the books: the
    log file and the count of all jobs are as before the iteration, the
    loop number has advanced by one and the message is NICHE. *)
Theorem failed_pass_leaves_no_record
  (s s0 s1 : state World) (t0 : float) (e : exn) :
  loop_head env s = (Ok t0, s0) ->
  phases env s0 = (Raise e, s1) ->
  let s2 := snd (iteration env s) in
  disk s2 = disk s /\ total_jobs s2 = total_jobs s /\
  loop_num s2 = (loop_num s + 1)%nat /\ current s2 = "NICHE".
Proof.
  intros Hhead Hpass. cbv zeta.
  destruct (pass_ledger s s0 s1 t0 (Raise e) Hhead Hpass) as (Hd & Ht & Hn & _).
  assert (Hit : iteration env s = on_error env e s1).
  { unfold iteration, bindM, try_except, try_body. rewrite Hhead.
    unfold bindM. now rewrite Hpass. }
  rewrite Hit.
  rewrite (ledger_on_error env disk disk_bookkeeping (fun _ _ => eq_refl) e s1).
  rewrite (ledger_on_error env total_jobs total_jobs_bookkeeping
             (fun _ _ => eq_refl) e s1).
  rewrite (ledger_on_error env loop_num loop_num_bookkeeping
             (fun _ _ => eq_refl) e s1).
  repeat split; auto. now rewrite on_error_value.
Qed.



End IterationOutcome.

Lemma failed_pass_leaves_no_record_witness :
  let env := Mock.env_with Mock.terse None None in
  let s := initial_state 0%nat Mock.good_disk in
  let s0 := snd (loop_head env s) in
  phases env s0 = (Raise CircuitError, snd (phases env s0)) /\
  List.length (calls (snd (phases env s0))) = 3%nat /\
  disk (snd (iteration env s)) = Mock.good_disk /\
  total_jobs (snd (iteration env s)) = 0%nat /\
  loop_num (snd (iteration env s)) = 1%nat /\
  current (snd (iteration env s)) = "NICHE".
Proof.
  cbv zeta.
  assert (H1 : loop_head (Mock.env_with Mock.terse None None)
                         (initial_state 0%nat Mock.good_disk)
               = (Ok 0%float,
                  snd (loop_head (Mock.env_with Mock.terse None None)
                                 (initial_state 0%nat Mock.good_disk))))
    by (vm_compute; reflexivity).
  assert (H2 : phases (Mock.env_with Mock.terse None None)
                 (snd (loop_head (Mock.env_with Mock.terse None None)
                                 (initial_state 0%nat Mock.good_disk)))
               = (Raise CircuitError,
                  snd (phases (Mock.env_with Mock.terse None None)
                         (snd (loop_head (Mock.env_with Mock.terse None None)
                                 (initial_state 0%nat Mock.good_disk))))))
    by (vm_compute; reflexivity).
  split; [exact H2|].
  split; [vm_compute; reflexivity|].
  destruct (failed_pass_leaves_no_record (Mock.env_with Mock.terse None None)
              _ _ _ _ _ H1 H2) as (Hd & Ht & Hn & Hcur).
  auto.
Defined.



(** ** Fan-out of the consensus phase *)

Section FanOutFacts.

Context {World : Type}.
Variable env : Env World.

(** X12. Fan-out: the consensus phase submits to each of the three
    backends exactly once, in the order the threads happen to start, and
    every node receives the same request: the consensus circuit of the
    current message with 1000 shots.  This holds whether or not some node
    fails. *)
Theorem consensus_asks_every_node (s : state World) :
  exists order,
    Permutation order backends /\
    calls (snd (consensus_phase env s))
    = (calls s
       ++ map (fun b => mkCall (Some b) (build_consensus (current s)) 1000)
              order)%list.
Proof.
  exists (map (fun i => nth i backends backend_a)
              (order_indices (start_order env (world s)))).
  split.
  - destruct (start_order env (world s)); cbn;
      apply NoDup_Permutation;
      try (repeat constructor; cbn; intuition discriminate);
      intros x; cbn; tauto.
  - rewrite consensus_calls, map_map. reflexivity.
Qed.

End FanOutFacts.

(** ** Reach of the decoder *)

Section ReachFacts.

Lemma keys_of_width_complete (b : bitstring) :
  In b (keys_of_width (List.length b)).
Proof.
  induction b as [|x r IH]; cbn [keys_of_width List.length]; [now left|].
  apply in_or_app. destruct x; [right | left]; now apply in_map.
Qed.

Lemma keys_in_reach :
  forallb key_in_reach (flat_map keys_of_width [1; 2; 3; 4; 5]%nat) = true.
Proof. vm_compute. reflexivity. Qed.

Lemma key_in_reach_short (b : bitstring) :
  (1 <= List.length b <= 5)%nat -> key_in_reach b = true.
Proof.
  intros Hw. pose proof keys_in_reach as H.
  rewrite forallb_forall in H. apply H.
  apply in_flat_map. exists (List.length b).
  split; [|apply keys_of_width_complete].
  cbn. lia.
Qed.

(** X13. Reach of the decoder on the keys the circuits can produce (one to
    five bits): such a key always decodes, only to one of the seventeen
    symbols A C F H I J K L M P R U W X Y Z and space, and its Light and
    Sound votes never agree.  A distribution of such keys therefore never
    decodes to a message with B, D, E, G, N, O, Q, S, T or V, and never to
    NICHE or NICHO, the messages the scripts start from. *)
Theorem decoder_reach (c : counts) (n : nat) :
  Forall (fun kv => (1 <= List.length (fst kv) <= 5)%nat) c ->
  exists ps,
    decode_counts c n
    = Ok (string_of_list_ascii (map pos_char ps),
          map pos_wl ps, map pos_freq ps, map pos_mw ps) /\
    Forall (fun p => In (pos_char p) reachable_symbols /\
                     wavelength_to_char (pos_wl p)
                     <> frequency_to_char (pos_freq p)) ps /\
    string_of_list_ascii (map pos_char ps) <> "NICHE" /\
    string_of_list_ascii (map pos_char ps) <> "NICHO".
Proof.
  intros Hc.
  assert (Hitems : Forall (fun kv : bitstring * Z =>
                             (1 <= List.length (fst kv) <= 5)%nat)
                          (firstn n (sorted_counts c))).
  { apply Forall_take. eapply Permutation_Forall; [apply sorted_perm|exact Hc]. }
  assert (Hps : exists ps,
             decode_keys (firstn n (sorted_counts c)) = Ok ps /\
             Forall (fun p => In (pos_char p) reachable_symbols /\
                              wavelength_to_char (pos_wl p)
                              <> frequency_to_char (pos_freq p)) ps).
  { induction Hitems as [|[b k] r Hb _ IH]; cbn [decode_keys].
    - exists []. split; [reflexivity | constructor].
    - destruct IH as (ps & -> & Hall).
      pose proof (key_in_reach_short b Hb) as Hk. unfold key_in_reach in Hk.
      destruct (decode_key b) as [p|e]; [|discriminate].
      exists (p :: ps). split; [reflexivity|]. constructor; [|exact Hall].
      apply andb_prop in Hk as [Hin Hne]. split.
      + apply existsb_exists in Hin as (x & Hx & Hxe).
        apply Ascii.eqb_eq in Hxe. now subst x.
      + intros Heq. rewrite Heq, Ascii.eqb_refl in Hne. discriminate. }
  destruct Hps as (ps & Hps & Hall).
  exists ps. unfold decode_counts. rewrite Hps. cbn [bind].
  split; [reflexivity|]. split; [exact Hall|].
  assert (HN : ~ In "N"%char (map pos_char ps)).
  { intros Hin. apply in_map_iff in Hin as (p & Hp & Hin).
    rewrite Forall_forall in Hall. destruct (Hall p Hin) as [Hr _].
    rewrite Hp in Hr. cbn in Hr. intuition discriminate. }
  split; intros Heq; apply HN;
    apply (f_equal list_ascii_of_string) in Heq;
    rewrite list_ascii_of_string_of_list_ascii in Heq; rewrite Heq;
    cbn; auto.
Qed.

Lemma decoder_reach_witness :
  Forall (fun kv : bitstring * Z => (1 <= List.length (fst kv) <= 5)%nat)
         (Mock.answer Echo) /\
  exists ps,
    decode_counts (Mock.answer Echo) 5
    = Ok (string_of_list_ascii (map pos_char ps),
          map pos_wl ps, map pos_freq ps, map pos_mw ps) /\
    string_of_list_ascii (map pos_char ps) <> "NICHE".
Proof.
  assert (H : Forall (fun kv : bitstring * Z =>
                        (1 <= List.length (fst kv) <= 5)%nat)
                     (Mock.answer Echo))
    by (repeat constructor; cbn; lia).
  split; [exact H|].
  destruct (decoder_reach (Mock.answer Echo) 5 H) as (ps & Hd & _ & Hn & _).
  exists ps. auto.
Defined.

End ReachFacts.

(** ** Message threading in the single run *)

Section ThreadFacts.

Context {World : Type}.
Variable env : Env World.

(** X14. Message threading of the single run: when the pipeline returns,
    its log holds eleven entries, of the phases ECHO, ECHO, RELAY, RELAY,
    RELAY, CONSENSUS, PINGPONG four times and ECHO_FINAL, each under the
    node the script names for it; the first entry takes NICHO, every later
    entry takes the message the entry before it gave, and the last entry
    gives the message the pipeline returns. *)
Theorem single_run_log_is_chained (s : state World) (final : string) :
  fst (full_experiment env s) = Ok final ->
  exists entries,
    pipeline_log (snd (full_experiment env s)) = entries /\
    map stage entries = single_run_stages /\
    chained "NICHO" entries final.
Proof.
  intros Hok.
  destruct (delivers_pipeline env (set_current "NICHO" (set_pipeline_log [] s))
              eq_refl final Hok)
    as (entries & Hlog & Hnames & Hch).
  exists entries. split; [exact Hlog|]. auto.
Qed.

End ThreadFacts.

Lemma single_run_log_is_chained_witness :
  fst (full_experiment (Mock.env None None) (initial_state 0%nat Mock.good_disk))
  = Ok "MI" /\
  exists entries,
    pipeline_log (snd (full_experiment (Mock.env None None)
                                       (initial_state 0%nat Mock.good_disk)))
    = entries /\
    map stage entries = single_run_stages /\
    chained "NICHO" entries "MI".
Proof.
  assert (H : fst (full_experiment (Mock.env None None)
                                   (initial_state 0%nat Mock.good_disk))
              = Ok "MI") by (vm_compute; reflexivity).
  split; [exact H|].
  exact (single_run_log_is_chained (Mock.env None None) _ _ H).
Defined.
